(** * html-textify: HTML to plain text, with formatting and line wrapping

    A shallow embedding of [src/utils/preserveFormat.ts], [src/utils/wrapByWords.ts]
    and [src/index.ts] (textify), and the properties of the specification
    that are stated about them.

    Strings.  A JavaScript string is a sequence of UTF-16 code units.  The
    development works on code units below 256, held in [ascii]; a text is a
    [list ascii].  On that range the white space of [trim] and of [\s] is
    TAB, LF, VT, FF, CR, SPACE and NBSP (U+00A0), the line terminators are LF
    and CR, and [toLowerCase] changes A-Z and the Latin-1 capitals only.

    Numbers.  The counts and lengths that the callers pass are integers, in
    [Z]; an optional argument is an [option].  A call returns its result or
    throws ([outcome]).

    Regular expressions.  Every pass of the program is a [String.replace] with
    a regular expression.  Each expression of the source is written as a
    term of [regex], and matched by a backtracking matcher that returns the
    possible matches in the order in which the ECMAScript matcher tries them;
    the head of that list is the match the program sees. *)

From Stdlib Require Import Ascii String.
From Stdlib Require Import List Arith Bool ZArith Lia.
From Stdlib Require Import Numbers.DecimalString.
Import ListNotations.

Set Implicit Arguments.

Local Open Scope char_scope.
Local Open Scope list_scope.

(** ** Characters and texts *)

Definition text := list ascii.

Definition LF : ascii := "010".
Definition CR : ascii := "013".
Definition TAB : ascii := "009".
Definition DQ : ascii := "034".

(** A text literal.  In a literal, [\n] is LF, [\t] is TAB, [\q] is the
    double quote and [\\] is the backslash. *)
Fixpoint js (s : string) : text :=
  match s with
  | EmptyString => []
  | String "\" (String "n" s') => LF :: js s'
  | String "\" (String "t" s') => TAB :: js s'
  | String "\" (String "q" s') => DQ :: js s'
  | String "\" (String "\" s') => "\" :: js s'
  | String c s' => c :: js s'
  end.

Definition text_eqb (a b : text) : bool :=
  if list_eq_dec ascii_dec a b then true else false.

Definition between (lo hi c : ascii) : bool := ((lo <=? c) && (c <=? hi))%char.

Definition shift_up (c : ascii) : ascii := ascii_of_nat (nat_of_ascii c + 32).
Definition shift_down (c : ascii) : ascii := ascii_of_nat (nat_of_ascii c - 32).

(** WhiteSpace and LineTerminator code units: what [String.prototype.trim]
    strips and what [\s] matches. *)
Definition isSpace (c : ascii) : bool :=
  between "009" "013" c || Ascii.eqb c " " || Ascii.eqb c "160".

(** Line terminators: what [.] does not match without the [s] flag. *)
Definition isLineTerminator (c : ascii) : bool :=
  Ascii.eqb c LF || Ascii.eqb c CR.

(** The word characters of [\b]. *)
Definition isWordChar (c : ascii) : bool :=
  between "a" "z" c || between "A" "Z" c || between "0" "9" c || Ascii.eqb c "_".

(** [String.prototype.toLowerCase], one code unit at a time. *)
Definition lowerChar (c : ascii) : ascii :=
  if between "A" "Z" c then shift_up c
  else if between "192" "222" c && negb (Ascii.eqb c "215") then shift_up c
  else c.

Definition toLowerCase (s : text) : text := map lowerChar s.

(** [Array.prototype.includes] on an array of strings, and [Set.has]. *)
Definition includes (xs : list text) (x : text) : bool :=
  existsb (text_eqb x) xs.

Fixpoint dropWhile (p : ascii -> bool) (s : text) : text :=
  match s with
  | [] => []
  | c :: s' => if p c then dropWhile p s' else s
  end.

Definition trimStart (s : text) : text := dropWhile isSpace s.
Definition trimEnd (s : text) : text := rev (dropWhile isSpace (rev s)).

(** [String.prototype.trim]. *)
Definition trim (s : text) : text := trimEnd (trimStart s).

(** [Array.prototype.join]. *)
Fixpoint join (sep : text) (xs : list text) : text :=
  match xs with
  | [] => []
  | [x] => x
  | x :: xs' => x ++ sep ++ join sep xs'
  end.

(** [String.prototype.split] with a one-character separator: [cur] is the
    piece being read. *)
Fixpoint splitOn_from (sep : ascii) (cur : text) (s : text) : list text :=
  match s with
  | [] => [rev cur]
  | c :: s' =>
      if Ascii.eqb c sep then rev cur :: splitOn_from sep [] s'
      else splitOn_from sep (c :: cur) s'
  end.

Definition splitOn (sep : ascii) (s : text) : list text := splitOn_from sep [] s.

(** The decimal digits of a counter, as the template literal prints it. *)
Definition showNat (n : nat) : text :=
  list_ascii_of_string (NilEmpty.string_of_uint (Nat.to_uint n)).

(** ** Regular expressions *)

Module Re.

(** A member of a character class. *)
Inductive item :=
| ILit (c : ascii)
| IRange (lo hi : ascii)
| ISpace.

Inductive regex :=
| Eps
| Chr (c : ascii)
| Dot
| Cls (neg : bool) (items : list item)
| Seq (r1 r2 : regex)
| Alt (r1 r2 : regex)
| Star (greedy : bool) (r : regex)
| Grp (i : nat) (r : regex)
| Bref (i : nat)
| WordB
| Eos.

(** The flags [i] and [s].  The flag [g] is the choice between [replaceAll]
    and [replaceFirst] below. *)
Record flags := { icase : bool; dotall : bool }.

Definition f_g : flags := {| icase := false; dotall := false |}.
Definition f_gi : flags := {| icase := true; dotall := false |}.
Definition f_gis : flags := {| icase := true; dotall := true |}.

(** Canonicalize of the ECMAScript matcher, without the [u] flag: the upper
    case of the code unit, unless that maps a code unit from 128 on below 128.
    The literals and the class members of every expression here are below
    128, and a code unit from 128 on is never canonicalized below 128, so for
    the comparisons made here only a-z change. *)
Definition canon (fl : flags) (c : ascii) : ascii :=
  if icase fl then (if between "a" "z" c then shift_down c else c) else c.

Definition same (fl : flags) (a b : ascii) : bool :=
  Ascii.eqb (canon fl a) (canon fl b).

(** Is there a member of the class item with the same canonical form as [c]? *)
Definition item_has (fl : flags) (c : ascii) (it : item) : bool :=
  match it with
  | ILit a => same fl a c
  | IRange lo hi =>
      between lo hi c
      || (icase fl && (between lo hi (canon fl c)
                       || (between "A" "Z" c && between lo hi (shift_up c))))
  | ISpace => isSpace c
  end.

(** The state of a match: the text still to read, the character just before
    it (for [\b]) and the captures so far, the latest first. *)
Record mstate := { rest : text; prev : option ascii; caps : list (nat * text) }.

Definition start (p : option ascii) (s : text) : mstate :=
  {| rest := s; prev := p; caps := [] |}.

Definition step (x : ascii) (xs : text) (st : mstate) : mstate :=
  {| rest := xs; prev := Some x; caps := caps st |}.

Fixpoint get_cap (i : nat) (cs : list (nat * text)) : option text :=
  match cs with
  | [] => None
  | (j, s) :: cs' => if Nat.eqb i j then Some s else get_cap i cs'
  end.

(** What was read between two states. *)
Definition consumed (st st' : mstate) : text :=
  firstn (length (rest st) - length (rest st')) (rest st).

Definition set_cap (i : nat) (st st' : mstate) : mstate :=
  {| rest := rest st'; prev := prev st'; caps := (i, consumed st st') :: caps st' |}.

Definition one (p : ascii -> bool) (st : mstate) : list mstate :=
  match rest st with
  | x :: xs => if p x then [step x xs st] else []
  | [] => []
  end.

(** A backreference reads the captured text again, up to case under [i]. *)
Fixpoint again (fl : flags) (pat : text) (st : mstate) : list mstate :=
  match pat with
  | [] => [st]
  | p :: pat' =>
      match rest st with
      | x :: xs => if same fl x p then again fl pat' (step x xs st) else []
      | [] => []
      end
  end.

Definition word_at (o : option ascii) : bool :=
  match o with Some c => isWordChar c | None => false end.

(** Repetition.  [iter] gives the results of one more round; a round that
    reads nothing is rejected, as the ECMAScript RepeatMatcher does, so the
    length of the text bounds the number of rounds. *)
Fixpoint repeat_from (greedy : bool) (iter : mstate -> list mstate)
  (n : nat) (st : mstate) : list mstate :=
  match n with
  | 0 => [st]
  | S n' =>
      let more :=
        flat_map (fun st' =>
                    if Nat.ltb (length (rest st')) (length (rest st))
                    then repeat_from greedy iter n' st' else [])
                 (iter st) in
      if greedy then more ++ [st] else st :: more
  end.

(** The matches of [r] from a state, in the order of the backtracking
    matcher. *)
Fixpoint run (fl : flags) (r : regex) (st : mstate) : list mstate :=
  match r with
  | Eps => [st]
  | Chr c => one (fun x => same fl x c) st
  | Dot => one (fun x => dotall fl || negb (isLineTerminator x)) st
  | Cls neg items => one (fun x => xorb neg (existsb (item_has fl x) items)) st
  | Seq r1 r2 => flat_map (run fl r2) (run fl r1 st)
  | Alt r1 r2 => run fl r1 st ++ run fl r2 st
  | Star greedy r' => repeat_from greedy (run fl r') (length (rest st)) st
  | Grp i r' => map (set_cap i st) (run fl r' st)
  | Bref i =>
      match get_cap i (caps st) with
      | Some s => again fl s st
      | None => [st]
      end
  | WordB =>
      if xorb (word_at (prev st)) (word_at (hd_error (rest st))) then [st] else []
  | Eos => match rest st with [] => [st] | _ => [] end
  end.

(** A match as the callback of [replace] receives it: the matched text and
    the captures. *)
Record rmatch := { whole : text; groups : list (nat * text) }.

(** The capture [i] of a match ([undefined] reads as the empty text; every
    group used by a callback here takes part in every match). *)
Definition group (i : nat) (mt : rmatch) : text :=
  match get_cap i (groups mt) with Some s => s | None => [] end.

(** The match at the very start of [s], if there is one. *)
Definition match_here (fl : flags) (r : regex) (p : option ascii) (s : text)
  : option (rmatch * mstate) :=
  match run fl r (start p s) with
  | st' :: _ =>
      Some ({| whole := consumed (start p s) st'; groups := caps st' |}, st')
  | [] => None
  end.

(** [RegExp.prototype.exec]: the first position from which [r] matches, with
    the text before it. *)
Fixpoint exec (fl : flags) (r : regex) (p : option ascii) (s : text)
  : option (text * rmatch * mstate) :=
  match match_here fl r p s with
  | Some (mt, st') => Some ([], mt, st')
  | None =>
      match s with
      | [] => None
      | c :: s' =>
          match exec fl r (Some c) s' with
          | Some (before, mt, st') => Some (c :: before, mt, st')
          | None => None
          end
      end
  end.

(** The matches of a global expression in a text, with the text between
    them: what [RegExp.prototype[Symbol.replace]] collects before it builds
    its result. *)
Inductive segs :=
| Done (tail : text)
| Hit (before : text) (mt : rmatch) (next : segs).

Definition push_front (c : ascii) (sg : segs) : segs :=
  match sg with
  | Done t => Done (c :: t)
  | Hit b mt n => Hit (c :: b) mt n
  end.

(** After an empty match the search moves one code unit on. *)
Fixpoint matchAll_fuel (fuel : nat) (fl : flags) (r : regex)
  (p : option ascii) (s : text) : segs :=
  match fuel with
  | 0 => Done s
  | S fuel' =>
      match exec fl r p s with
      | None => Done s
      | Some (before, mt, st') =>
          match whole mt, rest st' with
          | [], [] => Hit before mt (Done [])
          | [], c :: s' =>
              Hit before mt (push_front c (matchAll_fuel fuel' fl r (Some c) s'))
          | _ :: _, _ =>
              Hit before mt (matchAll_fuel fuel' fl r (prev st') (rest st'))
          end
      end
  end.

Definition matchAll (fl : flags) (r : regex) (s : text) : segs :=
  matchAll_fuel (S (length s)) fl r None s.

(** The result of [replace] from the matches, with a callback that carries a
    state from one match to the next (the closure variables it updates). *)
Fixpoint build {A : Type} (cb : A -> rmatch -> text * A) (a : A) (sg : segs)
  : text :=
  match sg with
  | Done t => t
  | Hit b mt n => let (out, a') := cb a mt in b ++ out ++ build cb a' n
  end.

(** [s.replace(/r/g, callback)]. *)
Definition replaceAll (fl : flags) (r : regex) (cb : rmatch -> text) (s : text)
  : text :=
  build (fun (_ : unit) mt => (cb mt, tt)) tt (matchAll fl r s).

(** [s.replace(/r/g, callback)] with a callback that updates a counter. *)
Definition replaceAll_st {A : Type} (fl : flags) (r : regex)
  (cb : A -> rmatch -> text * A) (a : A) (s : text) : text :=
  build cb a (matchAll fl r s).

(** [s.replace(/r/, string)], without the [g] flag: the first match only. *)
Definition replaceFirst (fl : flags) (r : regex) (by_ : text) (s : text) : text :=
  match exec fl r None s with
  | Some (before, _, st') => before ++ by_ ++ rest st'
  | None => s
  end.

(** [s.split(/r/)] for an expression without groups: [cur] is the piece
    being read, reversed; an empty match at the start of a piece does not
    split. *)
Fixpoint split_fuel (fuel : nat) (fl : flags) (r : regex) (p : option ascii)
  (cur : text) (s : text) : list text :=
  match fuel with
  | 0 => [rev cur ++ s]
  | S fuel' =>
      match s with
      | [] => [rev cur]
      | c :: s' =>
          match match_here fl r p s with
          | None => split_fuel fuel' fl r (Some c) (c :: cur) s'
          | Some (mt, st') =>
              match whole mt, cur with
              | [], [] => split_fuel fuel' fl r (Some c) [c] s'
              | [], _ :: _ => rev cur :: split_fuel fuel' fl r (Some c) [c] s'
              | _ :: _, _ => rev cur :: split_fuel fuel' fl r (prev st') [] (rest st')
              end
          end
      end
  end.

Definition split (fl : flags) (r : regex) (s : text) : list text :=
  match s with
  | [] => match match_here fl r None [] with Some _ => [] | None => [[]] end
  | _ => split_fuel (length s) fl r None [] s
  end.

(** Writing expressions. *)
Definition seq (rs : list regex) : regex := fold_right Seq Eps rs.
Definition lit (s : string) : regex := seq (map Chr (list_ascii_of_string s)).
Definition opt (r : regex) : regex := Alt r Eps.
Definition star (r : regex) : regex := Star true r.
Definition plus (r : regex) : regex := Seq r (Star true r).
Definition lazy (r : regex) : regex := Star false r.
Definition ws : regex := Cls false [ISpace].

End Re.

Import Re.

(** ** preserveFormat (src/utils/preserveFormat.ts) *)

(** [/>\s+</g] *)
Definition re_gap : regex := seq [Chr ">"; plus ws; Chr "<"].

(** [/<br\s*\/?>/gi] *)
Definition re_br : regex := seq [lit "<br"; star ws; opt (Chr "/"); Chr ">"].

(** [/<\/(h[1-6]|p)>/gi] *)
Definition re_close : regex :=
  seq [lit "</"; Grp 1 (Alt (Seq (Chr "h") (Cls false [IRange "1" "6"])) (Chr "p"));
       Chr ">"].

(** [/<(b|strong)>(.*?)<\/\1>/gi] *)
Definition re_bold : regex :=
  seq [Chr "<"; Grp 1 (Alt (Chr "b") (lit "strong")); Chr ">"; Grp 2 (lazy Dot);
       lit "</"; Bref 1; Chr ">"].

(** [/<(i|em)>(.*?)<\/\1>/gi] *)
Definition re_italic : regex :=
  seq [Chr "<"; Grp 1 (Alt (Chr "i") (lit "em")); Chr ">"; Grp 2 (lazy Dot);
       lit "</"; Bref 1; Chr ">"].

(** [/<a\s+href="(.*?)".*?>(.*?)<\/a>/gi] *)
Definition re_link : regex :=
  seq [lit "<a"; plus ws; lit "href="; Chr DQ; Grp 1 (lazy Dot); Chr DQ; lazy Dot;
       Chr ">"; Grp 2 (lazy Dot); lit "</a>"].

(** [/<ol>(.*?)<\/ol>/gis] *)
Definition re_ol : regex := seq [lit "<ol>"; Grp 1 (lazy Dot); lit "</ol>"].

(** [/<ul>(.*?)<\/ul>/gis] *)
Definition re_ul : regex := seq [lit "<ul>"; Grp 1 (lazy Dot); lit "</ul>"].

(** [/<li>(.*?)<\/li>/gi] *)
Definition re_li : regex := seq [lit "<li>"; Grp 1 (lazy Dot); lit "</li>"].

(** [/<blockquote>(.*?)<\/blockquote>/gis] *)
Definition re_blockquote : regex :=
  seq [lit "<blockquote>"; Grp 1 (lazy Dot); lit "</blockquote>"].

(** [/<table>(.*?)<\/table>/gis] *)
Definition re_table : regex := seq [lit "<table>"; Grp 1 (lazy Dot); lit "</table>"].

(** [/<tr>(.*?)<\/tr>/gi] *)
Definition re_tr : regex := seq [lit "<tr>"; Grp 1 (lazy Dot); lit "</tr>"].

(** [/<t[dh]>(.*?)<\/t[dh]>/gi] *)
Definition re_cell : regex :=
  seq [lit "<t"; Cls false [ILit "d"; ILit "h"]; Chr ">"; Grp 1 (lazy Dot);
       lit "</t"; Cls false [ILit "d"; ILit "h"]; Chr ">"].

(** [/\t$/] *)
Definition re_last_tab : regex := seq [Chr TAB; Eos].

(** [/<[^>]+>/g] *)
Definition re_any_tag : regex := seq [Chr "<"; plus (Cls true [ILit ">"]); Chr ">"].

(** [/<\/?([a-z0-9]+)[^>]*>/gi] *)
Definition re_named_tag : regex :=
  seq [Chr "<"; opt (Chr "/"); Grp 1 (plus (Cls false [IRange "a" "z"; IRange "0" "9"]));
       star (Cls true [ILit ">"]); Chr ">"].

(** [/&nbsp;/gi], [/&amp;/gi], [/&lt;/gi], [/&gt;/gi] *)
Definition re_nbsp : regex := lit "&nbsp;".
Definition re_amp : regex := lit "&amp;".
Definition re_lt : regex := lit "&lt;".
Definition re_gt : regex := lit "&gt;".

(** [/\n{3,}/g] *)
Definition re_newlines : regex := seq [Chr LF; Chr LF; Chr LF; star (Chr LF)].

(** Normalize spaces between tags. *)
Definition normalizeGaps (html : text) : text :=
  replaceAll f_g re_gap (fun _ => js "><") html.

(** [<br>] to newline, wherever it is applied. *)
Definition brToNewline (html : text) : text :=
  replaceAll f_gi re_br (fun _ => [LF]) html.

Definition brPass (ignoreTags : list text) (html : text) : text :=
  if negb (includes ignoreTags (js "br")) then brToNewline html else html.

(** Headings and paragraphs: the closing tag becomes a double newline. *)
Definition closePass (ignoreTags : list text) (html : text) : text :=
  replaceAll f_gi re_close
    (fun mt => if includes ignoreTags (toLowerCase (group 1 mt)) then whole mt
               else js "\n\n")
    html.

Definition boldPass (ignoreTags : list text) (html : text) : text :=
  replaceAll f_gi re_bold
    (fun mt => if includes ignoreTags (toLowerCase (group 1 mt)) then whole mt
               else js "**" ++ group 2 mt ++ js "**")
    html.

Definition italicPass (ignoreTags : list text) (html : text) : text :=
  replaceAll f_gi re_italic
    (fun mt => if includes ignoreTags (toLowerCase (group 1 mt)) then whole mt
               else js "*" ++ group 2 mt ++ js "*")
    html.

Definition linkPass (ignoreTags : list text) (html : text) : text :=
  if negb (includes ignoreTags (js "a"))
  then replaceAll f_gi re_link
         (fun mt => js "[" ++ group 2 mt ++ js "](" ++ group 1 mt ++ js ")") html
  else html.

(** The items of one ordered list: [counter] is the closure variable of the
    callback, set to 0 for each list and incremented before it is printed. *)
Definition numberItems (ignoreTags : list text) (content : text) : text :=
  replaceAll_st f_gi re_li
    (fun (counter : nat) mt =>
       if includes ignoreTags (js "li") then (whole mt, counter)
       else (showNat (S counter) ++ js ". " ++ group 1 mt ++ js "\n", S counter))
    0 content.

Definition olPass (ignoreTags : list text) (html : text) : text :=
  replaceAll f_gis re_ol
    (fun mt => if includes ignoreTags (js "ol") then whole mt
               else numberItems ignoreTags (group 1 mt))
    html.

Definition bulletItems (ignoreTags : list text) (content : text) : text :=
  replaceAll f_gi re_li
    (fun mt => if includes ignoreTags (js "li") then whole mt
               else js "- " ++ group 1 mt ++ js "\n")
    content.

Definition ulPass (ignoreTags : list text) (html : text) : text :=
  replaceAll f_gis re_ul
    (fun mt => if includes ignoreTags (js "ul") then whole mt
               else bulletItems ignoreTags (group 1 mt))
    html.

(** The content of one blockquote. *)
Definition quoteLines (content : text) : text :=
  join (js "\n")
       (map (fun line => js "> " ++ trim line)
            (splitOn LF (trim (brToNewline content)))).

Definition blockquotePass (ignoreTags : list text) (html : text) : text :=
  if negb (includes ignoreTags (js "blockquote"))
  then replaceAll f_gis re_blockquote (fun mt => quoteLines (group 1 mt)) html
  else html.

Definition tableCells (ignoreTags : list text) (rowContent : text) : text :=
  replaceAll f_gi re_cell
    (fun mt => if includes ignoreTags (js "td") || includes ignoreTags (js "th")
               then whole mt else group 1 mt ++ js "\t")
    rowContent.

Definition tableRows (ignoreTags : list text) (tableContent : text) : text :=
  trim (replaceAll f_gi re_tr
          (fun mt => if includes ignoreTags (js "tr") then whole mt
                     else replaceFirst f_g re_last_tab []
                            (trim (tableCells ignoreTags (group 1 mt))) ++ js "\n")
          tableContent).

Definition tablePass (ignoreTags : list text) (html : text) : text :=
  replaceAll f_gis re_table
    (fun mt => if includes ignoreTags (js "table") then whole mt
               else tableRows ignoreTags (group 1 mt))
    html.

(** Remove all remaining tags. *)
Definition stripPass (ignoreTags : list text) (html : text) : text :=
  if Nat.eqb (length ignoreTags) 0
  then replaceAll f_g re_any_tag (fun _ => []) html
  else replaceAll f_gi re_named_tag
         (fun mt => if includes ignoreTags (toLowerCase (group 1 mt)) then whole mt
                    else [])
         html.

(** Decode common HTML entities. *)
Definition decodeEntities (html : text) : text :=
  replaceAll f_gi re_gt (fun _ => js ">")
    (replaceAll f_gi re_lt (fun _ => js "<")
       (replaceAll f_gi re_amp (fun _ => js "&")
          (replaceAll f_gi re_nbsp (fun _ => js " ") html))).

(** Collapse multiple newlines to max two. *)
Definition collapseNewlines (html : text) : text :=
  replaceAll f_g re_newlines (fun _ => js "\n\n") html.

Definition preserveFormat (html : text) (ignoreTags : list text) : text :=
  match html with
  | [] => []
  | _ =>
      let html := normalizeGaps html in
      let html := brPass ignoreTags html in
      let html := closePass ignoreTags html in
      let html := boldPass ignoreTags html in
      let html := italicPass ignoreTags html in
      let html := linkPass ignoreTags html in
      let html := olPass ignoreTags html in
      let html := ulPass ignoreTags html in
      let html := blockquotePass ignoreTags html in
      let html := tablePass ignoreTags html in
      let html := stripPass ignoreTags html in
      let html := decodeEntities html in
      trim (collapseNewlines html)
  end.

(** ** wrapByWords (src/utils/wrapByWords.ts) *)

(** What a call does: it returns, or it throws an [Error] with a message. *)
Inductive outcome (A : Type) :=
| Returns (a : A)
| Throws (message : text).
Arguments Returns {A} a.
Arguments Throws {A} message.

(** [/\s+/] *)
Definition re_spaces : regex := plus ws.

(** A relative index of [Array.prototype.slice], clamped to the array. *)
Definition rel_index (len : nat) (k : Z) : nat :=
  if (k <? 0)%Z then Z.to_nat (Z.max (Z.of_nat len + k) 0)
  else Nat.min (Z.to_nat k) len.

(** [Array.prototype.slice]. *)
Definition slice (xs : list text) (i j : Z) : list text :=
  let from := rel_index (length xs) i in
  let to := rel_index (length xs) j in
  firstn (to - from) (skipn from xs).

(** The [for] loop of [wrapByWords]; [count] is an integer, and positive
    here.  The index grows by [count] in every round, so [length words]
    rounds are enough. *)
Fixpoint wrap_loop (fuel : nat) (words : list text) (count i : Z)
  (lines : list text) : list text :=
  match fuel with
  | 0 => lines
  | S fuel' =>
      if (i <? Z.of_nat (length words))%Z
      then wrap_loop fuel' words count (i + count)%Z
             (lines ++ [join (js " ") (slice words i (i + count)%Z)])
      else lines
  end.

Definition wrapByWords (txt : text) (count : Z) : outcome text :=
  if (count <=? 0)%Z then Throws (js "wrap count must be greater than 0")
  else
    let words := split f_g re_spaces (trim txt) in
    let lines := wrap_loop (length words) words count 0%Z [] in
    Returns (join (js "\n") lines).

(** ** wrapByLength (src/utils/wrapByLength.ts, not among the sources) *)

(** Modelled from the spec: the greedy filling of lines of [wrapByLength],
    whose source file is missing.  [cur] is the current line and [lines] the
    lines emitted so far.  A word goes on an empty current line whatever its
    length; otherwise, if the line with a space and the word would be longer
    than [L], the line is emitted and the word starts a new one; otherwise
    the space and the word are appended.  At the end the current line is
    emitted if it is not empty. *)
Fixpoint fillLines (L : Z) (lines : list text) (cur : text) (words : list text)
  : list text :=
  match words with
  | [] => match cur with [] => lines | _ => lines ++ [cur] end
  | w :: words' =>
      match cur with
      | [] => fillLines L lines w words'
      | _ =>
          if (Z.of_nat (length (cur ++ js " " ++ w)) >? L)%Z
          then fillLines L (lines ++ [cur]) w words'
          else fillLines L lines (cur ++ js " " ++ w) words'
      end
  end.

(** Modelled from the spec: [wrapByLength], whose source file is missing.
    The spec takes the words of the text in sequence and does not say how
    the text is cut into words; they are cut as for the word-count wrap.
    The lines are joined with newlines. *)
Definition wrapByLength (txt : text) (L : Z) : text :=
  join (js "\n") (fillLines L [] [] (split f_g re_spaces (trim txt))).

(** ** textify (src/index.ts) *)

(** [/<\/?(NAME)\b[^>]*>/gi], where the group NAME is [[a-z][a-z0-9-]*] *)
Definition re_strip_tag : regex :=
  seq [Chr "<"; opt (Chr "/");
       Grp 1 (Seq (Cls false [IRange "a" "z"])
                  (star (Cls false [IRange "a" "z"; IRange "0" "9"; ILit "-"])));
       WordB; star (Cls true [ILit ">"]); Chr ">"].

(** The branch of [textify] for [preserveFormatting = false]. *)
Definition stripTags (ignoreTags : list text) (output : text) : text :=
  if Nat.eqb (length ignoreTags) 0
  then trim (replaceAll f_g re_any_tag (fun _ => []) output)
  else
    let IG := map toLowerCase ignoreTags in
    trim (replaceAll f_gi re_strip_tag
            (fun mt => if includes IG (toLowerCase (group 1 mt)) then whole mt else [])
            output).

(** [n && n > 0] for an optional number. *)
Definition positive (n : option Z) : bool :=
  match n with Some k => negb (k =? 0)%Z && (k >? 0)%Z | None => false end.

Definition the (n : option Z) : Z := match n with Some k => k | None => 0%Z end.

Definition textify (html : text) (preserveFormatting : bool)
  (ignoreTags : list text) (wrapLength wrapWords : option Z) : outcome text :=
  match html with
  | [] => Returns []
  | _ =>
      let output :=
        if preserveFormatting then preserveFormat html ignoreTags
        else stripTags ignoreTags html in
      if positive wrapWords then wrapByWords output (the wrapWords)
      else if positive wrapLength then Returns (wrapByLength output (the wrapLength))
      else Returns output
  end.

(** ** Definitions for the statements and the proofs *)

(** Every result of the matcher has read a prefix of the text. *)
Definition reads (st st' : mstate) (pre : text) : Prop := rest st = pre ++ rest st'.

(** The text a global search is built on. *)
Fixpoint flatten (sg : segs) : text :=
  match sg with
  | Done t => t
  | Hit b mt n => b ++ whole mt ++ flatten n
  end.

(** [replace] from the middle of a text: [p] is the character before. *)
Definition replace_from {A : Type} (fl : flags) (r : regex)
  (cb : A -> rmatch -> text * A) (a : A) (p : option ascii) (s : text) : text :=
  build cb a (matchAll_fuel (S (length s)) fl r p s).

(** The states of [x*] for a one-character [x], the longest first. *)
Fixpoint walk_greedy (P : ascii -> bool) (cs : list (nat * text))
  (p : option ascii) (s : text) : list mstate :=
  match s with
  | x :: xs =>
      if P x
      then walk_greedy P cs (Some x) xs ++ [{| rest := s; prev := p; caps := cs |}]
      else [{| rest := s; prev := p; caps := cs |}]
  | [] => [{| rest := []; prev := p; caps := cs |}]
  end.

(** The states of [x*?] for a one-character [x], the shortest first. *)
Fixpoint walk_lazy (P : ascii -> bool) (cs : list (nat * text))
  (p : option ascii) (s : text) : list mstate :=
  {| rest := s; prev := p; caps := cs |} ::
  match s with
  | x :: xs => if P x then walk_lazy P cs (Some x) xs else []
  | [] => []
  end.

(** The longest prefix of characters that satisfy [P], and what follows. *)
Fixpoint takeWhile (P : ascii -> bool) (s : text) : text :=
  match s with
  | x :: xs => if P x then x :: takeWhile P xs else []
  | [] => []
  end.

Definition last_of (p : option ascii) (s : text) : option ascii :=
  match rev s with x :: _ => Some x | [] => p end.

Definition isLF (c : ascii) : bool := Ascii.eqb c LF.

(** No three newlines in a row in [s], when [k] newlines come just before. *)
Fixpoint calm (k : nat) (s : text) : bool :=
  match s with
  | [] => true
  | c :: t => if isLF c then Nat.ltb k 2 && calm (S k) t else calm 0 t
  end.

Definition lead (s : text) : nat := length (takeWhile isLF s).

(** The words of a text: the pieces between its runs of white space.
    [gap] tells that the previous character was white space. *)
Fixpoint wordsFrom (gap : bool) (cur : text) (s : text) : list text :=
  match s with
  | [] => [rev cur]
  | c :: s' =>
      if isSpace c
      then (if gap then wordsFrom true [] s' else rev cur :: wordsFrom true [] s')
      else wordsFrom false (c :: cur) s'
  end.

Definition wordsOf (s : text) : list text := wordsFrom false [] s.

(** [groups] cuts [xs] into consecutive groups of exactly [n] elements, the
    last of which may be shorter (but is not empty). *)
Definition chunked (n : nat) (xs : list text) (groups : list (list text)) : Prop :=
  concat groups = xs /\
  forall a g b, groups = a ++ g :: b ->
                1 <= length g <= n /\ (b <> [] -> length g = n).

Fixpoint chunks_fuel (fuel n : nat) (xs : list text) : list (list text) :=
  match fuel with
  | 0 => []
  | S fuel' =>
      match xs with
      | [] => []
      | _ => firstn n xs :: chunks_fuel fuel' n (skipn n xs)
      end
  end.

Definition P_ws (fl : flags) (x : ascii) : bool :=
  xorb false (existsb (item_has fl x) [ISpace]).

(** The groups of words behind the lines of [fillLines]: [cur] is the group
    of the current line. *)
Fixpoint fillGroups (L : Z) (cur : list text) (words : list text)
  : list (list text) :=
  match words with
  | [] => match cur with [] => [] | _ => [cur] end
  | w :: words' =>
      match cur with
      | [] => fillGroups L [w] words'
      | _ =>
          if (Z.of_nat (length (join (js " ") cur ++ js " " ++ w)) >? L)%Z
          then cur :: fillGroups L [w] words'
          else fillGroups L (cur ++ [w]) words'
      end
  end.

(** A line fits when it is a single word or is not longer than [L]. *)
Definition fits (L : Z) (g : list text) : Prop :=
  length g = 1 \/ (Z.of_nat (length (join (js " ") g)) <= L)%Z.

(** The first word of the next line did not fit on the line [g]. *)
Definition tight (L : Z) (g h : list text) : Prop :=
  match h with
  | w :: _ => (Z.of_nat (length (join (js " ") g ++ js " " ++ w)) > L)%Z
  | [] => False
  end.

(** Greedy lines: every line fits, and no line could take the first word of
    the next. *)
Fixpoint greedyLines (L : Z) (groups : list (list text)) : Prop :=
  match groups with
  | [] => True
  | g :: rest =>
      g <> [] /\ fits L g /\
      match rest with h :: _ => tight L g h | [] => True end /\
      greedyLines L rest
  end.

(** A wrap directive is active when it is supplied and strictly positive. *)
Definition active (o : option Z) : Prop := exists n, o = Some n /\ (0 < n)%Z.

Ltac each_ascii c :=
  destruct c as [[] [] [] [] [] [] [] []].

(** The two lists answer every membership check of preserveFormat alike: the
    keys of the checks are lower-cased tag names and lower-case literals. *)
Definition same_keys (ig1 ig2 : list text) : Prop :=
  forall x, includes ig1 (toLowerCase x) = includes ig2 (toLowerCase x).

(** [c] is matched by itself only, with or without the [i] flag. *)
Definition caseless (c : ascii) : Prop :=
  forall fl x, same fl x c = true -> x = c.

(** Every match of [r] reads the character [c] somewhere. *)
Fixpoint demands (c : ascii) (r : regex) : bool :=
  match r with
  | Chr c' => Ascii.eqb c' c
  | Seq r1 r2 => demands c r1 || demands c r2
  | Alt r1 r2 => demands c r1 && demands c r2
  | Grp _ r' => demands c r'
  | _ => false
  end.

(** A class item that has no member with the canonical form of [c]. *)
Definition item_avoids (c : ascii) (it : item) : bool :=
  match it with
  | ILit a => negb (Ascii.eqb a c)
  | IRange lo hi => negb (between lo hi c)
  | ISpace => negb (isSpace c)
  end.

(** Every match of [r] that reads something starts with a character other
    than [c] ([first_not]: and every match reads something). *)
Fixpoint first_not_or_empty (c : ascii) (r : regex) : bool :=
  match r with
  | Eps | WordB | Eos => true
  | Chr c' => negb (Ascii.eqb c' c)
  | Dot | Bref _ => false
  | Cls false items => forallb (item_avoids c) items
  | Cls true items => existsb (fun it => match it with ILit a => Ascii.eqb a c | _ => false end) items
  | Seq r1 r2 => first_not_or_empty c r1 && first_not_or_empty c r2
  | Alt r1 r2 => first_not_or_empty c r1 && first_not_or_empty c r2
  | Star _ r' => first_not_or_empty c r'
  | Grp _ r' => first_not_or_empty c r'
  end.

Fixpoint first_not (c : ascii) (r : regex) : bool :=
  match r with
  | Chr c' => negb (Ascii.eqb c' c)
  | Cls false items => forallb (item_avoids c) items
  | Cls true items => existsb (fun it => match it with ILit a => Ascii.eqb a c | _ => false end) items
  | Seq r1 r2 => first_not c r1 || (first_not_or_empty c r1 && first_not c r2)
  | Alt r1 r2 => first_not c r1 && first_not c r2
  | Grp _ r' => first_not c r'
  | _ => false
  end.

(** The text of [st] starts with a character other than [c]. *)
Definition starts_off (c : ascii) (st : mstate) : Prop :=
  exists y t, rest st = y :: t /\ y <> c.

(** Characters that are not letters, for which the members of a range are
    found by position. *)
Definition plain_char (c : ascii) : Prop :=
  between "a" "z" c = false /\ between "A" "Z" c = false.

(** Every match of [r] starts with the character [c]. *)
Fixpoint heads (c : ascii) (r : regex) : bool :=
  match r with
  | Chr c' => Ascii.eqb c' c
  | Seq r1 _ => heads c r1
  | Alt r1 r2 => heads c r1 && heads c r2
  | Grp _ r' => heads c r'
  | _ => false
  end.

(** A tag starts here: [<], a character that is not [>], and a [>] further
    on.  This is where [/<[^>]+>/] matches. *)
Definition tagAt (s : text) : bool :=
  match s with
  | "<" :: y :: t => negb (Ascii.eqb y ">") && existsb (Ascii.eqb ">") t
  | _ => false
  end.

Fixpoint hasTag (s : text) : bool :=
  tagAt s || match s with _ :: t => hasTag t | [] => false end.

(** The shape of the expressions that match tags. *)
Definition opens (r : regex) : bool :=
  match r with
  | Seq (Chr c) r' => Ascii.eqb c "<" && first_not ">" r' && demands ">" r'
  | Seq (Seq (Chr c) a) b =>
      Ascii.eqb c "<" && first_not ">" (Seq a b) && demands ">" (Seq a b)
  | _ => false
  end.

(** [/<[^>]+>/] matches wherever a tag starts. *)
Definition P_not_gt (fl : flags) (x : ascii) : bool :=
  xorb true (existsb (item_has fl x) [ILit ">"]).

(** What the normalization of gaps does: white space between a [>] and a
    [<] is deleted, and nothing else changes. *)
Inductive squeezed : text -> text -> Prop :=
| sq_nil : squeezed [] []
| sq_keep c s t : squeezed s t -> squeezed (c :: s) (c :: t)
| sq_gap w s t :
    forallb isSpace w = true -> squeezed s t ->
    squeezed (">" :: w ++ "<" :: s) (">" :: "<" :: t).

(** Does the text start with the pattern, up to case under [i]? *)
Fixpoint starts_with (fl : flags) (pat s : text) : bool :=
  match pat with
  | [] => true
  | a :: pat' =>
      match s with
      | x :: s' => same fl x a && starts_with fl pat' s'
      | [] => false
      end
  end.

(** No position of [content], followed by [s], starts with [close], and the
    lazy repetition can read all of [content]. *)
Fixpoint clear_then (fl : flags) (close : text) (P : ascii -> bool)
  (s : text) (content : text) : Prop :=
  match content with
  | [] => True
  | c :: content' =>
      P c = true /\ starts_with fl close (c :: content' ++ s) = false /\
      clear_then fl close P s content'
  end.

Definition P_dot (fl : flags) (x : ascii) : bool :=
  dotall fl || negb (isLineTerminator x).

(** The expression [open(.*?)close] of a block, with the text of the tags. *)
Definition block_re (open close : text) : regex :=
  seq [seq (map Chr open); Grp 1 (lazy Dot); seq (map Chr close)].

(** The items of a list, as markup. *)
Definition liItems (xs : list text) : text :=
  concat (map (fun x => js "<li>" ++ x ++ js "</li>") xs).


(** An item on one line, without markup of its own. *)
Definition plain_item (x : text) : Prop :=
  ~ In "<"%char x /\ forallb (fun c => negb (isLineTerminator c)) x = true.


(** The same document with every list replaced by [render] of its items. *)
Fixpoint olOut (render : list text -> text) (blocks : list (text * list text))
  (tail : text) : text :=
  match blocks with
  | [] => tail
  | (t, xs) :: bs => t ++ render xs ++ olOut render bs tail
  end.

Definition plain_blocks (blocks : list (text * list text)) : Prop :=
  Forall (fun b => ~ In "<"%char (fst b) /\ Forall plain_item (snd b)) blocks.

Definition isLetter (c : ascii) : bool := between "a" "z" c || between "A" "Z" c.

Definition isNameChar (c : ascii) : bool :=
  isLetter c || between "0" "9" c || Ascii.eqb c "-".

(** A piece of a document: a text without [<], or a tag with its name and
    what follows the name up to the [>]. *)
Inductive piece :=
| Text (t : text)
| Tag (closing : bool) (name : text) (attrs : text).

Definition tagText (closing : bool) (name attrs : text) : text :=
  js "<" ++ (if closing then js "/" else []) ++ name ++ attrs ++ js ">".

Fixpoint render (doc : list piece) : text :=
  match doc with
  | [] => []
  | Text t :: doc' => t ++ render doc'
  | Tag closing name attrs :: doc' => tagText closing name attrs ++ render doc'
  end.

(** A name starts with a letter, goes on with letters, digits and hyphens
    and ends with a letter or a digit. *)
Definition name_ok (name : text) : bool :=
  match name with
  | [] => false
  | n0 :: n' =>
      isLetter n0 && forallb isNameChar n'
      && match last_of None name with Some c => isWordChar c | None => false end
  end.

(** What follows the name has no [>], and does not start with a character
    of names or of words. *)
Definition attrs_ok (attrs : text) : bool :=
  forallb (fun c => negb (Ascii.eqb c ">")) attrs
  && match attrs with
     | [] => true
     | a :: _ => negb (isNameChar a) && negb (isWordChar a)
     end.

Definition piece_ok (pc : piece) : Prop :=
  match pc with
  | Text t => ~ In "<"%char t
  | Tag _ name attrs => name_ok name = true /\ attrs_ok attrs = true
  end.

(** The pieces that textify keeps. *)
Definition kept (ignoreTags : list text) (pc : piece) : bool :=
  match pc with
  | Text _ => true
  | Tag _ name _ => includes (map toLowerCase ignoreTags) (toLowerCase name)
  end.

Definition stops (P : ascii -> bool) (b : text) : Prop :=
  match b with [] => True | x :: _ => P x = false end.

Definition P_letter (fl : flags) (x : ascii) : bool :=
  xorb false (existsb (item_has fl x) [IRange "a" "z"]).

Definition P_name (fl : flags) (x : ascii) : bool :=
  xorb false (existsb (item_has fl x) [IRange "a" "z"; IRange "0" "9"; ILit "-"]).

Definition re_name_on : regex :=
  seq [Grp 1 (Seq (Cls false [IRange "a" "z"])
                  (star (Cls false [IRange "a" "z"; IRange "0" "9"; ILit "-"])));
       WordB; star (Cls true [ILit ">"]); Chr ">"].

(** Every match of [r] ends with the character [c]. *)
Fixpoint tails (c : ascii) (r : regex) : bool :=
  match r with
  | Chr c' => Ascii.eqb c' c
  | Seq r1 Eps => tails c r1
  | Seq _ r2 => tails c r2
  | Alt r1 r2 => tails c r1 && tails c r2
  | Grp _ r' => tails c r'
  | _ => false
  end.

(** [t] is [s] without some pieces of the form [<...>]; every other
    character is kept, in place. *)
Inductive tags_deleted : text -> text -> Prop :=
| td_nil : tags_deleted [] []
| td_keep c s t : tags_deleted s t -> tags_deleted (c :: s) (c :: t)
| td_drop m s t : tags_deleted s t -> tags_deleted ("<" :: m ++ ">" :: s) t.

(** A text that neither starts nor ends with white space. *)
Definition trimmed (s : text) : Prop :=
  (forall c t, s = c :: t -> isSpace c = false) /\
  (forall t c, s = t ++ [c] -> isSpace c = false).

Definition notSpace (c : ascii) : bool := negb (isSpace c).

(** A text that is not empty and neither starts nor ends with white space. *)
Definition solid (s : text) : Prop := s <> [] /\ trimmed s.

(** A word: not empty and without white space. *)
Definition isWord (w : text) : Prop := w <> [] /\ forallb notSpace w = true.

(** The items of a list, each behind a dash. *)
Definition bulleted (xs : list text) : text :=
  concat (map (fun x => js "- " ++ x ++ js "\n") xs).

(** A document of unordered lists: each block is a text without markup
    followed by a list of items; [tail] is the text after the last list. *)
Fixpoint ulDoc (blocks : list (text * list text)) (tail : text) : text :=
  match blocks with
  | [] => tail
  | (t, xs) :: bs => t ++ js "<ul>" ++ liItems xs ++ js "</ul>" ++ ulDoc bs tail
  end.

(** From the text [s] with the captures [cs], the first match of [r] leaves
    the text [s'] with the captures [cs'], whatever character came before. *)
Definition leads (fl : flags) (r : regex) (s : text) (cs : list (nat * text))
  (s' : text) (cs' : list (nat * text)) : Prop :=
  forall p, exists q l,
    run fl r {| rest := s; prev := p; caps := cs |}
    = {| rest := s'; prev := q; caps := cs' |} :: l.

(** Does [pat] occur in [s], up to case under [i]? *)
Fixpoint mentions (fl : flags) (pat s : text) : bool :=
  match s with
  | [] => false
  | _ :: s' => starts_with fl pat s || mentions fl pat s'
  end.

(** None of the patterns occurs in [t]. *)
Definition free_of (fl : flags) (pats : list text) (t : text) : bool :=
  forallb (fun pat => negb (mentions fl pat t)) pats.

(** One of the patterns is at the start of [s]. *)
Definition opensAny (fl : flags) (pats : list text) (s : text) : bool :=
  existsb (fun pat => starts_with fl pat s) pats.

(** The text is empty or starts with [k]. *)
Definition follows (k : ascii) (s : text) : Prop := forall c s', s = c :: s' -> c = k.

(** A pattern that starts with [k] and has no other [k]. *)
Definition marker (k : ascii) (pat : text) : Prop :=
  exists pat', pat = k :: pat' /\ ~ In k pat'.

(** A text, a marked place, a text, a marked place, ..., and a last text. *)
Fixpoint interleave (blocks : list (text * text)) (tail : text) : text :=
  match blocks with
  | [] => tail
  | (t, m) :: bs => t ++ m ++ interleave bs tail
  end.

(** At no place of [t], followed by [s], does [d] hold. *)
Fixpoint quiet (d : text -> bool) (s t : text) : Prop :=
  match t with
  | [] => True
  | c :: t' => d (c :: t' ++ s) = false /\ quiet d s t'
  end.

Definition isAscii7 (c : ascii) : bool := Nat.ltb (nat_of_ascii c) 128.

(** A closing tag. *)
Definition closeTag (name : text) : text := js "</" ++ name ++ js ">".

(** The names of the expression of headings and paragraphs. *)
Definition closeNames : list text :=
  [js "h1"; js "h2"; js "h3"; js "h4"; js "h5"; js "h6"; js "p"].

(** The closing tags of headings and paragraphs, in lower case. *)
Definition closePats : list text := map closeTag closeNames.

(** A [<br>] tag as it is written: the name in some letter case, white
    space after it, and a slash or none. *)
Record brMark := { br_name : text; br_space : text; br_slash : bool }.

Definition brTag (m : brMark) : text :=
  js "<" ++ br_name m ++ br_space m ++ (if br_slash m then js "/" else []) ++ js ">".

Definition brOk (m : brMark) : Prop :=
  toLowerCase (br_name m) = js "br" /\ forallb isSpace (br_space m) = true.

(** An opening tag without attributes. *)
Definition openTag (name : text) : text := js "<" ++ name ++ js ">".

(** [<(n1|n2)>(.*?)</\1>], with the expression of the two names. *)
Definition re_pair (alt : regex) : regex :=
  seq [Chr "<"; Grp 1 alt; Chr ">"; Grp 2 (lazy Dot); lit "</"; Bref 1; Chr ">"].

(** A pair of tags with its content, as it is written. *)
Record pairMark := { pm_open : text; pm_content : text; pm_close : text }.

Definition pairTag (m : pairMark) : text :=
  openTag (pm_open m) ++ pm_content m ++ closeTag (pm_close m).

(** The names are the same up to case and among [names]; the content is on
    one line and the closing tag does not occur in it. *)
Definition pairOk (names : list text) (m : pairMark) : Prop :=
  In (toLowerCase (pm_open m)) names /\
  toLowerCase (pm_close m) = toLowerCase (pm_open m) /\
  forallb (fun c => negb (isLineTerminator c)) (pm_content m) = true /\
  mentions f_gi (closeTag (pm_open m)) (pm_content m) = false.

(** A link as it is written: [<a], white space, [href=], the address in
    double quotes, what else stands in the tag, [>], the text and [</a>]. *)
Record linkMark := {
  lk_a : text; lk_space : text; lk_href : text; lk_url : text;
  lk_attrs : text; lk_text : text; lk_close : text }.

Definition linkTag (m : linkMark) : text :=
  js "<" ++ lk_a m ++ lk_space m ++ lk_href m ++ [DQ] ++ lk_url m ++ [DQ]
  ++ lk_attrs m ++ js ">" ++ lk_text m ++ closeTag (lk_close m).

(** A character of one line other than [k]. *)
Definition lineCharBut (k c : ascii) : bool :=
  negb (Ascii.eqb c k) && negb (isLineTerminator c).

Definition linkOk (m : linkMark) : Prop :=
  toLowerCase (lk_a m) = js "a" /\
  lk_space m <> [] /\ forallb isSpace (lk_space m) = true /\
  toLowerCase (lk_href m) = js "href=" /\
  forallb (lineCharBut DQ) (lk_url m) = true /\
  forallb (lineCharBut ">") (lk_attrs m) = true /\
  forallb (fun c => negb (isLineTerminator c)) (lk_text m) = true /\
  mentions f_gi (js "</a>") (lk_text m) = false /\
  toLowerCase (lk_close m) = js "a".

(** A cell as it is written: [<td>] or [<th>], the content, and [</td>] or
    [</th>]; the two need not agree. *)
Record cellMark := { cell_head : bool; cell_text : text; cell_foot : bool }.

Definition cellKind (h : bool) : ascii := if h then "h"%char else "d"%char.

Definition cellTag (c : cellMark) : text :=
  js "<t" ++ [cellKind (cell_head c)] ++ js ">" ++ cell_text c
  ++ js "</t" ++ [cellKind (cell_foot c)] ++ js ">".

(** The content is on one line and no [</t] occurs in it. *)
Definition cellOk (c : cellMark) : Prop :=
  forallb (fun x => negb (isLineTerminator x)) (cell_text c) = true /\
  mentions f_gi (js "</t") (cell_text c) = false.

Definition rowTag (r : list cellMark) : text :=
  js "<tr>" ++ concat (map cellTag r) ++ js "</tr>".

Definition tableTag (rows : list (list cellMark)) : text :=
  js "<table>" ++ concat (map rowTag rows) ++ js "</table>".

Definition cellOut (ig : list text) (c : cellMark) : text :=
  if includes ig (js "td") || includes ig (js "th") then cellTag c
  else cell_text c ++ js "\t".

Definition rowOut (ig : list text) (r : list cellMark) : text :=
  if includes ig (js "tr") then rowTag r
  else trim (concat (map (cellOut ig) r)) ++ js "\n".

Definition tableOut (ig : list text) (rows : list (list cellMark)) : text :=
  if includes ig (js "table") then tableTag rows
  else trim (concat (map (rowOut ig) rows)).

(** A gap starts here: [>], white space, and [<]. *)
Definition gapAt (s : text) : bool :=
  match s with
  | c :: x =>
      Ascii.eqb c ">"
      && match takeWhile isSpace x with [] => false | _ => true end
      && match dropWhile isSpace x with "<"%char :: _ => true | _ => false end
  | [] => false
  end.

Fixpoint hasGap (s : text) : bool :=
  match s with
  | [] => false
  | _ :: t => gapAt s || hasGap t
  end.

(** Where the passes of preserveFormat that convert markup can match: at a
    [<br], at a closing tag of a heading or a paragraph, at [<b>],
    [<strong>], [<i>], [<em>], [<a], [<ol>], [<ul>], [<blockquote>] and
    [<table>], in any letter case. *)
Definition convertMarkers : list text :=
  [js "<br"] ++ closePats
  ++ [js "<b>"; js "<strong>"; js "<i>"; js "<em>"; js "<a"; js "<ol>"; js "<ul>";
      js "<blockquote>"; js "<table>"].

Ltac pick_markers :=
  intros x Hx; unfold closePats, closeNames in Hx; cbn [map In] in Hx;
  unfold convertMarkers, closePats, closeNames; cbn [map app In];
  repeat (destruct Hx as [<-|Hx]; [repeat (first [left; reflexivity|right])|]);
  destruct Hx.

Inductive entity := Enbsp | Eamp | Elt | Egt.

(** The entity as the expressions spell it, and what replaces it. *)
Definition entName (e : entity) : text :=
  match e with
  | Enbsp => js "&nbsp;" | Eamp => js "&amp;" | Elt => js "&lt;" | Egt => js "&gt;"
  end.

Definition entChar (e : entity) : text :=
  match e with
  | Enbsp => js " " | Eamp => js "&" | Elt => js "<" | Egt => js ">"
  end.

Definition entRe (e : entity) : regex :=
  match e with
  | Enbsp => re_nbsp | Eamp => re_amp | Elt => re_lt | Egt => re_gt
  end.

(** The place of the entity in the chain of replacements. *)
Definition stageOf (e : entity) : nat :=
  match e with Enbsp => 0 | Eamp => 1 | Elt => 2 | Egt => 3 end.

(** An entity as it is written, in some letter case. *)
Record entMark := { ent_kind : entity; ent_text : text }.

(** The text of an entity after [n] replacements of the chain. *)
Definition curMark (n : nat) (m : entMark) : text :=
  if Nat.ltb (stageOf (ent_kind m)) n then entChar (ent_kind m) else ent_text m.

Definition nextText (bs : list (text * entMark)) (tail : text) : text :=
  match bs with
  | [] => tail
  | (t, _) :: _ => t
  end.

(** The texts hold no [&]; every entity is spelled as its kind says; and
    the text after an [&amp;] does not start with [lt;] or [gt;]. *)
Fixpoint entOk (blocks : list (text * entMark)) (tail : text) : Prop :=
  match blocks with
  | [] => ~ In "&"%char tail
  | (t, m) :: bs =>
      ~ In "&"%char t /\
      toLowerCase (ent_text m) = entName (ent_kind m) /\
      (ent_kind m = Eamp ->
       starts_with f_gi (js "lt;") (nextText bs tail) = false /\
       starts_with f_gi (js "gt;") (nextText bs tail) = false) /\
      entOk bs tail
  end.

(** Every run of newlines cut to two: [k] newlines come just before. *)
Fixpoint capLF (k : nat) (s : text) : text :=
  match s with
  | [] => []
  | c :: t =>
      if isLF c then (if Nat.ltb k 2 then c :: capLF (S k) t else capLF (S k) t)
      else c :: capLF 0 t
  end.

(** A heading or a paragraph as it is written, from its name and its body. *)
Definition paraText (b : text * text) : text :=
  openTag (fst b) ++ snd b ++ closeTag (fst b).

(** A character of a body: no [<], [>], [&] and no newline. *)
Definition bodyChar (c : ascii) : bool :=
  negb (Ascii.eqb c "<") && negb (Ascii.eqb c ">") && negb (Ascii.eqb c "&")
  && negb (isLF c).

(** A body: not empty, of such characters, and without white space at
    either end. *)
Definition cleanBody (t : text) : Prop := solid t /\ forallb bodyChar t = true.

(** The pattern starts with [<], has no other [<], and its second character
    is none of [seconds], in any letter case. *)
Definition avoids (fl : flags) (seconds : text) (pat : text) : bool :=
  match pat with
  | c1 :: c2 :: rest =>
      Ascii.eqb c1 "<" && negb (existsb (Ascii.eqb "<") (c2 :: rest))
      && forallb (fun y => negb (same fl y c2)) seconds
  | _ => false
  end.

(** The piece starts with [<] and one of [seconds], and has no other [<]. *)
Definition ledBy (seconds : text) (pc : text) : Prop :=
  exists y u, pc = "<"%char :: y :: u /\ ~ In "<"%char (y :: u) /\ In y seconds.

Definition isAlnum (c : ascii) : bool :=
  between "a" "z" c || between "A" "Z" c || between "0" "9" c.

Definition P_alnum (fl : flags) (x : ascii) : bool :=
  xorb false (existsb (item_has fl x) [IRange "a" "z"; IRange "0" "9"]).

(** A tag for [/<\/?([a-z0-9]+)[^>]*>/gi]: the name is made of letters and
    digits; what follows it has no [>] and does not start with a letter or
    a digit. *)
Definition tag_ok (pc : piece) : Prop :=
  match pc with
  | Text t => ~ In "<"%char t
  | Tag _ name attrs =>
      name <> [] /\ forallb isAlnum name = true /\
      forallb (fun c => negb (Ascii.eqb c ">")) attrs = true /\
      stops isAlnum attrs
  end.

(** The pieces that the removal of tags in preserveFormat keeps. *)
Definition keptBy (ignoreTags : list text) (pc : piece) : bool :=
  match pc with
  | Text _ => true
  | Tag _ name _ => includes ignoreTags (toLowerCase name)
  end.

(** ** The examples of the documentation and of the test suite *)

Module Examples.

Example doc_1 : preserveFormat (js "<p>Hello <b>world</b></p>") [] = js "Hello **world**".
Proof. vm_compute. reflexivity. Qed.

Example doc_2 :
  preserveFormat (js "<ul><li>One</li><li>Two</li></ul>") [] = js "- One\n- Two".
Proof. vm_compute. reflexivity. Qed.

Example doc_3 :
  preserveFormat (js "<a href=\qhttps://example.com\q>Link</a>") [js "a"]
  = js "<a href=\qhttps://example.com\q>Link</a>".
Proof. vm_compute. reflexivity. Qed.

Example test_breaks :
  preserveFormat (js "<p>First paragraph</p><br>Second line") []
  = js "First paragraph\n\nSecond line".
Proof. vm_compute. reflexivity. Qed.

Example test_headings :
  preserveFormat (js "<h1>Heading 1</h1><h2>Heading 2</h2><div>padding</div>") []
  = js "Heading 1\n\nHeading 2\n\npadding".
Proof. vm_compute. reflexivity. Qed.

Example test_ul :
  preserveFormat (js "<ul><li>Item 1</li><li>Item 2</li></ul><div>padding</div>") []
  = js "- Item 1\n- Item 2\npadding".
Proof. vm_compute. reflexivity. Qed.

Example test_ol :
  preserveFormat (js "<ol><li>First</li><li>Second</li></ol><div>padding</div>") []
  = js "1. First\n2. Second\npadding".
Proof. vm_compute. reflexivity. Qed.

Example test_links :
  preserveFormat (js "<a href=\qhttps://example.com\q>Click here</a>") []
  = js "[Click here](https://example.com)".
Proof. vm_compute. reflexivity. Qed.

Example test_bold_italic :
  preserveFormat (js "<b>Bold</b> and <i>Italic</i>") [] = js "**Bold** and *Italic*".
Proof. vm_compute. reflexivity. Qed.

Example test_blockquote :
  preserveFormat (js "<blockquote>Quote line 1<br>Quote line 2</blockquote>") []
  = js "> Quote line 1\n> Quote line 2".
Proof. vm_compute. reflexivity. Qed.

Example test_table :
  preserveFormat
    (js "\n      <table>\n        <tr><td>A1</td><td>B1</td></tr>\n        <tr><td>A2</td><td>B2</td></tr>\n      </table>") []
  = js "A1\tB1\nA2\tB2".
Proof. vm_compute. reflexivity. Qed.

Example test_entities :
  preserveFormat (js "<p>Line&nbsp;1 &amp; test</p><p>Line 2</p>") []
  = js "Line 1 & test\n\nLine 2".
Proof. vm_compute. reflexivity. Qed.

Example test_unknown :
  preserveFormat (js "<div>Content <span>inside</span></div>") [] = js "Content inside".
Proof. vm_compute. reflexivity. Qed.

Example test_ignore_hp :
  preserveFormat (js "<h1>Heading</h1><p>Paragraph</p>") [js "h1"; js "p"]
  = js "<h1>Heading</h1><p>Paragraph</p>".
Proof. vm_compute. reflexivity. Qed.

Example test_ignore_blockquote :
  preserveFormat (js "<blockquote>Quote line 1<br>Quote line 2</blockquote>")
    [js "blockquote"]
  = js "<blockquote>Quote line 1\nQuote line 2</blockquote>".
Proof. vm_compute. reflexivity. Qed.

Example test_ignore_bold_italic :
  preserveFormat (js "<b>Bold</b> and <i>Italic</i>") [js "b"; js "i"]
  = js "<b>Bold</b> and <i>Italic</i>".
Proof. vm_compute. reflexivity. Qed.

Example test_ignore_table :
  preserveFormat
    (js "\n    <table>\n      <tr><td>A1</td><td>B1</td></tr>\n      <tr><td>A2</td><td>B2</td></tr>\n    </table>")
    [js "table"; js "tr"; js "td"]
  = js "<table><tr><td>A1</td><td>B1</td></tr><tr><td>A2</td><td>B2</td></tr></table>".
Proof. vm_compute. reflexivity. Qed.

Example test_nested :
  preserveFormat
    (js "<h1>Main Heading</h1>\n    <p>Paragraph with <b>bold</b> and <i>italic</i> text</p>\n    <ul><li>Item 1</li><li>Item 2</li></ul>\n    <ol><li>First</li><li>Second</li></ol>\n    <a href=\qhttps://link.com\q>Link</a>\n    <blockquote>Quote line 1<br>Quote line 2</blockquote>\n    <table>\n      <tr><td>A1</td><td>B1</td></tr>\n      <tr><td>A2</td><td>B2</td></tr>\n    </table>") []
  = js "Main Heading\n\nParagraph with **bold** and *italic* text\n\n- Item 1\n- Item 2\n1. First\n2. Second\n[Link](https://link.com)> Quote line 1\n> Quote line 2A1\tB1\nA2\tB2".
Proof. vm_compute. reflexivity. Qed.

Example doc_words :
  wrapByWords (js "one two three four five") 2 = Returns (js "one two\nthree four\nfive").
Proof. vm_compute. reflexivity. Qed.

Example doc_textify_1 :
  textify (js "<p>Hello <b>world</b></p>") false [] None None = Returns (js "Hello world").
Proof. vm_compute. reflexivity. Qed.

Example doc_textify_2 :
  textify (js "<p>one two three four five</p>") true [] None (Some 2%Z)
  = Returns (js "one two\nthree four\nfive").
Proof. vm_compute. reflexivity. Qed.

Example doc_textify_3 :
  textify (js "<p>one two three four five</p>") true [] (Some 10%Z) None
  = Returns (js "one two\nthree four\nfive").
Proof. vm_compute. reflexivity. Qed.

Example readme_mark :
  textify (js "<p>Paragraph <mark>highlighted</mark></p>") false [js "mark"] None None
  = Returns (js "Paragraph <mark>highlighted</mark>").
Proof. vm_compute. reflexivity. Qed.

Example readme_ignore :
  textify (js "<p>Paragraph <b>bold</b> <i>italic</i></p>") true [js "b"; js "i"] None None
  = Returns (js "Paragraph <b>bold</b><i>italic</i>").
Proof. vm_compute. reflexivity. Qed.

Example readme_words :
  textify (js "<p>one two three four five</p>") false [] None (Some 2%Z)
  = Returns (js "one two\nthree four\nfive").
Proof. vm_compute. reflexivity. Qed.

Example throws_on_zero :
  wrapByWords (js "one two") 0 = Throws (js "wrap count must be greater than 0").
Proof. vm_compute. reflexivity. Qed.

Example readme_length :
  textify (js "<p>This is a test sentence for wrapping.</p>") false [] (Some 10%Z) None
  = Returns (js "This is a\ntest\nsentence\nfor\nwrapping.").
Proof. vm_compute. reflexivity. Qed.

End Examples.

(** ** Facts about the matcher *)

Lemma one_reads p st st' :
  In st' (one p st) ->
  exists x, p x = true /\ rest st = x :: rest st' /\ prev st' = Some x /\ caps st' = caps st.
Proof.
  unfold one. destruct (rest st) as [|x xs] eqn:E; [intros []|].
  destruct (p x) eqn:Px; [|intros []].
  intros [<-|[]]. exists x. simpl. auto.
Qed.

Lemma again_reads fl pat : forall st st',
  In st' (again fl pat st) -> exists pre, reads st st' pre.
Proof.
  induction pat as [|a pat IH]; simpl; intros st st' H.
  - destruct H as [<-|[]]. exists []. reflexivity.
  - destruct (rest st) as [|x xs] eqn:E; [destruct H|].
    destruct (same fl x a); [|destruct H].
    apply IH in H. destruct H as [pre Hp]. exists (x :: pre).
    unfold reads in *. simpl in Hp. rewrite E, Hp. reflexivity.
Qed.

Lemma repeat_reads greedy iter :
  (forall st st', In st' (iter st) -> exists pre, reads st st' pre) ->
  forall n st st', In st' (repeat_from greedy iter n st) -> exists pre, reads st st' pre.
Proof.
  intros Hi. induction n as [|n IH]; simpl; intros st st' H.
  - destruct H as [<-|[]]. exists []. reflexivity.
  - assert (Hm : In st' (flat_map (fun st1 =>
               if Nat.ltb (length (rest st1)) (length (rest st))
               then repeat_from greedy iter n st1 else []) (iter st))
             -> exists pre, reads st st' pre).
    { intros Hin. apply in_flat_map in Hin. destruct Hin as [st1 [H1 H2]].
      destruct (Nat.ltb _ _); [|destruct H2].
      apply Hi in H1. apply IH in H2.
      destruct H1 as [p1 H1], H2 as [p2 H2]. exists (p1 ++ p2).
      unfold reads in *. rewrite H1, H2, app_assoc. reflexivity. }
    destruct greedy.
    + apply in_app_or in H. destruct H as [H|[<-|[]]]; auto.
      exists []. reflexivity.
    + destruct H as [<-|H]; auto. exists []. reflexivity.
Qed.

Lemma run_reads fl r : forall st st',
  In st' (run fl r st) -> exists pre, reads st st' pre.
Proof.
  induction r; simpl; intros st st' H.
  - destruct H as [<-|[]]. exists []. reflexivity.
  - apply one_reads in H. destruct H as [x [_ [H _]]]. exists [x]. exact H.
  - apply one_reads in H. destruct H as [x [_ [H _]]]. exists [x]. exact H.
  - apply one_reads in H. destruct H as [x [_ [H _]]]. exists [x]. exact H.
  - apply in_flat_map in H. destruct H as [st1 [H1 H2]].
    apply IHr1 in H1. apply IHr2 in H2.
    destruct H1 as [p1 H1], H2 as [p2 H2]. exists (p1 ++ p2).
    unfold reads in *. rewrite H1, H2, app_assoc. reflexivity.
  - apply in_app_or in H. destruct H; auto.
  - revert H. apply repeat_reads. exact IHr.
  - apply in_map_iff in H. destruct H as [st1 [<- H1]].
    apply IHr in H1. exact H1.
  - destruct (get_cap i (caps st)).
    + revert H. apply again_reads.
    + destruct H as [<-|[]]. exists []. reflexivity.
  - destruct (xorb _ _); [|destruct H]. destruct H as [<-|[]]. exists []. reflexivity.
  - destruct (rest st) eqn:E; [|destruct H]. destruct H as [<-|[]].
    exists []. unfold reads. rewrite E. reflexivity.
Qed.

Lemma consumed_reads st st' pre : reads st st' pre -> consumed st st' = pre.
Proof.
  unfold reads, consumed. intros ->. rewrite length_app.
  replace (length pre + length (rest st') - length (rest st')) with (length pre) by lia.
  rewrite firstn_app, firstn_all, Nat.sub_diag. simpl. apply app_nil_r.
Qed.

(** A match at the start of a text splits it into the match and the rest. *)
Lemma match_here_splits fl r p s mt st' :
  match_here fl r p s = Some (mt, st') ->
  s = whole mt ++ rest st' /\ In st' (run fl r (start p s)) /\ groups mt = caps st'.
Proof.
  unfold match_here.
  pose proof (run_reads fl r (start p s)) as Hr.
  destruct (run fl r (start p s)) as [|st1 l]; [discriminate|].
  intros H. injection H as <- <-. simpl.
  destruct (Hr st1 (or_introl eq_refl)) as [pre Hp].
  rewrite (consumed_reads Hp). unfold reads in Hp. simpl in Hp.
  repeat split; auto.
Qed.

Lemma exec_splits fl r : forall s p before mt st',
  exec fl r p s = Some (before, mt, st') ->
  s = before ++ whole mt ++ rest st'.
Proof.
  induction s as [|c s IH]; intros p before mt st'; simpl.
  - destruct (match_here fl r p []) as [[m1 s1]|] eqn:E; [|discriminate].
    intros H. injection H as <- <- <-. apply match_here_splits in E. tauto.
  - destruct (match_here fl r p (c :: s)) as [[m1 s1]|] eqn:E.
    + intros H. injection H as <- <- <-. apply match_here_splits in E. tauto.
    + destruct (exec fl r (Some c) s) as [[[b1 m1] s1]|] eqn:E1; [|discriminate].
      intros H. injection H as <- <- <-. simpl. f_equal. eapply IH. exact E1.
Qed.

(** [exec] by cases on the match at the start. *)
Lemma exec_hit fl r p s mt st' :
  match_here fl r p s = Some (mt, st') -> exec fl r p s = Some ([], mt, st').
Proof. intros H. destruct s; simpl; rewrite H; reflexivity. Qed.

Lemma exec_miss fl r p c s :
  match_here fl r p (c :: s) = None ->
  exec fl r p (c :: s) =
  match exec fl r (Some c) s with
  | Some (before, mt, st') => Some (c :: before, mt, st')
  | None => None
  end.
Proof. intros H. simpl. rewrite H. reflexivity. Qed.

Lemma exec_end fl r p : match_here fl r p [] = None -> exec fl r p [] = None.
Proof. intros H. simpl. rewrite H. reflexivity. Qed.

Lemma flatten_push c sg : flatten (push_front c sg) = c :: flatten sg.
Proof. destruct sg; reflexivity. Qed.

Lemma build_push A (cb : A -> rmatch -> text * A) a c sg :
  build cb a (push_front c sg) = c :: build cb a sg.
Proof. destruct sg; simpl; [reflexivity|]. destruct (cb a mt). reflexivity. Qed.

(** The matches and the text between them make up the text searched. *)
Lemma matchAll_fuel_flatten fl r : forall fuel p s,
  flatten (matchAll_fuel fuel fl r p s) = s.
Proof.
  induction fuel as [|fuel IH]; intros p s; simpl; [reflexivity|].
  destruct (exec fl r p s) as [[[b mt] st']|] eqn:E; [|reflexivity].
  apply exec_splits in E. subst s.
  destruct (whole mt) as [|w ws] eqn:Ew.
  - destruct (rest st') as [|c s'] eqn:Er; simpl; rewrite Ew.
    + reflexivity.
    + rewrite flatten_push, IH. reflexivity.
  - simpl. rewrite IH, Ew. reflexivity.
Qed.

Lemma matchAll_flatten fl r s : flatten (matchAll fl r s) = s.
Proof. apply matchAll_fuel_flatten. Qed.

(** More fuel than the length of the text changes nothing. *)
Lemma matchAll_fuel_enough fl r : forall n m p s,
  length s < n -> length s < m ->
  matchAll_fuel n fl r p s = matchAll_fuel m fl r p s.
Proof.
  induction n as [|n IH]; intros m p s Hn Hm; [lia|].
  destruct m as [|m]; [lia|]. simpl.
  destruct (exec fl r p s) as [[[b mt] st']|] eqn:E; [|reflexivity].
  apply exec_splits in E.
  assert (HL : length s = length b + length (whole mt) + length (rest st')).
  { rewrite E at 1. rewrite !length_app. lia. }
  destruct (whole mt) as [|w ws] eqn:Ew.
  - destruct (rest st') as [|c s'] eqn:Er; [reflexivity|].
    simpl in HL. f_equal. f_equal. apply IH; lia.
  - simpl in HL. f_equal. apply IH; lia.
Qed.


Lemma replaceAll_from fl r cb s :
  replaceAll fl r cb s = replace_from fl r (fun (_ : unit) mt => (cb mt, tt)) tt None s.
Proof. reflexivity. Qed.

Section Unfold.
Context {A : Type} (fl : flags) (r : regex) (cb : A -> rmatch -> text * A).

Lemma replace_from_end a p :
  match_here fl r p [] = None -> replace_from fl r cb a p [] = [].
Proof.
  intros H. unfold replace_from. simpl. rewrite H. reflexivity.
Qed.

Lemma matchAll_fuel_miss p c s n :
  match_here fl r p (c :: s) = None ->
  matchAll_fuel (S n) fl r p (c :: s)
  = push_front c (matchAll_fuel (S n) fl r (Some c) s).
Proof.
  intros H. cbn [matchAll_fuel]. rewrite exec_miss by exact H.
  destruct (exec fl r (Some c) s) as [[[b mt] st']|]; [|reflexivity].
  destruct (whole mt); [destruct (rest st')|]; reflexivity.
Qed.

Lemma replace_from_miss a p c s :
  match_here fl r p (c :: s) = None ->
  replace_from fl r cb a p (c :: s) = c :: replace_from fl r cb a (Some c) s.
Proof.
  intros H. unfold replace_from.
  rewrite matchAll_fuel_miss by exact H. rewrite build_push.
  do 2 f_equal. apply matchAll_fuel_enough; simpl; lia.
Qed.

Lemma matchAll_fuel_hit p s mt st' w ws n :
  match_here fl r p s = Some (mt, st') -> whole mt = w :: ws ->
  matchAll_fuel (S n) fl r p s
  = Hit [] mt (matchAll_fuel n fl r (prev st') (rest st')).
Proof.
  intros H Hw. cbn [matchAll_fuel].
  rewrite exec_hit with (mt := mt) (st' := st') by exact H. rewrite Hw. reflexivity.
Qed.

Lemma replace_from_hit a p s mt st' w ws :
  match_here fl r p s = Some (mt, st') -> whole mt = w :: ws ->
  replace_from fl r cb a p s =
  fst (cb a mt) ++ replace_from fl r cb (snd (cb a mt)) (prev st') (rest st').
Proof.
  intros H Hw. unfold replace_from.
  rewrite matchAll_fuel_hit with (mt := mt) (st' := st') (w := w) (ws := ws) by assumption.
  cbn [build]. destruct (cb a mt) as [out a']. cbn [fst snd app]. do 2 f_equal.
  apply match_here_splits in H. destruct H as [H _].
  apply (f_equal (@length ascii)) in H. rewrite Hw, length_app in H. simpl in H.
  apply matchAll_fuel_enough; lia.
Qed.

End Unfold.

(** Two callbacks that agree give the same result. *)
Lemma build_ext A (cb1 cb2 : A -> rmatch -> text * A) :
  (forall a mt, cb1 a mt = cb2 a mt) ->
  forall sg a, build cb1 a sg = build cb2 a sg.
Proof.
  intros H. induction sg as [t|b mt n IH]; intros a; simpl; [reflexivity|].
  rewrite H. destruct (cb2 a mt). rewrite IH. reflexivity.
Qed.

Lemma replaceAll_ext fl r cb1 cb2 s :
  (forall mt, cb1 mt = cb2 mt) -> replaceAll fl r cb1 s = replaceAll fl r cb2 s.
Proof.
  intros H. unfold replaceAll. apply build_ext. intros _ mt. rewrite H. reflexivity.
Qed.

(** A callback that returns every match leaves the text as it is. *)
Lemma build_whole A (cb : A -> rmatch -> text * A) :
  (forall a mt, fst (cb a mt) = whole mt) ->
  forall sg a, build cb a sg = flatten sg.
Proof.
  intros H. induction sg as [t|b mt n IH]; intros a; simpl; [reflexivity|].
  specialize (H a mt). destruct (cb a mt) as [out a']. simpl in H. subst out.
  rewrite IH. reflexivity.
Qed.

Lemma replaceAll_whole fl r cb s :
  (forall mt, cb mt = whole mt) -> replaceAll fl r cb s = s.
Proof.
  intros H. unfold replaceAll. rewrite build_whole; [apply matchAll_flatten|].
  intros _ mt. simpl. apply H.
Qed.

(** Without a match, [replace] returns the text. *)
Lemma replaceAll_none fl r cb s : exec fl r None s = None -> replaceAll fl r cb s = s.
Proof.
  intros H. unfold replaceAll, matchAll. simpl. rewrite H. reflexivity.
Qed.

(** ** Repetition of a one-character expression *)

Lemma repeat_greedy_one P : forall n s p cs,
  length s <= n ->
  repeat_from true (one P) n {| rest := s; prev := p; caps := cs |}
  = walk_greedy P cs p s.
Proof.
  induction n as [|n IH]; intros s p cs Hn.
  - destruct s; [reflexivity|simpl in Hn; lia].
  - destruct s as [|x xs]; [reflexivity|].
    assert (E1 : one P {| rest := x :: xs; prev := p; caps := cs |}
                 = if P x then [{| rest := xs; prev := Some x; caps := cs |}] else [])
      by reflexivity.
    cbn [repeat_from walk_greedy]. rewrite E1.
    destruct (P x); [|reflexivity].
    cbn [flat_map rest length].
    rewrite (proj2 (Nat.ltb_lt _ _)) by lia.
    rewrite app_nil_r. rewrite IH by (simpl in Hn; lia). reflexivity.
Qed.

Lemma repeat_lazy_one P : forall n s p cs,
  length s <= n ->
  repeat_from false (one P) n {| rest := s; prev := p; caps := cs |}
  = walk_lazy P cs p s.
Proof.
  induction n as [|n IH]; intros s p cs Hn.
  - destruct s; [reflexivity|simpl in Hn; lia].
  - destruct s as [|x xs]; [reflexivity|].
    assert (E1 : one P {| rest := x :: xs; prev := p; caps := cs |}
                 = if P x then [{| rest := xs; prev := Some x; caps := cs |}] else [])
      by reflexivity.
    cbn [repeat_from walk_lazy]. rewrite E1.
    destruct (P x); [|reflexivity].
    cbn [flat_map rest length].
    rewrite (proj2 (Nat.ltb_lt _ _)) by lia.
    rewrite app_nil_r. rewrite IH by (simpl in Hn; lia). reflexivity.
Qed.

Lemma take_drop_while P s : takeWhile P s ++ dropWhile P s = s.
Proof.
  induction s as [|x xs IH]; simpl; [reflexivity|].
  destruct (P x); simpl; [rewrite IH|]; reflexivity.
Qed.

Lemma last_of_cons p x s : last_of p (x :: s) = last_of (Some x) s.
Proof.
  unfold last_of. simpl. destruct (rev s) as [|y l] eqn:E; reflexivity.
Qed.

(** The first state of the greedy walk has read the whole run. *)
Lemma walk_greedy_head P cs : forall s p,
  exists l, walk_greedy P cs p s
            = {| rest := dropWhile P s; prev := last_of p (takeWhile P s); caps := cs |} :: l.
Proof.
  induction s as [|x xs IH]; intros p; simpl.
  - exists []. reflexivity.
  - destruct (P x) eqn:Px.
    + destruct (IH (Some x)) as [l Hl]. rewrite Hl. rewrite last_of_cons.
      eexists. reflexivity.
    + exists []. reflexivity.
Qed.

(** ** Stepping through an expression *)

Lemma flat_map_eps fl (l : list mstate) : flat_map (run fl Eps) l = l.
Proof.
  induction l as [|x l IH]; cbn [flat_map]; [reflexivity|].
  rewrite IH. reflexivity.
Qed.

Lemma run_seq fl r1 r2 st :
  run fl (Seq r1 r2) st = flat_map (run fl r2) (run fl r1 st).
Proof. reflexivity. Qed.

Lemma run_grp fl i r st :
  run fl (Grp i r) st = map (set_cap i st) (run fl r st).
Proof. reflexivity. Qed.

Lemma run_alt fl r1 r2 st : run fl (Alt r1 r2) st = run fl r1 st ++ run fl r2 st.
Proof. reflexivity. Qed.

Lemma run_eps fl st : run fl Eps st = [st].
Proof. reflexivity. Qed.

Lemma run_chr fl c st : run fl (Chr c) st = one (fun x => same fl x c) st.
Proof. reflexivity. Qed.

Lemma run_wordb fl st :
  run fl WordB st
  = if xorb (word_at (prev st)) (word_at (hd_error (rest st))) then [st] else [].
Proof. reflexivity. Qed.

Lemma run_star fl g r st :
  run fl (Star g r) st = repeat_from g (run fl r) (length (rest st)) st.
Proof. reflexivity. Qed.

Lemma run_seq_one fl r1 r2 P x xs p cs :
  run fl r1 = one P ->
  run fl (Seq r1 r2) {| rest := x :: xs; prev := p; caps := cs |}
  = if P x then run fl r2 {| rest := xs; prev := Some x; caps := cs |} else [].
Proof.
  intros H. cbn [run]. rewrite H. unfold one. cbn [rest].
  destruct (P x); [|reflexivity]. cbn [flat_map]. apply app_nil_r.
Qed.

Lemma run_seq_one_nil fl r1 r2 P p cs :
  run fl r1 = one P ->
  run fl (Seq r1 r2) {| rest := []; prev := p; caps := cs |} = [].
Proof. intros H. cbn [run]. rewrite H. reflexivity. Qed.

Lemma run_seq_chr fl c r x xs p cs :
  run fl (Seq (Chr c) r) {| rest := x :: xs; prev := p; caps := cs |}
  = if same fl x c then run fl r {| rest := xs; prev := Some x; caps := cs |} else [].
Proof. apply run_seq_one with (P := fun y => same fl y c). reflexivity. Qed.

Lemma run_seq_chr_nil fl c r p cs :
  run fl (Seq (Chr c) r) {| rest := []; prev := p; caps := cs |} = [].
Proof. reflexivity. Qed.

(** ** C4: no three newlines in a row *)

Lemma calm_triple a b : forall k, calm k (a ++ [LF; LF; LF] ++ b) = false.
Proof.
  induction a as [|c a IH]; intros k.
  - simpl. destruct k as [|[|k]]; reflexivity.
  - simpl. destruct (isLF c); [rewrite IH; apply andb_false_r|apply IH].
Qed.

Lemma calm_mono s : forall k, calm (S k) s = true -> calm k s = true.
Proof.
  induction s as [|c t IH]; intros k; simpl; [reflexivity|].
  destruct (isLF c); [|trivial].
  intros H. apply andb_prop in H. destruct H as [Hk Ht].
  apply Nat.ltb_lt in Hk. rewrite (IH _ Ht).
  rewrite (proj2 (Nat.ltb_lt k 2)) by lia. reflexivity.
Qed.

Lemma calm_zero s : forall k, calm k s = true -> calm 0 s = true.
Proof.
  induction k as [|k IH]; [trivial|]. intros H. apply IH, calm_mono, H.
Qed.

Lemma calm_app_l a b : forall k, calm k (a ++ b) = true -> calm k a = true.
Proof.
  induction a as [|c a IH]; intros k; simpl; [reflexivity|].
  destruct (isLF c).
  - intros H. apply andb_prop in H. destruct H as [Hk Ht].
    rewrite Hk. simpl. eapply IH, Ht.
  - apply IH.
Qed.

Lemma calm_tail c s k : calm k (c :: s) = true -> calm 0 s = true.
Proof.
  simpl. destruct (isLF c).
  - intros H. apply andb_prop in H. eapply calm_zero, (proj2 H).
  - trivial.
Qed.

Lemma calm_dropWhile P s : calm 0 s = true -> calm 0 (dropWhile P s) = true.
Proof.
  induction s as [|c s IH]; [trivial|]. cbn [dropWhile].
  destruct (P c); [|trivial].
  intros H. apply IH. eapply calm_tail. exact H.
Qed.

Lemma trimEnd_prefix s : exists w, s = trimEnd s ++ w.
Proof.
  unfold trimEnd. exists (rev (takeWhile isSpace (rev s))).
  rewrite <- rev_app_distr, take_drop_while, rev_involutive. reflexivity.
Qed.

Lemma calm_trim s : calm 0 s = true -> calm 0 (trim s) = true.
Proof.
  intros H. unfold trim.
  destruct (trimEnd_prefix (trimStart s)) as [w Hw].
  apply calm_app_l with (b := w). rewrite <- Hw.
  apply calm_dropWhile, H.
Qed.

(** The match of [\n{3,}] at the start of a text: the whole run of
    newlines, when it has three or more. *)
Lemma newlines_here p s :
  (exists t mt st',
      s = LF :: LF :: LF :: t /\
      match_here f_g re_newlines p s = Some (mt, st') /\
      whole mt = LF :: LF :: LF :: takeWhile isLF t /\
      rest st' = dropWhile isLF t)
  \/ (match_here f_g re_newlines p s = None /\ lead s <= 2).
Proof.
  assert (Hc : forall x, same f_g x LF = isLF x) by reflexivity.
  unfold match_here, start, re_newlines, seq, star. cbn [fold_right].
  destruct s as [|c1 s]; [right; split; [reflexivity|unfold lead; simpl; lia]|].
  rewrite run_seq_chr, Hc. unfold lead. cbn [takeWhile].
  destruct (isLF c1) eqn:E1; [|right; split; [reflexivity|simpl; lia]].
  destruct s as [|c2 s]; [right; split; [reflexivity|simpl; lia]|].
  rewrite run_seq_chr, Hc. cbn [takeWhile].
  destruct (isLF c2) eqn:E2; [|right; split; [reflexivity|simpl; lia]].
  destruct s as [|c3 s]; [right; split; [reflexivity|simpl; lia]|].
  rewrite run_seq_chr, Hc. cbn [takeWhile].
  destruct (isLF c3) eqn:E3; [|right; split; [reflexivity|simpl; lia]].
  left. apply Ascii.eqb_eq in E1, E2, E3. subst c1 c2 c3.
  rewrite run_seq, flat_map_eps, run_star.
  change (run f_g (Chr LF)) with (one isLF).
  rewrite repeat_greedy_one by (cbn [rest]; lia).
  destruct (walk_greedy_head isLF [] s (Some LF)) as [l Hl]. rewrite Hl.
  eexists _, _, _. split; [reflexivity|]. split; [reflexivity|].
  cbn [whole rest]. split; [|reflexivity].
  apply consumed_reads. unfold reads. cbn [rest]. simpl.
  rewrite take_drop_while. reflexivity.
Qed.

Lemma lead_dropWhile s : lead (dropWhile isLF s) = 0.
Proof.
  induction s as [|c s IH]; [reflexivity|]. simpl.
  destruct (isLF c) eqn:E; [exact IH|]. unfold lead. simpl. rewrite E. reflexivity.
Qed.

Lemma collapse_calm : forall n s, length s <= n ->
  forall k p, k <= 2 -> (k = 0 \/ k + lead s <= 2) ->
  calm k (replace_from f_g re_newlines (fun (_ : unit) _ => (js "\n\n", tt)) tt p s) = true.
Proof.
  induction n as [|n IH]; intros s Hn k p Hk Hinv.
  - destruct s; [|simpl in Hn; lia].
    rewrite replace_from_end; [reflexivity|].
    destruct (newlines_here p []) as [[t [mt [st' [H _]]]]|[H _]]; [discriminate|exact H].
  - destruct (newlines_here p s) as [[t [mt [st' [Hs [Hm [Hw Hr]]]]]]|[Hm Hl]].
    + rewrite replace_from_hit with (mt := mt) (st' := st') (w := LF)
        (ws := LF :: LF :: takeWhile isLF t) by assumption.
      cbn [fst snd]. assert (k = 0).
      { destruct Hinv as [|Hinv]; [assumption|]. subst s. unfold lead in Hinv.
        simpl in Hinv. lia. }
      subst k. change (js "\n\n") with [LF; LF]. cbn [app calm isLF].
      change (Ascii.eqb LF LF) with true. cbn [Nat.ltb Nat.leb andb].
      apply IH; [|lia|].
      * rewrite Hr. subst s. simpl in Hn.
        pose proof (f_equal (@length ascii) (take_drop_while isLF t)) as HL.
        rewrite length_app in HL. lia.
      * right. rewrite Hr, lead_dropWhile. lia.
    + destruct s as [|c s].
      * rewrite replace_from_end by exact Hm. reflexivity.
      * rewrite replace_from_miss by exact Hm. cbn [calm].
        unfold lead in Hl, Hinv. cbn [takeWhile] in Hl, Hinv.
        destruct (isLF c) eqn:Ec.
        -- simpl in Hl, Hinv.
           rewrite (proj2 (Nat.ltb_lt k 2)) by lia. cbn [andb].
           apply IH; [simpl in Hn; lia|lia|]. right. unfold lead. lia.
        -- apply IH; [simpl in Hn; lia|lia|]. left. reflexivity.
Qed.

Lemma collapseNewlines_calm s : calm 0 (collapseNewlines s) = true.
Proof.
  unfold collapseNewlines. rewrite replaceAll_from.
  apply collapse_calm with (n := length s); auto.
Qed.

(** C4. For every input html and every ignoreTags, the string returned by
    preserveFormat contains no run of three or more consecutive newline
    characters: it is never of the form [a ++ "\n\n\n" ++ b]. *)
Theorem preserveFormat_no_three_newlines (html : text) (ignoreTags : list text) :
  forall a b, preserveFormat html ignoreTags <> a ++ js "\n\n\n" ++ b.
Proof.
  intros a b H.
  assert (Hc : calm 0 (preserveFormat html ignoreTags) = true).
  { unfold preserveFormat. destruct html; [reflexivity|].
    cbv zeta. apply calm_trim, collapseNewlines_calm. }
  rewrite H in Hc. change (js "\n\n\n") with [LF; LF; LF] in Hc.
  rewrite calm_triple in Hc. discriminate.
Qed.

(** ** C2: wrapByWords *)

Lemma P_ws_space fl x : P_ws fl x = isSpace x.
Proof. unfold P_ws. simpl. apply orb_false_r. Qed.

Lemma takeWhile_ext P Q s : (forall x, P x = Q x) -> takeWhile P s = takeWhile Q s.
Proof.
  intros H. induction s as [|x s IH]; simpl; [reflexivity|].
  rewrite H, IH. reflexivity.
Qed.

Lemma dropWhile_ext P Q s : (forall x, P x = Q x) -> dropWhile P s = dropWhile Q s.
Proof.
  intros H. induction s as [|x s IH]; simpl; [reflexivity|].
  rewrite H, IH. reflexivity.
Qed.

(** The match of [\s+] at the start of a text: the whole run of white
    space, when there is one. *)
Lemma spaces_here fl p s :
  match s with
  | x :: xs =>
      if isSpace x
      then exists mt st',
          match_here fl re_spaces p s = Some (mt, st') /\
          whole mt = x :: takeWhile isSpace xs /\
          rest st' = dropWhile isSpace xs
      else match_here fl re_spaces p s = None
  | [] => match_here fl re_spaces p s = None
  end.
Proof.
  destruct s as [|x xs]; [reflexivity|].
  unfold match_here, start, re_spaces, plus.
  rewrite run_seq_one with (P := P_ws fl) by reflexivity.
  rewrite P_ws_space. destruct (isSpace x) eqn:Ex; [|reflexivity].
  rewrite run_star. change (run fl ws) with (one (P_ws fl)).
  rewrite repeat_greedy_one by (cbn [rest]; lia).
  destruct (walk_greedy_head (P_ws fl) [] xs (Some x)) as [l Hl]. rewrite Hl.
  eexists _, _. split; [reflexivity|]. cbn [whole rest].
  rewrite (@dropWhile_ext (P_ws fl) isSpace xs (P_ws_space fl)).
  split; [|reflexivity].
  apply consumed_reads. unfold reads. cbn [rest].
  rewrite <- (@takeWhile_ext (P_ws fl) isSpace xs (P_ws_space fl)).
  rewrite <- (@dropWhile_ext (P_ws fl) isSpace xs (P_ws_space fl)).
  simpl. rewrite take_drop_while. reflexivity.
Qed.

Lemma wordsFrom_gap s : wordsFrom true [] s = wordsFrom false [] (dropWhile isSpace s).
Proof.
  induction s as [|c s IH]; [reflexivity|]. simpl.
  destruct (isSpace c) eqn:E; [exact IH|]. simpl. rewrite E. reflexivity.
Qed.

Lemma length_dropWhile P s : length (dropWhile P s) <= length s.
Proof.
  induction s as [|c s IH]; simpl; [lia|]. destruct (P c); simpl; lia.
Qed.

Lemma split_fuel_words : forall n s, length s <= n ->
  forall p cur, split_fuel n f_g re_spaces p cur s = wordsFrom false cur s.
Proof.
  induction n as [|n IH]; intros s Hn p cur.
  - destruct s; [|simpl in Hn; lia]. simpl. rewrite app_nil_r. reflexivity.
  - destruct s as [|c s]; [reflexivity|]. cbn [split_fuel wordsFrom].
    pose proof (spaces_here f_g p (c :: s)) as H. cbn beta iota in H.
    destruct (isSpace c).
    + destruct H as [mt [st' [Hm [Hw Hr]]]]. rewrite Hm, Hw, Hr.
      rewrite IH by (pose proof (length_dropWhile isSpace s); simpl in Hn; lia).
      rewrite wordsFrom_gap. reflexivity.
    + rewrite H. apply IH. simpl in Hn. lia.
Qed.

(** [split(/\s+/)] gives the words of the text. *)
Lemma split_words s : split f_g re_spaces s = wordsOf s.
Proof.
  destruct s as [|c s]; [reflexivity|].
  unfold split. apply split_fuel_words. lia.
Qed.

Lemma chunks_concat n : 1 <= n -> forall fuel xs,
  length xs <= fuel -> concat (chunks_fuel fuel n xs) = xs.
Proof.
  intros Hn. induction fuel as [|fuel IH]; intros xs Hl.
  - destruct xs; [reflexivity|simpl in Hl; lia].
  - destruct xs as [|x xs]; [reflexivity|].
    cbn [chunks_fuel concat]. rewrite IH.
    + apply firstn_skipn.
    + rewrite length_skipn. cbn [length] in *. lia.
Qed.

Lemma chunks_nil_inv fuel n xs :
  length xs <= fuel -> chunks_fuel fuel n xs = [] -> xs = [].
Proof.
  destruct fuel; destruct xs; simpl; intros; try reflexivity; try lia; discriminate.
Qed.

Lemma chunks_shape n : 1 <= n -> forall fuel xs,
  length xs <= fuel ->
  forall a g b, chunks_fuel fuel n xs = a ++ g :: b ->
                1 <= length g <= n /\ (b <> [] -> length g = n).
Proof.
  intros Hn. induction fuel as [|fuel IH]; intros xs Hl a g b H.
  - destruct a; discriminate.
  - destruct xs as [|x xs]; [destruct a; discriminate|].
    cbn [chunks_fuel] in H.
    assert (Hs : length (skipn n (x :: xs)) <= fuel).
    { rewrite length_skipn. cbn [length] in *. lia. }
    destruct a as [|a0 a].
    + simpl in H. injection H as Hg Hb. subst g.
      rewrite length_firstn. split; [cbn [length]; lia|].
      intros Hne. destruct (Nat.le_gt_cases (length (x :: xs)) n) as [Hle|Hgt]; [|lia].
      exfalso. apply Hne. subst b.
      rewrite skipn_all2 by exact Hle. destruct fuel; reflexivity.
    + simpl in H. injection H as _ H. eapply IH; eassumption.
Qed.

Lemma slice_chunk (words : list text) (n k : nat) :
  k < length words ->
  slice words (Z.of_nat k) (Z.of_nat k + Z.of_nat n)%Z = firstn n (skipn k words).
Proof.
  intros Hk. unfold slice, rel_index.
  rewrite (proj2 (Z.ltb_ge _ _)) by lia.
  rewrite (proj2 (Z.ltb_ge _ _)) by lia.
  rewrite <- Nat2Z.inj_add, !Nat2Z.id.
  rewrite (Nat.min_l k) by lia.
  destruct (Nat.le_gt_cases (k + n) (length words)) as [H|H].
  - rewrite Nat.min_l by lia. f_equal. lia.
  - rewrite Nat.min_r by lia.
    rewrite (firstn_all2 (n := n)) by (rewrite length_skipn; lia).
    apply firstn_all2. rewrite length_skipn. lia.
Qed.

Lemma wrap_loop_chunks (words : list text) (n : nat) : 1 <= n ->
  forall fuel k lines, length words - k <= fuel ->
  wrap_loop fuel words (Z.of_nat n) (Z.of_nat k) lines
  = lines ++ map (join (js " ")) (chunks_fuel fuel n (skipn k words)).
Proof.
  intros Hn. induction fuel as [|fuel IH]; intros k lines Hf.
  - simpl. rewrite app_nil_r. reflexivity.
  - cbn [wrap_loop chunks_fuel].
    destruct (Z.ltb_spec (Z.of_nat k) (Z.of_nat (length words))) as [Hlt|Hge].
    + assert (Hk : k < length words) by lia.
      rewrite slice_chunk by exact Hk.
      rewrite <- Nat2Z.inj_add. rewrite IH by lia.
      destruct (skipn k words) as [|w ws] eqn:Es.
      * apply (f_equal (@length text)) in Es. rewrite length_skipn in Es.
        simpl in Es. lia.
      * rewrite <- Es. cbn [map]. rewrite <- app_assoc. cbn [app].
        rewrite skipn_skipn. rewrite (Nat.add_comm n k). reflexivity.
    + rewrite skipn_all2 by lia. rewrite app_nil_r. reflexivity.
Qed.

(** ** C3: wrapByLength *)

Lemma join_snoc sep (xs : list text) w :
  xs <> [] -> join sep (xs ++ [w]) = join sep xs ++ sep ++ w.
Proof.
  induction xs as [|x xs IH]; [congruence|]. intros _.
  destruct xs as [|y xs]; [reflexivity|].
  change (join sep ((x :: y :: xs) ++ [w])) with (x ++ sep ++ join sep ((y :: xs) ++ [w])).
  rewrite IH by discriminate.
  change (join sep (x :: y :: xs)) with (x ++ sep ++ join sep (y :: xs)).
  rewrite <- !app_assoc. reflexivity.
Qed.

Lemma join_nonempty sep (xs : list text) :
  xs <> [] -> (forall w, In w xs -> w <> []) -> join sep xs <> [].
Proof.
  destruct xs as [|x xs]; [congruence|]. intros _ H.
  assert (Hx : x <> []) by (apply H; left; reflexivity).
  destruct x as [|c x]; [congruence|]. destruct xs; discriminate.
Qed.

Lemma fillLines_groups L : forall words cur lines,
  (forall w, In w (cur ++ words) -> w <> []) ->
  fillLines L lines (join (js " ") cur) words
  = lines ++ map (join (js " ")) (fillGroups L cur words).
Proof.
  induction words as [|w words IH]; intros cur lines Hne.
  - cbn [fillLines fillGroups]. destruct cur as [|c cur].
    + simpl. rewrite app_nil_r. reflexivity.
    + rewrite app_nil_r in Hne.
      pose proof (@join_nonempty (js " ") (c :: cur) ltac:(discriminate) Hne) as Hj.
      cbn [map]. destruct (join (js " ") (c :: cur)); [congruence|reflexivity].
  - cbn [fillLines fillGroups]. destruct cur as [|c cur].
    + cbn [join]. apply (IH [w] lines).
      intros x Hx. apply Hne. simpl in *. tauto.
    + assert (Hc : forall x, In x (c :: cur) -> x <> []).
      { intros x Hx. apply Hne. apply in_or_app. left. exact Hx. }
      pose proof (@join_nonempty (js " ") (c :: cur) ltac:(discriminate) Hc) as Hj.
      destruct (join (js " ") (c :: cur)) as [|j0 j] eqn:Ej; [congruence|].
      destruct (Z.of_nat (length ((j0 :: j) ++ js " " ++ w)) >? L)%Z.
      * assert (Hw : forall x, In x ([w] ++ words) -> x <> []).
        { intros x Hx. apply Hne. apply in_or_app. right. exact Hx. }
        specialize (IH [w] (lines ++ [j0 :: j]) Hw). cbn [join] in IH.
        eapply eq_trans; [exact IH|].
        cbn [map]. rewrite Ej, <- app_assoc. reflexivity.
      * rewrite <- Ej, <- join_snoc by discriminate.
        apply IH. intros x Hx. apply Hne. rewrite <- app_assoc in Hx. exact Hx.
Qed.

Lemma fillGroups_concat L : forall words cur,
  concat (fillGroups L cur words) = cur ++ words.
Proof.
  induction words as [|w words IH]; intros cur; cbn [fillGroups].
  - destruct cur; simpl; rewrite ?app_nil_r; reflexivity.
  - destruct cur as [|c cur]; [apply (IH [w])|].
    destruct (_ >? L)%Z.
    + cbn [concat]. rewrite (IH [w]). reflexivity.
    + rewrite IH, <- app_assoc. reflexivity.
Qed.

Lemma fillGroups_head L : forall words c cur,
  exists g rest, fillGroups L (c :: cur) words = (c :: g) :: rest.
Proof.
  induction words as [|w words IH]; intros c cur; cbn [fillGroups].
  - eexists _, _. reflexivity.
  - destruct (_ >? L)%Z.
    + eexists _, _. reflexivity.
    + apply (IH c (cur ++ [w])).
Qed.

Lemma fillGroups_greedy L : forall words cur,
  (cur = [] \/ fits L cur) -> greedyLines L (fillGroups L cur words).
Proof.
  induction words as [|w words IH]; intros cur Hcur; cbn [fillGroups].
  - destruct cur as [|c cur]; [exact I|].
    destruct Hcur as [|Hf]; [discriminate|]. simpl. repeat split; auto. discriminate.
  - destruct cur as [|c cur].
    + apply IH. right. left. reflexivity.
    + destruct Hcur as [|Hf]; [discriminate|].
      destruct (Z.gtb_spec (Z.of_nat (length (join (js " ") (c :: cur) ++ js " " ++ w))) L)
        as [Hgt|Hle].
      * cbn [greedyLines]. split; [discriminate|]. split; [exact Hf|]. split.
        -- destruct (fillGroups_head L words w []) as [g [rest Hg]]. rewrite Hg.
           unfold tight. lia.
        -- apply IH. right. left. reflexivity.
      * apply IH. right. right.
        rewrite join_snoc by discriminate. exact Hle.
Qed.

(** C3 (wrapByLength is modelled from the spec).  For every text and every
    L, wrapByLength fills lines greedily with the words of the text, and the
    lines are joined with newlines.  For words that are not empty: the lines
    are the words, in order, in groups joined by a space; a word on an empty
    line is placed whatever its length, so a line is either a single word or
    not longer than L; and a line was emitted only because a space and the
    next word would have made it longer than L.
    wrapByLength("This is a test sentence for wrapping.", 10) is
    "This is a\ntest\nsentence\nfor\nwrapping.". *)
Theorem wrapByLength_greedy :
  (forall txt L,
      wrapByLength txt L = join (js "\n") (fillLines L [] [] (wordsOf (trim txt)))) /\
  (forall L words,
      (forall w, In w words -> w <> []) ->
      exists groups,
        concat groups = words /\
        greedyLines L groups /\
        fillLines L [] [] words = map (join (js " ")) groups) /\
  (forall L w, w <> [] -> fillLines L [] [] [w] = [w]) /\
  wrapByLength (js "This is a test sentence for wrapping.") 10
  = js "This is a\ntest\nsentence\nfor\nwrapping.".
Proof.
  split; [|split; [|split]].
  - intros txt L. unfold wrapByLength. rewrite split_words. reflexivity.
  - intros L words Hne. exists (fillGroups L [] words). split; [|split].
    + apply fillGroups_concat.
    + apply fillGroups_greedy. left. reflexivity.
    + apply (fillLines_groups L words [] []). exact Hne.
  - intros L w Hw. destruct w; [congruence|reflexivity].
  - vm_compute. reflexivity.
Qed.

Lemma wrapByLength_greedy_witness :
  exists groups,
    concat groups = [js "This"; js "is"; js "a"; js "test"] /\
    greedyLines 10 groups /\
    fillLines 10 [] [] [js "This"; js "is"; js "a"; js "test"]
    = map (join (js " ")) groups.
Proof.
  apply (proj1 (proj2 wrapByLength_greedy) 10%Z).
  intros w Hw. simpl in Hw.
  destruct Hw as [<-|[<-|[<-|[<-|[]]]]]; discriminate.
Defined.

(** ** C6: when textify wraps *)

Lemma stripTags_empty ig : stripTags ig [] = [].
Proof. unfold stripTags. destruct (Nat.eqb (length ig) 0); reflexivity. Qed.

Lemma wrapByWords_empty n : (0 < n)%Z -> wrapByWords [] n = Returns [].
Proof.
  intros Hn. unfold wrapByWords. rewrite (proj2 (Z.leb_gt _ _)) by exact Hn.
  rewrite split_words. change (wordsOf (trim [])) with [@nil ascii].
  replace n with (Z.of_nat (Z.to_nat n)) by lia. change 0%Z with (Z.of_nat 0).
  rewrite wrap_loop_chunks by (simpl; lia).
  simpl. destruct (Z.to_nat n) as [|[|k]] eqn:E; [lia|reflexivity|reflexivity].
Qed.

Lemma positive_spec o : positive o = true <-> exists n, o = Some n /\ (0 < n)%Z.
Proof.
  unfold positive. destruct o as [k|].
  - split.
    + intros H. apply andb_prop in H. destruct H as [_ H].
      exists k. split; [reflexivity|]. apply Z.gtb_lt in H. exact H.
    + intros [n [E Hn]]. injection E as ->.
      rewrite (proj2 (Z.gtb_lt _ _)) by lia.
      destruct (Z.eqb_spec n 0); [lia|reflexivity].
  - split; [discriminate|]. intros [n [E _]]. discriminate.
Qed.

(** C6. For every call to textify, with [base] the text before wrapping:
    when wrapWords is supplied and strictly positive, the result is
    wrapByWords of [base], whatever wrapLength is; when wrapWords is not and
    wrapLength is supplied and strictly positive, the result is wrapByLength
    of [base]; when neither is, the result is [base], not wrapped. *)
Theorem textify_wrap_directive (html : text) (preserveFormatting : bool)
  (ignoreTags : list text) (wrapLength wrapWords : option Z) :
  let base := if preserveFormatting then preserveFormat html ignoreTags
              else stripTags ignoreTags html in
  (forall n, wrapWords = Some n -> (0 < n)%Z ->
     textify html preserveFormatting ignoreTags wrapLength wrapWords
     = wrapByWords base n) /\
  (~ active wrapWords ->
   forall l, wrapLength = Some l -> (0 < l)%Z ->
     textify html preserveFormatting ignoreTags wrapLength wrapWords
     = Returns (wrapByLength base l)) /\
  (~ active wrapWords -> ~ active wrapLength ->
     textify html preserveFormatting ignoreTags wrapLength wrapWords
     = Returns base).
Proof.
  intros base.
  assert (Hb : html = [] -> base = []).
  { intros ->. unfold base. destruct preserveFormatting;
      [reflexivity|apply stripTags_empty]. }
  assert (Hp : forall o, ~ active o -> positive o = false).
  { intros o Ho. destruct (positive o) eqn:E; [|reflexivity].
    exfalso. apply Ho. apply positive_spec. exact E. }
  assert (Hq : forall o n, o = Some n -> (0 < n)%Z -> positive o = true).
  { intros o n -> Hn. apply positive_spec. exists n. auto. }
  split; [|split].
  - intros n E Hn. unfold textify. destruct html as [|c html'].
    + rewrite Hb by reflexivity. rewrite wrapByWords_empty by exact Hn. reflexivity.
    + rewrite (Hq _ _ E Hn). subst wrapWords. reflexivity.
  - intros Hw l E Hl. unfold textify. destruct html as [|c html'].
    + rewrite Hb by reflexivity. reflexivity.
    + rewrite (Hp _ Hw), (Hq _ _ E Hl). subst wrapLength. reflexivity.
  - intros Hw Hl. unfold textify. destruct html as [|c html'].
    + rewrite Hb by reflexivity. reflexivity.
    + rewrite (Hp _ Hw), (Hp _ Hl). reflexivity.
Qed.

Lemma textify_wrap_directive_witness :
  textify (js "<p>a b c</p>") true [] (Some 3%Z) (Some 2%Z)
  = wrapByWords (preserveFormat (js "<p>a b c</p>") []) 2.
Proof.
  apply (proj1 (textify_wrap_directive (js "<p>a b c</p>") true [] (Some 3%Z) (Some 2%Z)) 2%Z).
  - reflexivity.
  - lia.
Defined.

(** ** C10: the case of the entries of ignoreTags *)

Lemma lowerChar_idem c : lowerChar (lowerChar c) = lowerChar c.
Proof. each_ascii c; reflexivity. Qed.

Lemma toLowerCase_idem s : toLowerCase (toLowerCase s) = toLowerCase s.
Proof.
  unfold toLowerCase. rewrite map_map. apply map_ext. apply lowerChar_idem.
Qed.

Lemma text_eqb_eq a b : text_eqb a b = true <-> a = b.
Proof.
  unfold text_eqb. destruct (list_eq_dec ascii_dec a b); split; congruence.
Qed.

Lemma text_eqb_neq a b : a <> b -> text_eqb a b = false.
Proof.
  intros H. destruct (text_eqb a b) eqn:E; [|reflexivity].
  apply text_eqb_eq in E. contradiction.
Qed.

Lemma includes_app xs ys x : includes (xs ++ ys) x = includes xs x || includes ys x.
Proof. unfold includes. apply existsb_app. Qed.

Lemma same_keys_lit ig1 ig2 k :
  same_keys ig1 ig2 -> toLowerCase k = k -> includes ig1 k = includes ig2 k.
Proof. intros H E. rewrite <- E. apply H. Qed.

Lemma not_lower_no_key e x : toLowerCase e <> e -> text_eqb (toLowerCase x) e = false.
Proof.
  intros He. apply text_eqb_neq. intros <-. apply He. apply toLowerCase_idem.
Qed.

Lemma same_keys_without e ig1 ig2 :
  toLowerCase e <> e -> same_keys (ig1 ++ e :: ig2) (ig1 ++ ig2).
Proof.
  intros He x. rewrite !includes_app. f_equal.
  unfold includes. cbn [existsb]. rewrite not_lower_no_key by exact He. reflexivity.
Qed.

Section SameKeys.
Variables ig1 ig2 : list text.
Hypothesis K : same_keys ig1 ig2.

Ltac lit k := rewrite (@same_keys_lit ig1 ig2 (js k) K eq_refl).

Lemma brPass_keys html : brPass ig1 html = brPass ig2 html.
Proof. unfold brPass. lit "br"%string. reflexivity. Qed.

Lemma closePass_keys html : closePass ig1 html = closePass ig2 html.
Proof. unfold closePass. apply replaceAll_ext. intros mt. rewrite K. reflexivity. Qed.

Lemma boldPass_keys html : boldPass ig1 html = boldPass ig2 html.
Proof. unfold boldPass. apply replaceAll_ext. intros mt. rewrite K. reflexivity. Qed.

Lemma italicPass_keys html : italicPass ig1 html = italicPass ig2 html.
Proof. unfold italicPass. apply replaceAll_ext. intros mt. rewrite K. reflexivity. Qed.

Lemma linkPass_keys html : linkPass ig1 html = linkPass ig2 html.
Proof. unfold linkPass. lit "a"%string. reflexivity. Qed.

Lemma numberItems_keys content : numberItems ig1 content = numberItems ig2 content.
Proof.
  unfold numberItems, replaceAll_st. apply build_ext. intros a mt.
  lit "li"%string. reflexivity.
Qed.

Lemma olPass_keys html : olPass ig1 html = olPass ig2 html.
Proof.
  unfold olPass. apply replaceAll_ext. intros mt.
  lit "ol"%string. rewrite numberItems_keys. reflexivity.
Qed.

Lemma bulletItems_keys content : bulletItems ig1 content = bulletItems ig2 content.
Proof.
  unfold bulletItems. apply replaceAll_ext. intros mt. lit "li"%string. reflexivity.
Qed.

Lemma ulPass_keys html : ulPass ig1 html = ulPass ig2 html.
Proof.
  unfold ulPass. apply replaceAll_ext. intros mt.
  lit "ul"%string. rewrite bulletItems_keys. reflexivity.
Qed.

Lemma blockquotePass_keys html : blockquotePass ig1 html = blockquotePass ig2 html.
Proof. unfold blockquotePass. lit "blockquote"%string. reflexivity. Qed.

Lemma tableCells_keys row : tableCells ig1 row = tableCells ig2 row.
Proof.
  unfold tableCells. apply replaceAll_ext. intros mt. lit "td"%string. lit "th"%string. reflexivity.
Qed.

Lemma tableRows_keys content : tableRows ig1 content = tableRows ig2 content.
Proof.
  unfold tableRows. f_equal. apply replaceAll_ext. intros mt.
  lit "tr"%string. rewrite tableCells_keys. reflexivity.
Qed.

Lemma tablePass_keys html : tablePass ig1 html = tablePass ig2 html.
Proof.
  unfold tablePass. apply replaceAll_ext. intros mt.
  lit "table"%string. rewrite tableRows_keys. reflexivity.
Qed.

Lemma stripPass_keys html :
  (ig1 = [] <-> ig2 = []) -> stripPass ig1 html = stripPass ig2 html.
Proof.
  intros E. unfold stripPass.
  destruct ig1 as [|a l1]; destruct ig2 as [|b l2]; cbn [length Nat.eqb].
  - reflexivity.
  - destruct E as [E _]. specialize (E eq_refl). discriminate.
  - destruct E as [_ E]. specialize (E eq_refl). discriminate.
  - apply replaceAll_ext. intros mt. rewrite K. reflexivity.
Qed.

Lemma preserveFormat_keys html :
  (ig1 = [] <-> ig2 = []) -> preserveFormat html ig1 = preserveFormat html ig2.
Proof.
  intros E. unfold preserveFormat. destruct html as [|c html]; [reflexivity|].
  cbv zeta.
  rewrite brPass_keys, closePass_keys, boldPass_keys, italicPass_keys, linkPass_keys,
    olPass_keys, ulPass_keys, blockquotePass_keys, tablePass_keys.
  rewrite (stripPass_keys _ E). reflexivity.
Qed.

End SameKeys.

Lemma stripTags_lowered ig html : stripTags ig html = stripTags (map toLowerCase ig) html.
Proof.
  unfold stripTags. rewrite length_map.
  destruct (Nat.eqb (length ig) 0); [reflexivity|].
  rewrite map_map. rewrite (map_ext _ _ (fun x => toLowerCase_idem x)). reflexivity.
Qed.

(** C10, as the program has it.  preserveFormat compares the entries of
    ignoreTags as they are written.  The key of every membership check is a lower-cased tag name or
    a lower-case literal, so an entry [e] that is not in lower case
    ([toLowerCase e <> e], such as "BR" or "B") answers none of them, and
    the result is the same without it, as long as other entries remain (an
    empty list selects the removal of every [<...>] instead of the removal
    by name); a list of such entries only answers no check at all, and the
    result does not depend on which entries they are.  textify without
    formatting lower-cases the entries first: its result is the same for the
    entries and for their lower case, so "B" preserves there. *)
Theorem ignoreTags_case :
  (forall e ig x, toLowerCase e <> e ->
     includes (e :: ig) (toLowerCase x) = includes ig (toLowerCase x)) /\
  (forall e ig1 ig2 html, toLowerCase e <> e -> ig1 ++ ig2 <> [] ->
     preserveFormat html (ig1 ++ e :: ig2) = preserveFormat html (ig1 ++ ig2)) /\
  (forall ig x, (forall e, In e ig -> toLowerCase e <> e) ->
     includes ig (toLowerCase x) = false) /\
  (forall ig ig' html, ig <> [] -> ig' <> [] ->
     (forall e, In e ig -> toLowerCase e <> e) ->
     (forall e, In e ig' -> toLowerCase e <> e) ->
     preserveFormat html ig = preserveFormat html ig') /\
  (forall ig html, stripTags ig html = stripTags (map toLowerCase ig) html) /\
  preserveFormat (js "<B>x</B> a<br>b") [js "B"; js "BR"] = js "**x** a\nb" /\
  preserveFormat (js "<B>x</B> a<br>b") [js "b"; js "br"] = js "<B>x</B> a<br>b" /\
  textify (js "<B>x</B><i>y</i>") false [js "B"] None None = Returns (js "<B>x</B>y").
Proof.
  assert (Hnone : forall ig x, (forall e, In e ig -> toLowerCase e <> e) ->
                    includes ig (toLowerCase x) = false).
  { intros ig x Hig. unfold includes.
    destruct (existsb (text_eqb (toLowerCase x)) ig) eqn:E; [|reflexivity].
    apply existsb_exists in E. destruct E as [e [Hin He]].
    rewrite not_lower_no_key in He by (apply Hig; exact Hin). discriminate. }
  split; [|split; [|split; [|split; [|split; [|split; [|split]]]]]].
  - intros e ig x He. apply (same_keys_without [] ig He).
  - intros e ig1 ig2 html He Hne. apply preserveFormat_keys.
    + apply same_keys_without. exact He.
    + split; [intros H; destruct ig1; discriminate|intros H; contradiction].
  - exact Hnone.
  - intros ig ig' html Hne Hne' Hig Hig'. apply preserveFormat_keys.
    + intros x. rewrite (Hnone ig x Hig), (Hnone ig' x Hig'). reflexivity.
    + split; intros H; contradiction.
  - apply stripTags_lowered.
  - vm_compute. reflexivity.
  - vm_compute. reflexivity.
  - vm_compute. reflexivity.
Qed.

Lemma ignoreTags_case_witness :
  preserveFormat (js "<br><b>x</b>") ([js "b"] ++ js "BR" :: [])
  = preserveFormat (js "<br><b>x</b>") ([js "b"] ++ []).
Proof.
  apply (proj1 (proj2 ignoreTags_case) (js "BR") [js "b"] [] (js "<br><b>x</b>")).
  - vm_compute. discriminate.
  - simpl. discriminate.
Defined.

(** C10 as stated fails: an entry that is not in lower case answers no
    check, yet it is not without a preserving effect.  As the sole entry it
    makes the list non-empty, and the last removal then goes by tag name
    instead of taking every [<...>]: with "B" alone a comment stays that is
    removed with no entry at all. *)
Lemma ignoreTags_case_counterexample :
  toLowerCase (js "B") <> js "B" /\
  (forall x, includes [js "B"] (toLowerCase x) = false) /\
  preserveFormat (js "<!--c-->x") [js "B"] = js "<!--c-->x" /\
  preserveFormat (js "<!--c-->x") [] = js "x" /\
  preserveFormat (js "<!--c-->x") [js "B"] <> preserveFormat (js "<!--c-->x") [].
Proof.
  split; [vm_compute; discriminate|]. split.
  - intros x. unfold includes. cbn [existsb]. rewrite orb_false_r.
    apply not_lower_no_key. vm_compute. discriminate.
  - repeat split; try (vm_compute; reflexivity). vm_compute. discriminate.
Qed.

(** ** What an expression must read *)

Lemma same_sym fl a b : same fl a b = same fl b a.
Proof. unfold same. apply Ascii.eqb_sym. Qed.

Lemma caseless_lt : caseless "<".
Proof.
  intros [[] d] x; unfold same, canon; cbn [icase]; each_ascii x;
    try discriminate; reflexivity.
Qed.

Lemma caseless_gt : caseless ">".
Proof.
  intros [[] d] x; unfold same, canon; cbn [icase]; each_ascii x;
    try discriminate; reflexivity.
Qed.

Lemma demands_run fl c : caseless c -> forall r st st',
  demands c r = true -> In st' (run fl r st) ->
  exists pre, reads st st' pre /\ In c pre.
Proof.
  intros Hc. induction r; cbn [demands run]; intros st st' Hd H; try discriminate.
  - apply Ascii.eqb_eq in Hd. subst c0.
    apply one_reads in H. destruct H as [x [Hx [Hr _]]].
    apply Hc in Hx. subst x. exists [c]. split; [exact Hr|left; reflexivity].
  - apply in_flat_map in H. destruct H as [st1 [H1 H2]].
    apply orb_prop in Hd. destruct Hd as [Hd|Hd].
    + destruct (IHr1 _ _ Hd H1) as [p1 [R1 I1]].
      destruct (run_reads _ _ _ _ H2) as [p2 R2].
      exists (p1 ++ p2). split.
      * unfold reads in *. rewrite R1, R2, app_assoc. reflexivity.
      * apply in_or_app. left. exact I1.
    + destruct (run_reads _ _ _ _ H1) as [p1 R1].
      destruct (IHr2 _ _ Hd H2) as [p2 [R2 I2]].
      exists (p1 ++ p2). split.
      * unfold reads in *. rewrite R1, R2, app_assoc. reflexivity.
      * apply in_or_app. right. exact I2.
  - apply andb_prop in Hd. destruct Hd as [Hd1 Hd2].
    apply in_app_or in H. destruct H as [H|H]; eauto.
  - apply in_map_iff in H. destruct H as [st1 [<- H1]].
    destruct (IHr _ _ Hd H1) as [pre [R I]]. exists pre. split; assumption.
Qed.

Lemma item_avoids_has fl c it :
  caseless c -> plain_char c -> item_avoids c it = true -> item_has fl c it = false.
Proof.
  intros Hc [Hl Hu] H. destruct it as [a|lo hi|]; cbn [item_avoids item_has] in *.
  - apply negb_true_iff in H. destruct (same fl a c) eqn:E; [|reflexivity].
    apply Hc in E. subst a. rewrite Ascii.eqb_refl in H. discriminate.
  - apply negb_true_iff in H. rewrite H, Hu. cbn [orb andb].
    unfold canon. rewrite Hl. destruct (icase fl); cbn; rewrite ?H; reflexivity.
  - apply negb_true_iff in H. exact H.
Qed.

Lemma class_avoids fl c neg items x :
  caseless c -> plain_char c ->
  first_not c (Cls neg items) = true ->
  xorb neg (existsb (item_has fl x) items) = true -> x <> c.
Proof.
  intros Hc Hp Hf Hx ->. destruct neg; cbn [first_not] in Hf.
  - apply existsb_exists in Hf. destruct Hf as [it [Hin Hit]].
    destruct it as [a| |]; try discriminate. apply Ascii.eqb_eq in Hit. subst a.
    assert (E : existsb (item_has fl c) items = true).
    { apply existsb_exists. exists (ILit c). split; [exact Hin|].
      cbn. unfold same. apply Ascii.eqb_refl. }
    rewrite E in Hx. discriminate.
  - cbn [xorb] in Hx. apply existsb_exists in Hx. destruct Hx as [it [Hin Hit]].
    rewrite forallb_forall in Hf. specialize (Hf it Hin).
    rewrite (@item_avoids_has fl c it Hc Hp Hf) in Hit. discriminate.
Qed.

Section FirstNot.
Variables (fl : flags) (c : ascii).
Hypothesis Hc : caseless c.
Hypothesis Hp : plain_char c.

Lemma chr_avoids c' x : negb (Ascii.eqb c' c) = true -> same fl x c' = true -> x <> c.
Proof.
  intros Hn Hs ->. rewrite same_sym in Hs. apply Hc in Hs. subst c'.
  rewrite Ascii.eqb_refl in Hn. discriminate.
Qed.

Lemma repeat_first_not_or_empty g iter :
  (forall st st', In st' (iter st) -> rest st' = rest st \/ starts_off c st) ->
  forall n st st', In st' (repeat_from g iter n st) ->
                   rest st' = rest st \/ starts_off c st.
Proof.
  intros Hi. induction n as [|n IH]; intros st st' H.
  - destruct H as [<-|[]]. left. reflexivity.
  - cbn [repeat_from] in H.
    assert (Hm : In st' (flat_map (fun st1 =>
               if Nat.ltb (length (rest st1)) (length (rest st))
               then repeat_from g iter n st1 else []) (iter st))
             -> rest st' = rest st \/ starts_off c st).
    { intros Hin. apply in_flat_map in Hin. destruct Hin as [st1 [H1 H2]].
      destruct (Nat.ltb _ _); [|destruct H2].
      destruct (Hi _ _ H1) as [E|E]; [|right; exact E].
      destruct (IH _ _ H2) as [E2|[y [t [E2 Hy]]]].
      - left. congruence.
      - right. exists y, t. split; [congruence|exact Hy]. }
    destruct g.
    + apply in_app_or in H. destruct H as [H|[<-|[]]]; auto.
    + destruct H as [<-|H]; auto.
Qed.

Lemma first_not_or_empty_run : forall r st st',
  first_not_or_empty c r = true -> In st' (run fl r st) ->
  rest st' = rest st \/ starts_off c st.
Proof.
  induction r; cbn [first_not_or_empty run]; intros st st' Hf H; try discriminate.
  - destruct H as [<-|[]]. left. reflexivity.
  - apply one_reads in H. destruct H as [x [Hx [Hr _]]].
    right. exists x, (rest st'). split; [exact Hr|]. eapply chr_avoids; eassumption.
  - apply one_reads in H. destruct H as [x [Hx [Hr _]]].
    right. exists x, (rest st'). split; [exact Hr|].
    eapply class_avoids with (neg := neg) (items := items); eassumption.
  - apply andb_prop in Hf. destruct Hf as [Hf1 Hf2].
    apply in_flat_map in H. destruct H as [st1 [H1 H2]].
    destruct (IHr1 _ _ Hf1 H1) as [E|E]; [|right; exact E].
    destruct (IHr2 _ _ Hf2 H2) as [E2|[y [t [E2 Hy]]]].
    + left. congruence.
    + right. exists y, t. split; [congruence|exact Hy].
  - apply andb_prop in Hf. destruct Hf as [Hf1 Hf2].
    apply in_app_or in H. destruct H; eauto.
  - revert H. apply repeat_first_not_or_empty. intros s1 s2. apply IHr. exact Hf.
  - apply in_map_iff in H. destruct H as [st1 [<- H1]].
    apply (IHr _ _ Hf H1).
  - destruct (xorb _ _); [|destruct H]. destruct H as [<-|[]]. left. reflexivity.
  - destruct (rest st) eqn:E; [|destruct H]. destruct H as [<-|[]]. left. congruence.
Qed.

Lemma first_not_run : forall r st st',
  first_not c r = true -> In st' (run fl r st) -> starts_off c st.
Proof.
  induction r; cbn [first_not run]; intros st st' Hf H; try discriminate.
  - apply one_reads in H. destruct H as [x [Hx [Hr _]]].
    exists x, (rest st'). split; [exact Hr|]. eapply chr_avoids; eassumption.
  - apply one_reads in H. destruct H as [x [Hx [Hr _]]].
    exists x, (rest st'). split; [exact Hr|].
    eapply class_avoids with (neg := neg) (items := items); eassumption.
  - apply in_flat_map in H. destruct H as [st1 [H1 H2]].
    apply orb_prop in Hf. destruct Hf as [Hf|Hf].
    + apply (IHr1 _ _ Hf H1).
    + apply andb_prop in Hf. destruct Hf as [Hf1 Hf2].
      destruct (first_not_or_empty_run _ _ _ Hf1 H1) as [E|E]; [|exact E].
      destruct (IHr2 _ _ Hf2 H2) as [y [t [E2 Hy]]].
      exists y, t. split; [congruence|exact Hy].
  - apply andb_prop in Hf. destruct Hf as [Hf1 Hf2].
    apply in_app_or in H. destruct H; eauto.
  - apply in_map_iff in H. destruct H as [st1 [<- H1]].
    apply (IHr _ _ Hf H1).
Qed.

End FirstNot.

Lemma heads_run fl c : caseless c -> forall r st st',
  heads c r = true -> In st' (run fl r st) -> exists t, rest st = c :: t.
Proof.
  intros Hc. induction r; cbn [heads run]; intros st st' Hh H; try discriminate.
  - apply Ascii.eqb_eq in Hh. subst c0.
    apply one_reads in H. destruct H as [x [Hx [Hr _]]].
    apply Hc in Hx. subst x. eexists. exact Hr.
  - apply in_flat_map in H. destruct H as [st1 [H1 _]]. eauto.
  - apply andb_prop in Hh. destruct Hh as [H1 H2].
    apply in_app_or in H. destruct H; eauto.
  - apply in_map_iff in H. destruct H as [st1 [<- H1]]. eauto.
Qed.

Lemma heads_miss fl c r p x s :
  caseless c -> heads c r = true -> x <> c -> match_here fl r p (x :: s) = None.
Proof.
  intros Hc Hh Hx. unfold match_here.
  pose proof (@heads_run fl c Hc r (start p (x :: s))) as H.
  destruct (run fl r (start p (x :: s))) as [|st' l]; [reflexivity|].
  destruct (H st' Hh (or_introl eq_refl)) as [t Ht]. simpl in Ht. congruence.
Qed.

Lemma heads_miss_nil fl c r p :
  caseless c -> heads c r = true -> match_here fl r p [] = None.
Proof.
  intros Hc Hh. unfold match_here.
  pose proof (@heads_run fl c Hc r (start p [])) as H.
  destruct (run fl r (start p [])) as [|st' l]; [reflexivity|].
  destruct (H st' Hh (or_introl eq_refl)) as [t Ht]. simpl in Ht. discriminate.
Qed.

(** ** C9: text without tags *)

Lemma plain_gt : plain_char ">".
Proof. split; reflexivity. Qed.

Lemma flat_map_flat_map (f g : mstate -> list mstate) l :
  flat_map g (flat_map f l) = flat_map (fun x => flat_map g (f x)) l.
Proof.
  induction l as [|x l IH]; cbn [flat_map]; [reflexivity|].
  rewrite flat_map_app, IH. reflexivity.
Qed.

Lemma run_seq_assoc fl a b c st :
  run fl (Seq (Seq a b) c) st = run fl (Seq a (Seq b c)) st.
Proof. cbn [run]. apply flat_map_flat_map. Qed.

Lemma in_existsb_eqb c t : In c t <-> existsb (Ascii.eqb c) t = true.
Proof.
  rewrite existsb_exists. split.
  - intros H. exists c. split; [exact H|apply Ascii.eqb_refl].
  - intros [x [H E]]. apply Ascii.eqb_eq in E. subst x. exact H.
Qed.

Lemma opens_chr fl r' p s st' :
  first_not ">" r' = true -> demands ">" r' = true ->
  In st' (run fl (Seq (Chr "<") r') (start p s)) -> tagAt s = true.
Proof.
  intros Hf Hd H. destruct s as [|x xs]; [destruct H|].
  unfold start in H. rewrite run_seq_chr in H.
  destruct (same fl x "<") eqn:Ex; [|destruct H].
  apply caseless_lt in Ex. subst x.
  destruct (@first_not_run fl ">" caseless_gt plain_gt r' _ _ Hf H) as [y [t [E Hy]]].
  destruct (@demands_run fl ">" caseless_gt r' _ _ Hd H) as [pre [R I]].
  unfold reads in R. cbn [rest] in E, R. subst xs.
  destruct pre as [|y' pre]; [destruct I|].
  injection R as <- R. destruct I as [I|I]; [congruence|].
  cbn [tagAt]. apply andb_true_intro. split.
  - apply negb_true_iff. apply Ascii.eqb_neq. exact Hy.
  - apply in_existsb_eqb. rewrite R. apply in_or_app. left. exact I.
Qed.

Lemma opens_here fl r p s :
  opens r = true -> match_here fl r p s <> None -> tagAt s = true.
Proof.
  intros Ho Hm. unfold match_here in Hm.
  destruct (run fl r (start p s)) as [|st' l] eqn:E; [congruence|].
  assert (Hin : In st' (run fl r (start p s))) by (rewrite E; left; reflexivity).
  clear E Hm. destruct r; try discriminate.
  destruct r1; try discriminate.
  - cbn [opens] in Ho. apply andb_prop in Ho. destruct Ho as [Ho Hd].
    apply andb_prop in Ho. destruct Ho as [Hc Hf].
    apply Ascii.eqb_eq in Hc. subst c. eapply opens_chr; eassumption.
  - destruct r1_1; try discriminate.
    cbn [opens] in Ho. apply andb_prop in Ho. destruct Ho as [Ho Hd].
    apply andb_prop in Ho. destruct Ho as [Hc Hf].
    apply Ascii.eqb_eq in Hc. subst c. rewrite run_seq_assoc in Hin.
    eapply opens_chr; eassumption.
Qed.

Lemma hasTag_false_cons c s : hasTag (c :: s) = false -> hasTag s = false.
Proof. cbn [hasTag]. intros H. apply orb_false_elim in H. tauto. Qed.

Lemma hasTag_false_here s : hasTag s = false -> tagAt s = false.
Proof. destruct s; cbn [hasTag]; intros H; apply orb_false_elim in H; tauto. Qed.

(** An expression that matches tags finds nothing in a text without tags. *)
Lemma opens_exec_none fl r : opens r = true -> forall s p,
  hasTag s = false -> exec fl r p s = None.
Proof.
  intros Ho. induction s as [|c s IH]; intros p Hn.
  - apply exec_end. destruct (match_here fl r p []) eqn:E; [|reflexivity].
    assert (Hm : match_here fl r p [] <> None) by congruence.
    apply (opens_here _ _ _ _ Ho) in Hm. discriminate.
  - assert (E : match_here fl r p (c :: s) = None).
    { destruct (match_here fl r p (c :: s)) eqn:E; [|reflexivity].
      assert (Hm : match_here fl r p (c :: s) <> None) by congruence.
      apply (opens_here _ _ _ _ Ho) in Hm.
      rewrite (hasTag_false_here _ Hn) in Hm. discriminate. }
    rewrite exec_miss by exact E.
    rewrite IH by (eapply hasTag_false_cons; exact Hn). reflexivity.
Qed.

Lemma opens_replace fl r cb s :
  opens r = true -> hasTag s = false -> replaceAll fl r cb s = s.
Proof. intros Ho Hn. apply replaceAll_none. apply opens_exec_none; assumption. Qed.

(** The passes between the normalization and the decoding leave a text
    without tags as it is. *)
Lemma tag_passes_id ig s :
  hasTag s = false ->
  stripPass ig (tablePass ig (blockquotePass ig (ulPass ig (olPass ig (linkPass ig
    (italicPass ig (boldPass ig (closePass ig (brPass ig s))))))))) = s.
Proof.
  intros Hn.
  assert (E1 : brPass ig s = s).
  { unfold brPass, brToNewline.
    destruct (negb _); [apply opens_replace; [reflexivity|exact Hn]|reflexivity]. }
  rewrite E1.
  assert (E2 : closePass ig s = s) by (apply opens_replace; [reflexivity|exact Hn]).
  rewrite E2.
  assert (E3 : boldPass ig s = s) by (apply opens_replace; [reflexivity|exact Hn]).
  rewrite E3.
  assert (E4 : italicPass ig s = s) by (apply opens_replace; [reflexivity|exact Hn]).
  rewrite E4.
  assert (E5 : linkPass ig s = s).
  { unfold linkPass.
    destruct (negb _); [apply opens_replace; [reflexivity|exact Hn]|reflexivity]. }
  rewrite E5.
  assert (E6 : olPass ig s = s) by (apply opens_replace; [reflexivity|exact Hn]).
  rewrite E6.
  assert (E7 : ulPass ig s = s) by (apply opens_replace; [reflexivity|exact Hn]).
  rewrite E7.
  assert (E8 : blockquotePass ig s = s).
  { unfold blockquotePass.
    destruct (negb _); [apply opens_replace; [reflexivity|exact Hn]|reflexivity]. }
  rewrite E8.
  assert (E9 : tablePass ig s = s) by (apply opens_replace; [reflexivity|exact Hn]).
  rewrite E9.
  unfold stripPass.
  destruct (Nat.eqb _ _); apply opens_replace; try reflexivity; exact Hn.
Qed.

Lemma P_not_gt_spec x : P_not_gt f_g x = negb (Ascii.eqb x ">").
Proof.
  unfold P_not_gt. cbn. rewrite orb_false_r. unfold same. cbn.
  rewrite Ascii.eqb_sym. reflexivity.
Qed.

Lemma dropWhile_until P c t :
  P c = false -> (forall x, x <> c -> P x = true) -> In c t ->
  exists u, dropWhile P t = c :: u.
Proof.
  intros Hc Hx. induction t as [|y t IH]; [intros []|].
  intros Hin. cbn [dropWhile]. destruct (ascii_dec y c) as [->|Hne].
  - rewrite Hc. eexists. reflexivity.
  - rewrite (Hx _ Hne). apply IH. destruct Hin; [congruence|assumption].
Qed.

Lemma tagAt_inv s :
  tagAt s = true ->
  exists y t, s = "<" :: y :: t /\ Ascii.eqb y ">" = false /\ In ">" t.
Proof.
  intros Ht. destruct s as [|x s]; [discriminate|].
  each_ascii x; try discriminate.
  destruct s as [|y t]; [discriminate|].
  cbn [tagAt] in Ht. apply andb_prop in Ht. destruct Ht as [Hy Hin].
  apply negb_true_iff in Hy. apply in_existsb_eqb in Hin.
  exists y, t. auto.
Qed.

Lemma any_tag_here p s : tagAt s = true -> match_here f_g re_any_tag p s <> None.
Proof.
  intros Ht. apply tagAt_inv in Ht. destruct Ht as [y [t [-> [Hy Hin]]]].
  apply negb_true_iff in Hy.
  unfold match_here, start, re_any_tag, seq, plus. cbn [fold_right].
  rewrite run_seq_chr. change (same f_g "<" "<") with true. cbv iota.
  rewrite run_seq.
  rewrite run_seq_one with (P := P_not_gt f_g) by reflexivity.
  rewrite P_not_gt_spec, Hy.
  rewrite run_star. change (run f_g (Cls true [ILit ">"])) with (one (P_not_gt f_g)).
  rewrite repeat_greedy_one by (cbn [rest]; lia).
  destruct (walk_greedy_head (P_not_gt f_g) [] t (Some y)) as [l Hl]. rewrite Hl.
  destruct (@dropWhile_until (P_not_gt f_g) ">" t) as [u Hu].
  - reflexivity.
  - intros c Hc. rewrite P_not_gt_spec. apply negb_true_iff, Ascii.eqb_neq, Hc.
  - exact Hin.
  - rewrite Hu. cbn [flat_map]. rewrite run_seq_chr.
    change (same f_g ">" ">") with true. cbv iota. cbn [run app]. discriminate.
Qed.




Lemma repeat_spaces fl : forall n st st',
  In st' (repeat_from true (run fl ws) n st) ->
  exists w, reads st st' w /\ forallb isSpace w = true.
Proof.
  induction n as [|n IH]; intros st st' H.
  - destruct H as [<-|[]]. exists []. split; reflexivity.
  - cbn [repeat_from] in H. apply in_app_or in H. destruct H as [H|[<-|[]]].
    + apply in_flat_map in H. destruct H as [st1 [H1 H2]].
      destruct (Nat.ltb _ _); [|destruct H2].
      apply one_reads in H1. destruct H1 as [x [Hx [Hr _]]].
      destruct (IH _ _ H2) as [w [Rw Fw]].
      exists (x :: w). split.
      * unfold reads in *. rewrite Hr, Rw. reflexivity.
      * cbn [forallb]. rewrite Fw. change (P_ws fl x = true) in Hx.
        rewrite P_ws_space in Hx. rewrite Hx. reflexivity.
    + exists []. split; reflexivity.
Qed.

Lemma gap_here p s mt st' :
  match_here f_g re_gap p s = Some (mt, st') ->
  exists w, forallb isSpace w = true /\ whole mt = ">" :: w ++ ["<"].
Proof.
  intros H. apply match_here_splits in H. destruct H as [Hs [Hin _]].
  unfold re_gap, seq, plus in Hin. cbn [fold_right] in Hin.
  destruct s as [|x xs]; [destruct Hin|].
  unfold start in Hin. rewrite run_seq_chr in Hin.
  destruct (same f_g x ">") eqn:Ex; [|destruct Hin].
  apply caseless_gt in Ex. subst x.
  rewrite run_seq in Hin. apply in_flat_map in Hin. destruct Hin as [st2 [H2 H3]].
  rewrite run_seq in H2. apply in_flat_map in H2. destruct H2 as [st1 [H1 H2]].
  apply one_reads in H1. destruct H1 as [y [Hy [R1 _]]].
  change (P_ws f_g y = true) in Hy. rewrite P_ws_space in Hy.
  rewrite run_star in H2. apply repeat_spaces in H2. destruct H2 as [w [R2 Fw]].
  rewrite run_seq in H3. apply in_flat_map in H3. destruct H3 as [st3 [H3 H4]].
  apply one_reads in H3. destruct H3 as [z [Hz [R3 _]]].
  apply caseless_lt in Hz. subst z.
  destruct H4 as [<-|[]].
  exists (y :: w). split; [cbn [forallb]; rewrite Hy, Fw; reflexivity|].
  unfold reads in *. cbn [rest] in R1.
  assert (E : ">" :: xs = (">" :: (y :: w) ++ ["<"]) ++ rest st3).
  { rewrite R1, R2, R3. cbn [app]. rewrite <- app_assoc. reflexivity. }
  rewrite Hs in E. apply app_inv_tail in E. exact E.
Qed.

Lemma normalizeGaps_squeezed : forall n s, length s <= n -> forall p,
  squeezed s (replace_from f_g re_gap (fun (_ : unit) _ => (js "><", tt)) tt p s).
Proof.
  induction n as [|n IH]; intros s Hn p.
  - destruct s; [|simpl in Hn; lia].
    rewrite replace_from_end; [constructor|].
    apply heads_miss_nil with (c := ">"%char); [apply caseless_gt|reflexivity].
  - destruct (match_here f_g re_gap p s) as [[mt st']|] eqn:E.
    + destruct (gap_here _ _ E) as [w [Fw Hw]].
      rewrite replace_from_hit with (mt := mt) (st' := st') (w := ">"%char)
        (ws := w ++ ["<"]) by assumption.
      cbn [fst snd]. apply match_here_splits in E. destruct E as [Hs _].
      rewrite Hs at 1. rewrite Hw. cbn [app]. rewrite <- app_assoc. cbn [app].
      change (js "><") with [">"; "<"]. cbn [app].
      apply sq_gap; [exact Fw|]. apply IH.
      apply (f_equal (@length ascii)) in Hs. rewrite Hw, length_app in Hs.
      cbn [length] in Hs. lia.
    + destruct s as [|c s].
      * rewrite replace_from_end by exact E. constructor.
      * rewrite replace_from_miss by exact E. apply sq_keep. apply IH.
        simpl in Hn. lia.
Qed.







Lemma normalizeGaps_plain s : ~ In "<"%char s -> normalizeGaps s = s.
Proof.
  intros Hn. apply replaceAll_none.
  destruct (exec f_g re_gap None s) as [[[b mt] st']|] eqn:E; [|reflexivity].
  exfalso. pose proof (exec_splits _ _ _ _ E) as Hs.
  assert (Hm : exists p s0, match_here f_g re_gap p s0 = Some (mt, st')).
  { clear Hs Hn. revert b E. generalize (@None ascii) as p.
    induction s as [|c s IH]; intros p b E; cbn [exec] in E.
    - destruct (match_here f_g re_gap p []) as [[m1 s1]|] eqn:E1; [|discriminate].
      injection E as _ <- <-. eauto.
    - destruct (match_here f_g re_gap p (c :: s)) as [[m1 s1]|] eqn:E1.
      + injection E as _ <- <-. eauto.
      + destruct (exec f_g re_gap (Some c) s) as [[[b1 m1] s1]|] eqn:E2; [|discriminate].
        injection E as _ <- <-. eapply IH. exact E2. }
  destruct Hm as [p [s0 Hm]]. destruct (gap_here _ _ Hm) as [w [_ Hw]].
  apply Hn. rewrite Hs, Hw. apply in_or_app. right. apply in_or_app. left.
  right. apply in_or_app. right. left. reflexivity.
Qed.




(** ** Blocks: an opening tag, a lazy content and a closing tag *)

Lemma run_lit fl pat : forall st, run fl (seq (map Chr pat)) st = again fl pat st.
Proof.
  induction pat as [|a pat IH]; intros st; [reflexivity|].
  cbn [map seq fold_right again]. fold (seq (map Chr pat)).
  rewrite run_seq. cbn [run]. unfold one.
  destruct (rest st) as [|x xs]; [reflexivity|].
  destruct (same fl x a); [|reflexivity].
  cbn [flat_map]. rewrite app_nil_r. apply IH.
Qed.

Lemma again_fails fl pat : forall st,
  starts_with fl pat (rest st) = false -> again fl pat st = [].
Proof.
  induction pat as [|a pat IH]; intros st H; [discriminate|].
  cbn [again starts_with] in *. destruct (rest st) as [|x xs]; [reflexivity|].
  destruct (same fl x a); [|reflexivity]. apply IH. exact H.
Qed.

Lemma same_refl fl x : same fl x x = true.
Proof. unfold same. apply Ascii.eqb_refl. Qed.

(** The pattern reads itself. *)
Lemma again_self fl pat : forall s p cs,
  exists q, again fl pat {| rest := pat ++ s; prev := p; caps := cs |}
            = [{| rest := s; prev := q; caps := cs |}].
Proof.
  induction pat as [|a pat IH]; intros s p cs.
  - exists p. reflexivity.
  - cbn [again app rest]. rewrite same_refl. unfold step. cbn [caps]. apply IH.
Qed.

Lemma clear_then_app fl close P s a : forall b,
  clear_then fl close P (b ++ s) a -> clear_then fl close P s b ->
  clear_then fl close P s (a ++ b).
Proof.
  induction a as [|c a IH]; intros b Ha Hb; [exact Hb|].
  cbn [app clear_then] in *. destruct Ha as [Hp [Hs Ha]].
  rewrite <- app_assoc. repeat split; auto.
Qed.

Lemma same_lt_false fl x : x <> "<"%char -> same fl x "<" = false.
Proof.
  intros H. destruct (same fl x "<") eqn:E; [|reflexivity].
  apply caseless_lt in E. contradiction.
Qed.

(** A text without [<] is clear of any closing tag. *)
Lemma clear_then_plain fl close P s x :
  ~ In "<"%char x -> forallb P x = true ->
  clear_then fl ("<"%char :: close) P s x.
Proof.
  induction x as [|c x IH]; intros Hn Hp; [exact I|].
  cbn [forallb] in Hp. apply andb_prop in Hp. destruct Hp as [Hc Hp].
  cbn [clear_then]. split; [exact Hc|]. split.
  - cbn [starts_with]. rewrite same_lt_false; [reflexivity|].
    intros ->. apply Hn. left. reflexivity.
  - apply IH; [|exact Hp]. intros H. apply Hn. right. exact H.
Qed.

Section Lazy.
Variables (fl : flags) (close : text) (P : ascii -> bool).
Variable F : mstate -> list mstate.
Hypothesis F_fails : forall st, starts_with fl close (rest st) = false -> F st = [].

Lemma lazy_find cs s : forall content p,
  clear_then fl close P s content ->
  exists q, flat_map F (walk_lazy P cs p (content ++ s))
            = flat_map F (walk_lazy P cs q s).
Proof.
  induction content as [|c content IH]; intros p H.
  - exists p. reflexivity.
  - cbn [clear_then] in H. destruct H as [Hp [Hs H]].
    cbn [app walk_lazy]. rewrite Hp. cbn [flat_map].
    rewrite F_fails by exact Hs. cbn [app]. apply IH. exact H.
Qed.

End Lazy.

Lemma walk_lazy_first P cs p s :
  exists l, walk_lazy P cs p s = {| rest := s; prev := p; caps := cs |} :: l.
Proof. destruct s; eexists; reflexivity. Qed.

(** The match of a block at the start of a text: the content runs to the
    first closing tag. *)
Lemma block_here fl open close content tail p :
  close <> [] ->
  clear_then fl close (P_dot fl) (close ++ tail) content ->
  exists mt st',
    match_here fl (block_re open close) p (open ++ content ++ close ++ tail)
    = Some (mt, st') /\
    whole mt = open ++ content ++ close /\
    group 1 mt = content /\
    rest st' = tail.
Proof.
  intros Hne Hclear.
  assert (Hrun : exists q l,
             run fl (block_re open close) (start p (open ++ content ++ close ++ tail))
             = {| rest := tail; prev := q; caps := [(1, content)] |} :: l).
  { unfold block_re, seq at 1. cbn [fold_right].
    rewrite run_seq, run_lit. unfold start.
    destruct (again_self fl open (content ++ close ++ tail) p []) as [q1 E1].
    rewrite E1. cbn [flat_map]. rewrite app_nil_r.
    rewrite run_seq. unfold lazy. rewrite run_grp, run_star.
    change (run fl Dot) with (one (P_dot fl)).
    rewrite repeat_lazy_one by (cbn [rest]; lia).
    set (st1 := {| rest := content ++ close ++ tail; prev := q1; caps := [] |}).
    set (F := fun st => run fl (Seq (seq (map Chr close)) Eps) (set_cap 1 st1 st)).
    assert (EF : forall l, flat_map (run fl (Seq (seq (map Chr close)) Eps))
                             (map (set_cap 1 st1) l) = flat_map F l).
    { intros l. rewrite flat_map_concat_map, map_map, <- flat_map_concat_map.
      reflexivity. }
    rewrite EF.
    assert (HF : forall st, starts_with fl close (rest st) = false -> F st = []).
    { intros st H. unfold F. rewrite run_seq, run_lit.
      rewrite again_fails by exact H. reflexivity. }
    destruct (@lazy_find fl close (P_dot fl) F HF [] (close ++ tail) content q1 Hclear)
      as [q2 E2].
    rewrite E2.
    destruct (walk_lazy_first (P_dot fl) [] q2 (close ++ tail)) as [l2 E3].
    rewrite E3. cbn [flat_map]. unfold F at 1. rewrite run_seq, run_lit.
    unfold set_cap at 1. cbn [rest prev caps].
    destruct (again_self fl close tail q2
                [(1, consumed st1 {| rest := close ++ tail; prev := q2; caps := [] |})])
      as [q3 E4].
    rewrite E4. cbn [flat_map run app].
    rewrite (@consumed_reads st1 _ content) by reflexivity.
    eexists _, _. reflexivity. }
  destruct Hrun as [q [l Hrun]].
  unfold match_here. rewrite Hrun.
  eexists _, _. split; [reflexivity|]. cbn [whole groups rest].
  split; [|split; reflexivity].
  rewrite (@consumed_reads _ _ (open ++ content ++ close)); [reflexivity|].
  unfold reads, start. cbn [rest]. rewrite <- !app_assoc. reflexivity.
Qed.

(** Through a text without [<], an expression that starts with [<] finds
    nothing. *)
Lemma replace_from_plain A fl r (cb : A -> rmatch -> text * A) a :
  heads "<" r = true ->
  forall t p s, ~ In "<"%char t ->
    exists q, replace_from fl r cb a p (t ++ s) = t ++ replace_from fl r cb a q s.
Proof.
  intros Hh. induction t as [|c t IH]; intros p s Hn.
  - exists p. reflexivity.
  - cbn [app]. rewrite replace_from_miss.
    + destruct (IH (Some c) s) as [q E].
      * intros H. apply Hn. right. exact H.
      * exists q. rewrite E. reflexivity.
    + apply heads_miss with (c := "<"%char); [apply caseless_lt|exact Hh|].
      intros ->. apply Hn. left. reflexivity.
Qed.

Lemma replace_from_plain_end A fl r (cb : A -> rmatch -> text * A) a t p :
  heads "<" r = true -> ~ In "<"%char t -> replace_from fl r cb a p t = t.
Proof.
  intros Hh Hn.
  destruct (@replace_from_plain A fl r cb a Hh t p [] Hn) as [q E].
  rewrite app_nil_r in E. rewrite E.
  rewrite replace_from_end; [apply app_nil_r|].
  apply heads_miss_nil with (c := "<"%char); [apply caseless_lt|exact Hh].
Qed.

(** ** C7: ordered lists *)

Lemma forallb_const_true (x : text) : forallb (fun _ => true) x = true.
Proof. induction x; simpl; auto. Qed.

Lemma re_li_block : re_li = block_re (js "<li>") (js "</li>").
Proof. reflexivity. Qed.


Lemma li_here x tail p :
  plain_item x ->
  exists mt st',
    match_here f_gi re_li p (js "<li>" ++ x ++ js "</li>" ++ tail) = Some (mt, st') /\
    whole mt = js "<li>" ++ x ++ js "</li>" /\ group 1 mt = x /\ rest st' = tail.
Proof.
  intros [Hn Hl]. rewrite re_li_block. apply block_here; [discriminate|].
  apply clear_then_plain; [exact Hn|exact Hl].
Qed.








(** ** C8: blockquotes *)

Lemma caseless_slash : caseless "/".
Proof.
  intros [[] d] x; unfold same, canon; cbn [icase]; each_ascii x;
    try discriminate; reflexivity.
Qed.

Lemma re_blockquote_block :
  re_blockquote = block_re (js "<blockquote>") (js "</blockquote>").
Proof. reflexivity. Qed.

(** ** C5: textify without formatting *)

Lemma walk_greedy_all P cs b : stops P b -> forall a p,
  forallb P a = true ->
  exists l, walk_greedy P cs p (a ++ b)
            = {| rest := b; prev := last_of p a; caps := cs |} :: l.
Proof.
  intros Hb. induction a as [|c a IH]; intros p Ha.
  - cbn [app]. destruct b as [|x b]; [exists []; reflexivity|].
    cbn [walk_greedy]. cbn [stops] in Hb. rewrite Hb. exists []. reflexivity.
  - cbn [forallb] in Ha. apply andb_prop in Ha. destruct Ha as [Hc Ha].
    cbn [app walk_greedy]. rewrite Hc. destruct (IH (Some c) Ha) as [l Hl].
    rewrite Hl, last_of_cons. eexists. reflexivity.
Qed.

Lemma P_not_gt_any fl x : P_not_gt fl x = negb (Ascii.eqb x ">").
Proof. destruct fl as [[] d]; each_ascii x; reflexivity. Qed.

Lemma P_letter_spec x : P_letter f_gi x = isLetter x.
Proof. each_ascii x; reflexivity. Qed.

Lemma P_name_spec x : P_name f_gi x = isNameChar x.
Proof. each_ascii x; reflexivity. Qed.

Lemma forallb_ext (P Q : ascii -> bool) l :
  (forall x, P x = Q x) -> forallb P l = forallb Q l.
Proof. intros H. induction l as [|x l IH]; simpl; [|rewrite H, IH]; reflexivity. Qed.

Lemma nameChar_not_gt x : isNameChar x = true -> negb (Ascii.eqb x ">") = true.
Proof. each_ascii x; try discriminate; reflexivity. Qed.

Lemma letter_not_slash x : isLetter x = true -> same f_gi x "/" = false.
Proof. each_ascii x; try discriminate; reflexivity. Qed.

Lemma letter_nameChar x : isLetter x = true -> isNameChar x = true.
Proof. unfold isNameChar. intros ->. reflexivity. Qed.

(** The end of a tag: [>] after a run without [>]. *)
Lemma tag_end fl attrs tail p cs :
  forallb (fun c => negb (Ascii.eqb c ">")) attrs = true ->
  exists q l,
    run fl (seq [star (Cls true [ILit ">"]); Chr ">"])
      {| rest := attrs ++ js ">" ++ tail; prev := p; caps := cs |}
    = {| rest := tail; prev := q; caps := cs |} :: l.
Proof.
  intros Ha. unfold seq, star. cbn [fold_right].
  rewrite run_seq, run_star. change (run fl (Cls true [ILit ">"])) with (one (P_not_gt fl)).
  rewrite repeat_greedy_one by (cbn [rest]; lia).
  destruct (@walk_greedy_all (P_not_gt fl) cs (js ">" ++ tail)) with (a := attrs) (p := p)
    as [l Hl].
  - change (P_not_gt fl ">" = false). rewrite P_not_gt_any. reflexivity.
  - rewrite (@forallb_ext _ _ attrs (P_not_gt_any fl)). exact Ha.
  - rewrite Hl. cbn [flat_map]. change (js ">" ++ tail) with (">"%char :: tail).
    rewrite run_seq_chr, same_refl. cbn [run app]. eexists _, _. reflexivity.
Qed.

(** [/<[^>]+>/] at a tag. *)
Lemma any_tag_at closing name attrs tail p :
  name_ok name = true -> attrs_ok attrs = true ->
  exists mt st',
    match_here f_g re_any_tag p (tagText closing name attrs ++ tail) = Some (mt, st') /\
    whole mt = tagText closing name attrs /\ rest st' = tail.
Proof.
  intros Hn Ha.
  assert (Hinner : exists i0 inner,
             (if closing then js "/" else []) ++ name ++ attrs = i0 :: inner /\
             forallb (fun c => negb (Ascii.eqb c ">")) (i0 :: inner) = true).
  { unfold name_ok in Hn. destruct name as [|n0 n']; [discriminate|].
    apply andb_prop in Hn. destruct Hn as [Hn _].
    apply andb_prop in Hn. destruct Hn as [H0 Hn'].
    unfold attrs_ok in Ha. apply andb_prop in Ha. destruct Ha as [Ha _].
    assert (Hname : forallb (fun c => negb (Ascii.eqb c ">")) ((n0 :: n') ++ attrs) = true).
    { rewrite forallb_app. rewrite Ha, andb_true_r. cbn [forallb].
      rewrite (nameChar_not_gt _ (letter_nameChar _ H0)). cbn [andb].
      apply forallb_forall. intros x Hx. apply nameChar_not_gt.
      rewrite forallb_forall in Hn'. apply Hn'. exact Hx. }
    destruct closing.
    - exists "/"%char, ((n0 :: n') ++ attrs). split; [reflexivity|].
      cbn [forallb]. rewrite Hname. reflexivity.
    - exists n0, (n' ++ attrs). split; [reflexivity|exact Hname]. }
  destruct Hinner as [i0 [inner [Ei Hi]]].
  assert (Et : tagText closing name attrs ++ tail = "<"%char :: i0 :: inner ++ js ">" ++ tail).
  { replace (tagText closing name attrs)
      with (js "<" ++ ((if closing then js "/" else []) ++ name ++ attrs) ++ js ">")
      by (unfold tagText; rewrite <- !app_assoc; reflexivity).
    rewrite Ei. change (js "<") with ["<"%char].
    cbn [app]. rewrite <- app_assoc. reflexivity. }
  assert (Hrun : exists q l,
             run f_g re_any_tag (start p (tagText closing name attrs ++ tail))
             = {| rest := tail; prev := q; caps := [] |} :: l).
  { rewrite Et. unfold start, re_any_tag, seq at 1, plus. cbn [fold_right].
    rewrite run_seq_chr. change (same f_g "<" "<") with true. cbv iota.
    rewrite run_seq_assoc.
    rewrite run_seq_one with (P := P_not_gt f_g) by reflexivity.
    cbn [forallb] in Hi. apply andb_prop in Hi. destruct Hi as [H0 Hi].
    rewrite P_not_gt_any, H0.
    apply (tag_end f_g inner tail (Some i0) [] Hi). }
  destruct Hrun as [q [l Hrun]].
  pose proof (@match_here_splits f_g re_any_tag p (tagText closing name attrs ++ tail)) as Hs.
  unfold match_here in *. rewrite Hrun in *.
  eexists _, _. split; [reflexivity|]. cbn [whole rest]. split; [|reflexivity].
  specialize (Hs _ _ eq_refl). destruct Hs as [Hs _]. cbn [whole rest] in Hs.
  apply app_inv_tail in Hs. symmetry. exact Hs.
Qed.

Lemma re_strip_tag_parts :
  re_strip_tag = Seq (Chr "<") (Seq (opt (Chr "/")) re_name_on).
Proof. reflexivity. Qed.

Lemma attrs_stop_name attrs tail :
  attrs_ok attrs = true -> stops (P_name f_gi) (attrs ++ js ">" ++ tail).
Proof.
  intros Ha. unfold attrs_ok in Ha. apply andb_prop in Ha. destruct Ha as [_ Ha].
  destruct attrs as [|a attrs]; [reflexivity|].
  apply andb_prop in Ha. destruct Ha as [Ha _]. apply negb_true_iff in Ha.
  cbn [app stops]. rewrite P_name_spec. exact Ha.
Qed.

Lemma attrs_not_word attrs tail :
  attrs_ok attrs = true -> word_at (hd_error (attrs ++ js ">" ++ tail)) = false.
Proof.
  intros Ha. unfold attrs_ok in Ha. apply andb_prop in Ha. destruct Ha as [_ Ha].
  destruct attrs as [|a attrs]; [reflexivity|].
  apply andb_prop in Ha. destruct Ha as [_ Ha]. apply negb_true_iff in Ha.
  exact Ha.
Qed.

(** The name of a tag and what follows it, for the expression of textify. *)
Lemma name_on_here name attrs tail p :
  name_ok name = true -> attrs_ok attrs = true ->
  exists q l,
    run f_gi re_name_on {| rest := name ++ attrs ++ js ">" ++ tail; prev := p; caps := [] |}
    = {| rest := tail; prev := q; caps := [(1, name)] |} :: l.
Proof.
  intros Hn Ha. unfold name_ok in Hn. destruct name as [|n0 n']; [discriminate|].
  apply andb_prop in Hn. destruct Hn as [Hn Hlast].
  apply andb_prop in Hn. destruct Hn as [H0 Hn'].
  rewrite last_of_cons in Hlast.
  unfold re_name_on, seq at 1. cbn [fold_right].
  rewrite run_seq, run_grp. cbn [app].
  rewrite run_seq_one with (P := P_letter f_gi) by reflexivity.
  rewrite P_letter_spec, H0. unfold star. rewrite run_star.
  change (run f_gi (Cls false [IRange "a" "z"; IRange "0" "9"; ILit "-"]))
    with (one (P_name f_gi)).
  rewrite repeat_greedy_one by (cbn [rest]; lia).
  destruct (@walk_greedy_all (P_name f_gi) [] (attrs ++ js ">" ++ tail)
              (attrs_stop_name attrs tail Ha) n' (Some n0)) as [l1 Hl1].
  { rewrite (@forallb_ext _ _ n' P_name_spec). exact Hn'. }
  rewrite Hl1. cbn [map flat_map].
  unfold set_cap at 1. cbn [rest prev caps].
  rewrite (@consumed_reads _ _ (n0 :: n')) by reflexivity.
  rewrite run_seq, run_wordb.
  cbn [prev rest]. rewrite (attrs_not_word attrs tail Ha).
  destruct (last_of (Some n0) n') as [c|] eqn:El; [|discriminate].
  cbn [word_at]. rewrite Hlast. cbn [xorb flat_map]. rewrite app_nil_r.
  unfold attrs_ok in Ha. apply andb_prop in Ha. destruct Ha as [Ha _].
  destruct (tag_end f_gi attrs tail (Some c) [(1, n0 :: n')] Ha) as [q [l2 E2]].
  match goal with
  | |- exists q0 l, _ ++ ?X = _ =>
      exists q, (l2 ++ X); apply (f_equal (fun z => z ++ X)) in E2; exact E2
  end.
Qed.

Lemma strip_tag_at closing name attrs tail p :
  name_ok name = true -> attrs_ok attrs = true ->
  exists mt st',
    match_here f_gi re_strip_tag p (tagText closing name attrs ++ tail) = Some (mt, st') /\
    whole mt = tagText closing name attrs /\ group 1 mt = name /\ rest st' = tail.
Proof.
  intros Hn Ha.
  assert (Hrun : exists q l,
             run f_gi re_strip_tag (start p (tagText closing name attrs ++ tail))
             = {| rest := tail; prev := q; caps := [(1, name)] |} :: l).
  { rewrite re_strip_tag_parts. unfold start, tagText.
    change (js "<") with ["<"%char]. rewrite <- !app_assoc. cbn [app].
    rewrite run_seq_chr. change (same f_gi "<" "<") with true. cbv iota.
    rewrite run_seq. unfold opt. rewrite run_alt, run_eps, run_chr.
    destruct closing.
    - change (js "/" ++ name ++ attrs ++ js ">" ++ tail)
        with ("/"%char :: name ++ attrs ++ js ">" ++ tail).
      unfold one. cbn [rest]. change (same f_gi "/" "/") with true. cbv iota.
      cbn [app flat_map]. unfold step. cbn [caps].
      destruct (@name_on_here name attrs tail (Some "/"%char) Hn Ha) as [q [l E]].
      match goal with
      | |- exists q0 l0, _ ++ ?X = _ =>
          exists q, (l ++ X); apply (f_equal (fun z => z ++ X)) in E; exact E
      end.
    - cbn [app]. unfold name_ok in Hn. destruct name as [|n0 n']; [discriminate|].
      assert (H0 : isLetter n0 = true).
      { cbn beta iota in Hn. apply andb_prop in Hn. destruct Hn as [Hn _].
        apply andb_prop in Hn. tauto. }
      unfold one. cbn [rest app]. rewrite (letter_not_slash _ H0).
      cbn [app flat_map]. rewrite app_nil_r.
      destruct (@name_on_here (n0 :: n') attrs tail (Some "<"%char) Hn Ha) as [q [l E]].
      exists q, l. exact E. }
  destruct Hrun as [q [l Hrun]].
  pose proof (@match_here_splits f_gi re_strip_tag p (tagText closing name attrs ++ tail)) as Hs.
  unfold match_here in *. rewrite Hrun in *.
  eexists _, _. split; [reflexivity|]. cbn [whole rest groups]. split; [|split; reflexivity].
  specialize (Hs _ _ eq_refl). destruct Hs as [Hs _]. cbn [whole rest] in Hs.
  apply app_inv_tail in Hs. symmetry. exact Hs.
Qed.

Lemma tagText_head closing name attrs :
  exists ws, tagText closing name attrs = "<"%char :: ws.
Proof. unfold tagText. eexists. reflexivity. Qed.

Lemma strip_doc_any : forall doc, Forall piece_ok doc -> forall p,
  replace_from f_g re_any_tag (fun (_ : unit) _ => ([], tt)) tt p (render doc)
  = render (filter (kept []) doc).
Proof.
  induction 1 as [|pc doc Hpc Hdoc IH]; intros p.
  - apply replace_from_end.
    apply heads_miss_nil with (c := "<"%char); [apply caseless_lt|reflexivity].
  - destruct pc as [t|closing name attrs]; cbn [render filter kept piece_ok] in *.
    + match goal with
      | |- replace_from ?fl ?r ?cb ?a p (t ++ ?s) = _ =>
          destruct (@replace_from_plain unit fl r cb a eq_refl t p s Hpc) as [q E]
      end.
      rewrite E, IH. reflexivity.
    + destruct Hpc as [Hn Ha]. cbn [map includes existsb].
      destruct (@any_tag_at closing name attrs (render doc) p Hn Ha) as [mt [st' [Hm [Hw Hr]]]].
      destruct (tagText_head closing name attrs) as [ws Ews].
      rewrite replace_from_hit with (mt := mt) (st' := st') (w := "<"%char) (ws := ws);
        [|exact Hm|rewrite Hw; exact Ews].
      cbn [fst snd app]. rewrite Hr. apply IH.
Qed.

Lemma strip_doc_named ig : forall doc, Forall piece_ok doc -> forall p,
  replace_from f_gi re_strip_tag
    (fun (_ : unit) mt =>
       (if includes (map toLowerCase ig) (toLowerCase (group 1 mt)) then whole mt else [],
        tt))
    tt p (render doc)
  = render (filter (kept ig) doc).
Proof.
  induction 1 as [|pc doc Hpc Hdoc IH]; intros p.
  - apply replace_from_end.
    apply heads_miss_nil with (c := "<"%char); [apply caseless_lt|reflexivity].
  - destruct pc as [t|closing name attrs]; cbn [render filter kept piece_ok] in *.
    + match goal with
      | |- replace_from ?fl ?r ?cb ?a p (t ++ ?s) = _ =>
          destruct (@replace_from_plain unit fl r cb a eq_refl t p s Hpc) as [q E]
      end.
      rewrite E, IH. reflexivity.
    + destruct Hpc as [Hn Ha].
      destruct (@strip_tag_at closing name attrs (render doc) p Hn Ha) as [mt [st' [Hm [Hw [Hg Hr]]]]].
      destruct (tagText_head closing name attrs) as [ws Ews].
      rewrite replace_from_hit with (mt := mt) (st' := st') (w := "<"%char) (ws := ws);
        [|exact Hm|rewrite Hw; exact Ews].
      cbn [fst snd]. rewrite Hg, Hw, Hr, IH.
      destruct (includes (map toLowerCase ig) (toLowerCase name)); reflexivity.
Qed.

Lemma tails_run fl c : caseless c -> forall r st st',
  tails c r = true -> In st' (run fl r st) ->
  exists pre, reads st st' (pre ++ [c]).
Proof.
  intros Hc. induction r; intros st st' Ht H; try discriminate.
  - cbn [tails] in Ht. apply Ascii.eqb_eq in Ht. subst c0.
    rewrite run_chr in H. apply one_reads in H. destruct H as [x [Hx [Hr _]]].
    apply Hc in Hx. subst x. exists []. exact Hr.
  - rewrite run_seq in H. apply in_flat_map in H. destruct H as [st1 [H1 H2]].
    assert (Hgen : tails c r2 = true ->
                   exists pre, reads st st' (pre ++ [c])).
    { intros Ht2. destruct (run_reads _ _ _ _ H1) as [p1 R1].
      destruct (IHr2 _ _ Ht2 H2) as [p2 R2]. exists (p1 ++ p2).
      unfold reads in *. rewrite R1, R2, <- !app_assoc. reflexivity. }
    destruct r2; cbn [tails] in Ht; try (apply Hgen; exact Ht); try discriminate.
    destruct H2 as [<-|[]]. apply (IHr1 _ _ Ht H1).
  - cbn [tails] in Ht. apply andb_prop in Ht. destruct Ht as [Ht1 Ht2].
    rewrite run_alt in H. apply in_app_or in H. destruct H; eauto.
  - cbn [tails] in Ht. rewrite run_grp in H.
    apply in_map_iff in H. destruct H as [st1 [<- H1]].
    apply (IHr _ _ Ht H1).
Qed.

(** A match of an expression that starts with [<] and ends with [>]. *)
Lemma tag_shaped fl r p s mt st' :
  heads "<" r = true -> tails ">" r = true ->
  match_here fl r p s = Some (mt, st') ->
  exists m, whole mt = "<"%char :: m ++ [">"%char].
Proof.
  intros Hh Ht H. apply match_here_splits in H. destruct H as [Hs [Hin _]].
  destruct (@heads_run fl "<" caseless_lt r _ _ Hh Hin) as [t E].
  destruct (@tails_run fl ">" caseless_gt r _ _ Ht Hin) as [pre R].
  unfold reads in R. cbn [start rest] in E, R.
  assert (Hw : whole mt = pre ++ [">"%char]).
  { rewrite Hs in R. apply app_inv_tail in R. exact R. }
  rewrite Hw. destruct pre as [|x pre].
  - rewrite R in E. discriminate.
  - rewrite R in E. injection E as -> _. exists pre. reflexivity.
Qed.

Lemma td_keep_app w : forall s t, tags_deleted s t -> tags_deleted (w ++ s) (w ++ t).
Proof.
  induction w as [|c w IH]; intros s t H; [exact H|].
  cbn [app]. apply td_keep. apply IH. exact H.
Qed.

Lemma replace_tags_deleted fl r (cb : rmatch -> text) :
  heads "<" r = true -> tails ">" r = true ->
  (forall mt, cb mt = whole mt \/ cb mt = []) ->
  forall n s, length s <= n -> forall p,
  tags_deleted s (replace_from fl r (fun (_ : unit) mt => (cb mt, tt)) tt p s).
Proof.
  intros Hh Ht Hcb. induction n as [|n IH]; intros s Hn p.
  - destruct s; [|simpl in Hn; lia].
    rewrite replace_from_end; [constructor|].
    apply heads_miss_nil with (c := "<"%char); [apply caseless_lt|exact Hh].
  - destruct (match_here fl r p s) as [[mt st']|] eqn:E.
    + destruct (@tag_shaped fl r p s mt st' Hh Ht E) as [m Hw].
      rewrite replace_from_hit with (mt := mt) (st' := st') (w := "<"%char)
        (ws := m ++ [">"%char]) by assumption.
      cbn [fst snd]. apply match_here_splits in E. destruct E as [Hs _].
      assert (Hlen : length (rest st') <= n).
      { apply (f_equal (@length ascii)) in Hs. rewrite Hw, length_app in Hs.
        cbn [length] in Hs. lia. }
      rewrite Hs at 1. destruct (Hcb mt) as [Hk|Hk]; rewrite Hk.
      * apply td_keep_app. apply IH. exact Hlen.
      * rewrite Hw. cbn [app]. rewrite <- app_assoc. cbn [app].
        apply td_drop. apply IH. exact Hlen.
    + destruct s as [|c s].
      * rewrite replace_from_end by exact E. constructor.
      * rewrite replace_from_miss by exact E. apply td_keep. apply IH.
        simpl in Hn. lia.
Qed.

Lemma stripTags_deletes ig html :
  exists kept_text, tags_deleted html kept_text /\ stripTags ig html = trim kept_text.
Proof.
  unfold stripTags. destruct (Nat.eqb (length ig) 0).
  - eexists. split; [|reflexivity]. rewrite replaceAll_from.
    apply replace_tags_deleted with (n := length html); try reflexivity; auto.
  - eexists. split; [|reflexivity]. rewrite replaceAll_from.
    apply replace_tags_deleted with (n := length html); try reflexivity; auto.
    intros mt. destruct (includes _ _); auto.
Qed.

(** ** C1: tags in ignoreTags *)

(** C1 does not hold of the program.  A tag whose name is in ignoreTags
    should come out byte-identical, attributes included.  preserveFormat
    decodes the four entities in the whole text after the tags have been
    handled, so an entity in an attribute of a preserved tag is decoded; and
    the blockquote pass converts the [<br>] of its content although 'br' is
    in ignoreTags, where the pass for [<br>] itself leaves them.  textify
    without formatting returns the same tags unchanged. *)
Theorem ignored_tag_not_identical :
  preserveFormat (js "<a href=\q/?a=1&amp;b=2\q>x</a>") [js "a"]
  = js "<a href=\q/?a=1&b=2\q>x</a>" /\
  preserveFormat (js "<a href=\q/?a=1&amp;b=2\q>x</a>") [js "a"]
  <> js "<a href=\q/?a=1&amp;b=2\q>x</a>" /\
  preserveFormat (js "<blockquote>a<br>b</blockquote>") [js "br"] = js "> a\n> b" /\
  preserveFormat (js "a<br>b") [js "br"] = js "a<br>b" /\
  textify (js "<a href=\q/?a=1&amp;b=2\q>x</a>") false [js "a"] None None
  = Returns (js "<a href=\q/?a=1&amp;b=2\q>x</a>").
Proof.
  repeat split; try (vm_compute; reflexivity). vm_compute. discriminate.
Qed.

(** ** More of textify: it never throws *)

(** X1. textify never throws where its source can be followed: wrapByWords,
    which throws for a count that is not positive, is called under the
    guard [wrapWords > 0] only.  So textify returns a text whenever the
    word-count wrap is in force or the character-budget wrap, whose source
    is not at hand, is not called. *)
Theorem textify_never_throws (html : text) (preserveFormatting : bool)
  (ignoreTags : list text) (wrapLength wrapWords : option Z) :
  positive wrapWords = true \/ positive wrapLength = false ->
  exists out,
    textify html preserveFormatting ignoreTags wrapLength wrapWords = Returns out.
Proof.
  intros Hw. unfold textify. destruct html as [|c html]; [eexists; reflexivity|].
  destruct (positive wrapWords) eqn:Ew.
  - apply positive_spec in Ew. destruct Ew as [n [-> Hn]]. cbn [the].
    unfold wrapByWords. rewrite (proj2 (Z.leb_gt _ _)) by exact Hn.
    eexists. reflexivity.
  - destruct Hw as [Hw|Hw]; [discriminate Hw|]. rewrite Hw. eexists. reflexivity.
Qed.

Lemma textify_never_throws_witness :
  exists out, textify (js "<p>a b</p>") true [] (Some 5%Z) (Some 1%Z) = Returns out.
Proof.
  apply (@textify_never_throws (js "<p>a b</p>") true [] (Some 5%Z) (Some 1%Z)).
  left. reflexivity.
Defined.

(** ** ignoreTags as a set *)

Lemma includes_In ig x : includes ig x = true <-> In x ig.
Proof.
  unfold includes. rewrite existsb_exists. split.
  - intros [y [Hy E]]. apply text_eqb_eq in E. subst y. exact Hy.
  - intros H. exists x. split; [exact H|]. apply text_eqb_eq. reflexivity.
Qed.

Lemma includes_same_members ig1 ig2 :
  (forall x, In x ig1 <-> In x ig2) -> forall x, includes ig1 x = includes ig2 x.
Proof.
  intros H x. destruct (includes ig1 x) eqn:E1; destruct (includes ig2 x) eqn:E2;
    try reflexivity.
  - apply includes_In, H, includes_In in E1. congruence.
  - apply includes_In, H, includes_In in E2. congruence.
Qed.

Lemma same_members_empty (ig1 ig2 : list text) :
  (forall x, In x ig1 <-> In x ig2) -> (ig1 = [] <-> ig2 = []).
Proof.
  intros H. split; intros ->.
  - destruct ig2 as [|y l]; [reflexivity|]. destruct (proj2 (H y) (or_introl eq_refl)).
  - destruct ig1 as [|y l]; [reflexivity|]. destruct (proj1 (H y) (or_introl eq_refl)).
Qed.

(** X2. The order of the entries of ignoreTags and their repetition do not
    matter: two lists with the same members give the same result, for
    preserveFormat and for textify in both modes. *)
Theorem ignoreTags_order_irrelevant (ig1 ig2 : list text) :
  (forall x, In x ig1 <-> In x ig2) ->
  forall html,
    preserveFormat html ig1 = preserveFormat html ig2 /\
    forall preserveFormatting wrapLength wrapWords,
      textify html preserveFormatting ig1 wrapLength wrapWords
      = textify html preserveFormatting ig2 wrapLength wrapWords.
Proof.
  intros H html.
  assert (Hp : preserveFormat html ig1 = preserveFormat html ig2).
  { apply preserveFormat_keys.
    - intros x. apply includes_same_members. exact H.
    - apply same_members_empty. exact H. }
  assert (Hs : stripTags ig1 html = stripTags ig2 html).
  { unfold stripTags.
    assert (Hl : Nat.eqb (length ig1) 0 = Nat.eqb (length ig2) 0).
    { pose proof (@same_members_empty ig1 ig2 H) as He.
      destruct ig1; destruct ig2; try reflexivity.
      - destruct He as [He _]. discriminate (He eq_refl).
      - destruct He as [_ He]. discriminate (He eq_refl). }
    rewrite Hl. destruct (Nat.eqb (length ig2) 0); [reflexivity|].
    f_equal. apply replaceAll_ext. intros mt.
    rewrite (@includes_same_members (map toLowerCase ig1) (map toLowerCase ig2));
      [reflexivity|].
    intros x. rewrite !in_map_iff. split; intros [y [E Hy]]; exists y;
      (split; [exact E|apply H; exact Hy]). }
  split; [exact Hp|].
  intros pf wl ww. unfold textify. destruct html; [reflexivity|].
  destruct pf; [rewrite Hp|rewrite Hs]; reflexivity.
Qed.

Lemma ignoreTags_order_irrelevant_witness :
  preserveFormat (js "<b>x</b><i>y</i>") [js "i"; js "b"; js "i"]
  = preserveFormat (js "<b>x</b><i>y</i>") [js "b"; js "i"].
Proof.
  apply (@ignoreTags_order_irrelevant [js "i"; js "b"; js "i"] [js "b"; js "i"]).
  intros x. simpl. tauto.
Defined.

(** ** The result is trimmed *)

Lemma dropWhile_head P s c t : dropWhile P s = c :: t -> P c = false.
Proof.
  induction s as [|x s IH]; [discriminate|]. cbn [dropWhile].
  destruct (P x) eqn:E; [exact IH|]. intros H. injection H as <- _. exact E.
Qed.

Lemma dropWhile_suffix P s : exists w, s = w ++ dropWhile P s.
Proof. exists (takeWhile P s). symmetry. apply take_drop_while. Qed.

Lemma dropWhile_id P s : (forall c t, s = c :: t -> P c = false) -> dropWhile P s = s.
Proof.
  intros H. destruct s as [|c t]; [reflexivity|].
  cbn [dropWhile]. rewrite (H c t eq_refl). reflexivity.
Qed.

Lemma trim_trimmed s : trimmed (trim s).
Proof.
  unfold trim, trimEnd, trimStart.
  set (d := dropWhile isSpace s).
  destruct (dropWhile isSpace (rev d)) as [|z e] eqn:E.
  - split; intros; [discriminate|]. destruct t; discriminate.
  - pose proof (dropWhile_head _ _ E) as Hz.
    destruct (dropWhile_suffix isSpace (rev d)) as [w Hw]. rewrite E in Hw.
    assert (Hd : d = rev e ++ z :: rev w).
    { rewrite <- (rev_involutive d), Hw, rev_app_distr. cbn [rev].
      rewrite <- app_assoc. reflexivity. }
    split.
    + intros c t Hc. cbn [rev] in Hc.
      destruct (rev e) as [|y e'] eqn:Ee.
      * cbn [app] in Hc. injection Hc as <- _. exact Hz.
      * cbn [app] in Hc. injection Hc as <- _.
        cbn [app] in Hd. eapply dropWhile_head. unfold d in Hd. exact Hd.
    + intros t c Hc. cbn [rev] in Hc. apply app_inj_tail in Hc.
      destruct Hc as [_ <-]. exact Hz.
Qed.

Lemma trim_id s : trimmed s -> trim s = s.
Proof.
  intros [Hh Hl]. unfold trim, trimStart, trimEnd.
  rewrite (@dropWhile_id isSpace s Hh).
  rewrite dropWhile_id; [apply rev_involutive|].
  intros c t Hc. apply (Hl (rev t) c).
  rewrite <- (rev_involutive s), Hc. reflexivity.
Qed.

Lemma preserveFormat_trimmed html ig : trimmed (preserveFormat html ig).
Proof.
  unfold preserveFormat. destruct html; [|apply trim_trimmed].
  split; intros; [discriminate|]. destruct t; discriminate.
Qed.

(** X3. The result of preserveFormat, and of textify without wrapping in
    either mode, neither starts nor ends with white space; trimming it
    again changes nothing. *)
Theorem results_are_trimmed (html : text) (ignoreTags : list text) :
  trimmed (preserveFormat html ignoreTags) /\
  trimmed (stripTags ignoreTags html) /\
  (forall preserveFormatting out,
      textify html preserveFormatting ignoreTags None None = Returns out ->
      trimmed out /\ trim out = out).
Proof.
  assert (Hp : trimmed (preserveFormat html ignoreTags))
    by apply preserveFormat_trimmed.
  assert (Hs : trimmed (stripTags ignoreTags html)).
  { unfold stripTags. destruct (Nat.eqb _ _); apply trim_trimmed. }
  split; [exact Hp|]. split; [exact Hs|].
  intros pf out H. unfold textify in H. destruct html as [|c html].
  - injection H as <-. split; [|reflexivity].
    split; intros; [discriminate|]. destruct t; discriminate.
  - cbn [positive] in H. destruct pf; injection H as <-;
      (split; [assumption|apply trim_id; assumption]).
Qed.

Lemma results_are_trimmed_witness :
  trimmed (js "Hello **world**") /\ trim (js "Hello **world**") = js "Hello **world**".
Proof.
  apply (proj2 (proj2 (results_are_trimmed (js " <p>Hello <b>world</b></p> ") []))
           true (js "Hello **world**")).
  vm_compute. reflexivity.
Defined.

(** ** Text that preserveFormat leaves alone *)

Lemma collapse_id : forall s p,
  calm 0 s = true ->
  replace_from f_g re_newlines (fun (_ : unit) _ => (js "\n\n", tt)) tt p s = s.
Proof.
  induction s as [|c s IH]; intros p Hc.
  - apply replace_from_end.
    destruct (newlines_here p []) as [[t [mt [st' [H _]]]]|[H _]]; [discriminate|exact H].
  - destruct (newlines_here p (c :: s)) as [[t [mt [st' [Hs _]]]]|[Hm _]].
    + rewrite Hs in Hc. discriminate.
    + rewrite replace_from_miss by exact Hm. f_equal. apply IH.
      eapply calm_tail. exact Hc.
Qed.

Lemma caseless_amp : caseless "&".
Proof.
  intros [[] d] x; unfold same, canon; cbn [icase]; each_ascii x;
    try discriminate; reflexivity.
Qed.

(** An expression that must read [c] finds nothing in a text without [c]. *)
Lemma demands_exec_none fl c r :
  caseless c -> demands c r = true ->
  forall s p, ~ In c s -> exec fl r p s = None.
Proof.
  intros Hc Hd.
  assert (Hm : forall s p, ~ In c s -> match_here fl r p s = None).
  { intros s p Hn. destruct (match_here fl r p s) as [[mt st']|] eqn:E; [|reflexivity].
    exfalso. apply match_here_splits in E. destruct E as [_ [Hin _]].
    destruct (@demands_run fl c Hc r _ _ Hd Hin) as [pre [R I]].
    apply Hn. unfold reads in R. cbn [start rest] in R. rewrite R.
    apply in_or_app. left. exact I. }
  induction s as [|x s IH]; intros p Hn.
  - apply exec_end. apply Hm. exact Hn.
  - rewrite exec_miss by (apply Hm; exact Hn).
    rewrite IH; [reflexivity|]. intros H. apply Hn. right. exact H.
Qed.

Lemma decodeEntities_plain s : ~ In "&"%char s -> decodeEntities s = s.
Proof.
  intros Hn. unfold decodeEntities.
  assert (H : forall r cb, demands "&" r = true -> replaceAll f_gi r cb s = s).
  { intros r cb Hd. apply replaceAll_none.
    apply demands_exec_none with (c := "&"%char);
      [apply caseless_amp|exact Hd|exact Hn]. }
  rewrite (H re_nbsp) by reflexivity. rewrite (H re_amp) by reflexivity.
  rewrite (H re_lt) by reflexivity. apply H. reflexivity.
Qed.

Lemma hasTag_has_lt s : hasTag s = true -> In "<"%char s.
Proof.
  induction s as [|c s IH]; [discriminate|]. cbn [hasTag]. intros H.
  apply orb_prop in H. destruct H as [H|H].
  - apply tagAt_inv in H. destruct H as [y [t [E _]]]. rewrite E. left. reflexivity.
  - right. apply IH. exact H.
Qed.

Lemma no_lt_no_tag s : ~ In "<"%char s -> hasTag s = false.
Proof.
  intros Hn. destruct (hasTag s) eqn:E; [|reflexivity].
  exfalso. apply Hn. apply hasTag_has_lt. exact E.
Qed.

Lemma preserveFormat_calm html ig : calm 0 (preserveFormat html ig) = true.
Proof.
  unfold preserveFormat. destruct html; [reflexivity|].
  cbv zeta. apply calm_trim, collapseNewlines_calm.
Qed.

(** X4. A text without [<] and without [&] goes through preserveFormat
    with its runs of newlines collapsed and its ends trimmed, and nothing
    else; when it has no three newlines in a row and is trimmed already, it
    is returned as it is.  So preserveFormat is idempotent on every result
    of its own that has no [<] and no [&] left. *)
Theorem preserveFormat_on_plain_text (ignoreTags : list text) :
  (forall txt, ~ In "<"%char txt -> ~ In "&"%char txt ->
     preserveFormat txt ignoreTags = trim (collapseNewlines txt)) /\
  (forall txt, ~ In "<"%char txt -> ~ In "&"%char txt ->
     calm 0 txt = true -> trimmed txt ->
     preserveFormat txt ignoreTags = txt) /\
  (forall html ignoreTags',
     ~ In "<"%char (preserveFormat html ignoreTags') ->
     ~ In "&"%char (preserveFormat html ignoreTags') ->
     preserveFormat (preserveFormat html ignoreTags') ignoreTags
     = preserveFormat html ignoreTags').
Proof.
  assert (H1 : forall txt, ~ In "<"%char txt -> ~ In "&"%char txt ->
                 preserveFormat txt ignoreTags = trim (collapseNewlines txt)).
  { intros txt Hl Ha. unfold preserveFormat. destruct txt as [|c txt]; [reflexivity|].
    cbv zeta. rewrite normalizeGaps_plain by exact Hl.
    rewrite tag_passes_id by (apply no_lt_no_tag; exact Hl).
    rewrite decodeEntities_plain by exact Ha. reflexivity. }
  assert (H2 : forall txt, ~ In "<"%char txt -> ~ In "&"%char txt ->
                 calm 0 txt = true -> trimmed txt ->
                 preserveFormat txt ignoreTags = txt).
  { intros txt Hl Ha Hc Ht. rewrite H1 by assumption.
    unfold collapseNewlines. rewrite replaceAll_from, collapse_id by exact Hc.
    apply trim_id. exact Ht. }
  split; [exact H1|]. split; [exact H2|].
  intros html ig' Hl Ha. apply H2; try assumption.
  - apply preserveFormat_calm.
  - apply preserveFormat_trimmed.
Qed.

Lemma preserveFormat_on_plain_text_witness :
  preserveFormat (js " a > b\n\n\n\nc ") [js "b"] = trim (collapseNewlines (js " a > b\n\n\n\nc ")).
Proof.
  apply (proj1 (preserveFormat_on_plain_text [js "b"])).
  - cbn. intros H; repeat (destruct H as [H|H]; [discriminate|]); exact H.
  - cbn. intros H; repeat (destruct H as [H|H]; [discriminate|]); exact H.
Defined.

(** ** The replace of a final tab in a table row *)

Lemma last_tab_none : forall s p,
  (forall t c, s = t ++ [c] -> c <> TAB) -> exec f_g re_last_tab p s = None.
Proof.
  induction s as [|x s IH]; intros p H.
  - reflexivity.
  - assert (Hm : match_here f_g re_last_tab p (x :: s) = None).
    { unfold match_here, start, re_last_tab, seq. cbn [fold_right].
      rewrite run_seq_chr. destruct (same f_g x TAB) eqn:Ex; [|reflexivity].
      destruct s as [|y s]; [|reflexivity].
      exfalso. apply (H [] x eq_refl).
      unfold same in Ex. cbn in Ex. apply Ascii.eqb_eq in Ex. exact Ex. }
    rewrite exec_miss by exact Hm. rewrite IH; [reflexivity|].
    intros t c E. apply (H (x :: t) c). rewrite E. reflexivity.
Qed.

Lemma last_tab_trim s : replaceFirst f_g re_last_tab [] (trim s) = trim s.
Proof.
  unfold replaceFirst. rewrite last_tab_none; [reflexivity|].
  intros t c E ->. destruct (trim_trimmed s) as [_ Hl].
  specialize (Hl t TAB E). discriminate.
Qed.

(** X5. In the rows of a table, [.trim().replace(/\t$/, '')] is [.trim()]:
    a trimmed text does not end with a tab, so the replace never finds one.
    The row callback therefore yields the trimmed cells and a newline. *)
Theorem last_tab_replace_never_fires :
  (forall s, replaceFirst f_g re_last_tab [] (trim s) = trim s) /\
  (forall ig content,
      tableRows ig content
      = trim (replaceAll f_gi re_tr
                (fun mt => if includes ig (js "tr") then whole mt
                           else trim (tableCells ig (group 1 mt)) ++ js "\n")
                content)).
Proof.
  split; [exact last_tab_trim|].
  intros ig content. unfold tableRows. f_equal. apply replaceAll_ext.
  intros mt. rewrite last_tab_trim. reflexivity.
Qed.

(** ** No tag is left when nothing is ignored *)

Lemma tags_deleted_in s t : tags_deleted s t -> forall c, In c t -> In c s.
Proof.
  induction 1 as [|c s t H IH|m s t H IH]; intros x Hx.
  - exact Hx.
  - destruct Hx as [->|Hx]; [left; reflexivity|right; auto].
  - right. apply in_or_app. right. right. auto.
Qed.

Lemma tagAt_app a b : tagAt a = true -> tagAt (a ++ b) = true.
Proof.
  intros H. apply tagAt_inv in H. destruct H as [y [t [-> [Hy Hin]]]].
  cbn [app tagAt]. rewrite Hy. cbn [negb andb].
  apply in_existsb_eqb. apply in_or_app. left. exact Hin.
Qed.

Lemma hasTag_prefix a b : hasTag (a ++ b) = false -> hasTag a = false.
Proof.
  induction a as [|c a IH]; [reflexivity|]. cbn [app hasTag]. intros H.
  apply orb_false_elim in H. destruct H as [H1 H2].
  rewrite (IH H2), orb_false_r.
  destruct (tagAt (c :: a)) eqn:E; [|reflexivity].
  apply (tagAt_app _ b) in E. cbn [app] in E. congruence.
Qed.

Lemma hasTag_dropWhile P s : hasTag s = false -> hasTag (dropWhile P s) = false.
Proof.
  induction s as [|c s IH]; [trivial|]. cbn [dropWhile]. intros H.
  destruct (P c); [|exact H]. apply IH. eapply hasTag_false_cons. exact H.
Qed.

Lemma hasTag_trim s : hasTag s = false -> hasTag (trim s) = false.
Proof.
  intros H. unfold trim. destruct (trimEnd_prefix (trimStart s)) as [w Hw].
  apply hasTag_prefix with (b := w). rewrite <- Hw.
  apply hasTag_dropWhile. exact H.
Qed.

Lemma any_tag_miss p s : tagAt s = false -> match_here f_g re_any_tag p s = None.
Proof.
  intros H. destruct (match_here f_g re_any_tag p s) eqn:E; [|reflexivity].
  assert (Hm : match_here f_g re_any_tag p s <> None) by congruence.
  apply (@opens_here f_g re_any_tag p s eq_refl) in Hm. congruence.
Qed.

Lemma remove_all_no_tag : forall n s, length s <= n -> forall p,
  hasTag (replace_from f_g re_any_tag (fun (_ : unit) _ => ([], tt)) tt p s) = false.
Proof.
  induction n as [|n IH]; intros s Hn p.
  - destruct s; [|simpl in Hn; lia].
    rewrite replace_from_end; [reflexivity|]. apply any_tag_miss. reflexivity.
  - destruct (match_here f_g re_any_tag p s) as [[mt st']|] eqn:E.
    + destruct (@tag_shaped f_g re_any_tag p s mt st' eq_refl eq_refl E) as [m Hw].
      rewrite replace_from_hit with (mt := mt) (st' := st') (w := "<"%char)
        (ws := m ++ [">"%char]) by assumption.
      cbn [fst snd app]. apply IH.
      apply match_here_splits in E. destruct E as [Hs _].
      apply (f_equal (@length ascii)) in Hs. rewrite Hw, length_app in Hs.
      cbn [length] in Hs. lia.
    + destruct s as [|c s].
      * rewrite replace_from_end by exact E. reflexivity.
      * rewrite replace_from_miss by exact E.
        set (X := replace_from f_g re_any_tag (fun (_ : unit) _ => ([], tt)) tt (Some c) s).
        assert (HX : hasTag X = false) by (apply IH; simpl in Hn; lia).
        assert (HD : tags_deleted s X).
        { apply replace_tags_deleted with (n := length s); auto. }
        cbn [hasTag]. rewrite HX, orb_false_r.
        destruct (tagAt (c :: X)) eqn:Et; [|reflexivity]. exfalso.
        apply tagAt_inv in Et. destruct Et as [y [u [Ec [Hy Hin]]]].
        injection Ec as -> EX.
        assert (Hmiss : tagAt ("<"%char :: s) = false).
        { destruct (tagAt ("<"%char :: s)) eqn:Ets; [|reflexivity].
          apply (any_tag_here p) in Ets. congruence. }
        destruct s as [|z t].
        -- unfold X in EX. rewrite replace_from_end in EX; [discriminate|].
           apply any_tag_miss. reflexivity.
        -- cbn [tagAt] in Hmiss. destruct (Ascii.eqb_spec z ">") as [->|Hz].
           ++ unfold X in EX. rewrite replace_from_miss in EX.
              ** injection EX as <- _. discriminate.
              ** apply any_tag_miss. reflexivity.
           ++ cbn [negb andb] in Hmiss.
              assert (Hgt : In ">"%char (z :: t)).
              { apply (tags_deleted_in HD). rewrite EX. right. exact Hin. }
              destruct Hgt as [Hgt|Hgt]; [congruence|].
              apply in_existsb_eqb in Hgt. congruence.
Qed.

(** X6. With no ignoreTags, textify without formatting leaves no tag: in
    its result the tag expression [/<[^>]+>/] finds nothing, even where the
    removal of one tag brings the two sides of another together.  Applying
    it again changes nothing. *)
Theorem strip_all_leaves_no_tag (html : text) :
  exec f_g re_any_tag None (stripTags [] html) = None /\
  stripTags [] (stripTags [] html) = stripTags [] html /\
  (forall out, textify html false [] None None = Returns out ->
               textify out false [] None None = Returns out).
Proof.
  assert (Hno : hasTag (stripTags [] html) = false).
  { unfold stripTags. cbn [length Nat.eqb]. apply hasTag_trim.
    rewrite replaceAll_from. apply remove_all_no_tag with (n := length html). lia. }
  assert (Hid : stripTags [] (stripTags [] html) = stripTags [] html).
  { unfold stripTags at 1. cbn [length Nat.eqb].
    rewrite opens_replace by (try reflexivity; exact Hno).
    apply trim_id. unfold stripTags. cbn [length Nat.eqb]. apply trim_trimmed. }
  split; [apply opens_exec_none; [reflexivity|exact Hno]|]. split; [exact Hid|].
  assert (Ht : forall x, textify x false [] None None = Returns (stripTags [] x)).
  { intros x. unfold textify. destruct x; [|reflexivity].
    rewrite stripTags_empty. reflexivity. }
  intros out H. rewrite Ht in H. injection H as <-. rewrite Ht, Hid. reflexivity.
Qed.

Lemma strip_all_leaves_no_tag_witness :
  textify (js "i>t") false [] None None = Returns (js "i>t").
Proof.
  apply (proj2 (proj2 (strip_all_leaves_no_tag (js "<<b>i>t")))).
  vm_compute. reflexivity.
Defined.

(** ** wrapByWords changes white space only *)

Lemma filter_join sep (xs : list text) :
  filter notSpace sep = [] ->
  filter notSpace (join sep xs) = concat (map (filter notSpace) xs).
Proof.
  intros Hs. induction xs as [|x xs IH]; [reflexivity|].
  destruct xs as [|y xs].
  - cbn. rewrite app_nil_r. reflexivity.
  - change (join sep (x :: y :: xs)) with (x ++ sep ++ join sep (y :: xs)).
    rewrite !filter_app, Hs, IH. reflexivity.
Qed.

Lemma filter_concat (xss : list (list text)) :
  concat (map (fun g => concat (map (filter notSpace) g)) xss)
  = concat (map (filter notSpace) (concat xss)).
Proof.
  induction xss as [|g xss IH]; [reflexivity|].
  cbn [map concat]. rewrite map_app, concat_app, IH. reflexivity.
Qed.

Lemma filter_words : forall s gap cur,
  (gap = true -> cur = []) ->
  concat (map (filter notSpace) (wordsFrom gap cur s)) = filter notSpace (rev cur ++ s).
Proof.
  induction s as [|c s IH]; intros gap cur Hg.
  - cbn. rewrite !app_nil_r. reflexivity.
  - cbn [wordsFrom]. rewrite filter_app. cbn [filter]. unfold notSpace at 3.
    destruct (isSpace c) eqn:Ec; cbn [negb].
    + destruct gap.
      * rewrite (Hg eq_refl). rewrite IH by reflexivity. reflexivity.
      * cbn [map concat]. rewrite IH by reflexivity. reflexivity.
    + rewrite IH by discriminate. cbn [rev]. rewrite <- app_assoc, filter_app.
      cbn [app filter]. unfold notSpace at 2. rewrite Ec. reflexivity.
Qed.

Lemma filter_dropWhile s : filter notSpace (dropWhile isSpace s) = filter notSpace s.
Proof.
  induction s as [|c s IH]; [reflexivity|]. cbn [dropWhile].
  destruct (isSpace c) eqn:Ec; [|reflexivity].
  rewrite IH. cbn [filter]. unfold notSpace at 2. rewrite Ec. reflexivity.
Qed.

Lemma filter_trim s : filter notSpace (trim s) = filter notSpace s.
Proof.
  unfold trim, trimEnd, trimStart.
  rewrite filter_rev, filter_dropWhile, filter_rev, rev_involutive.
  apply filter_dropWhile.
Qed.

(** X7. wrapByWords changes white space only: the characters of its result
    that are not white space are those of the text, in order. *)
Theorem wrapByWords_keeps_characters (txt : text) (count : Z) (out : text) :
  wrapByWords txt count = Returns out ->
  filter notSpace out = filter notSpace txt.
Proof.
  intros H. unfold wrapByWords in H.
  destruct (Z.leb_spec count 0) as [Hc|Hc]; [discriminate|].
  injection H as <-. rewrite split_words.
  set (words := wordsOf (trim txt)).
  replace count with (Z.of_nat (Z.to_nat count)) by lia.
  change 0%Z with (Z.of_nat 0).
  rewrite wrap_loop_chunks by lia. cbn [app skipn].
  rewrite filter_join by reflexivity. rewrite map_map.
  rewrite (map_ext _ (fun g => concat (map (filter notSpace) g)))
    by (intros g; apply filter_join; reflexivity).
  rewrite filter_concat, chunks_concat by lia.
  unfold words, wordsOf. rewrite filter_words by discriminate.
  apply filter_trim.
Qed.

Lemma wrapByWords_keeps_characters_witness :
  filter notSpace (js "a b\nc") = filter notSpace (js "  a \t b c ").
Proof.
  apply (@wrapByWords_keeps_characters (js "  a \t b c ") 2 (js "a b\nc")).
  vm_compute. reflexivity.
Defined.

(** ** wrapByWords keeps the words *)

Lemma wordsFrom_gap_start s :
  (forall c t, s = c :: t -> isSpace c = false) ->
  wordsFrom true [] s = wordsFrom false [] s.
Proof.
  intros H. destruct s as [|c s]; [reflexivity|].
  cbn [wordsFrom]. rewrite (H c s eq_refl). reflexivity.
Qed.

(** The words of two texts joined by one white space character. *)
Lemma wordsFrom_join2 sp b :
  isSpace sp = true -> (forall c t, b = c :: t -> isSpace c = false) ->
  forall a gap cur,
    a <> [] -> (forall t c, a = t ++ [c] -> isSpace c = false) ->
    wordsFrom gap cur (a ++ sp :: b) = wordsFrom gap cur a ++ wordsFrom false [] b.
Proof.
  intros Hsp Hb. induction a as [|x a IH]; intros gap cur Hne Hlast; [congruence|].
  destruct a as [|y a].
  - assert (Hx : isSpace x = false) by (apply (Hlast [] x); reflexivity).
    cbn [app wordsFrom]. rewrite Hx, Hsp. cbn [app].
    rewrite (wordsFrom_gap_start Hb). reflexivity.
  - assert (Hl : forall t c, y :: a = t ++ [c] -> isSpace c = false).
    { intros t c E. apply (Hlast (x :: t) c). rewrite E. reflexivity. }
    cbn [app wordsFrom]. destruct (isSpace x).
    + destruct gap.
      * apply (IH true []); [discriminate|exact Hl].
      * cbn [app]. f_equal. apply (IH true []); [discriminate|exact Hl].
    + apply (IH false (x :: cur)); [discriminate|exact Hl].
Qed.

Lemma join_cons2 sep (x y : text) xs :
  join sep (x :: y :: xs) = x ++ sep ++ join sep (y :: xs).
Proof. reflexivity. Qed.

Lemma solid_head (s : text) : solid s -> exists c t, s = c :: t /\ isSpace c = false.
Proof.
  intros [Hne [Hh _]]. destruct s as [|c t]; [congruence|].
  exists c, t. split; [reflexivity|]. apply (Hh c t eq_refl).
Qed.

Lemma solid_join sep (xs : list text) :
  xs <> [] -> Forall solid xs -> solid (join sep xs).
Proof.
  induction xs as [|x xs IH]; [congruence|]. intros _ H.
  inversion H as [|? ? Hx Hxs]; subst.
  destruct xs as [|y xs]; [exact Hx|].
  rewrite join_cons2.
  destruct (IH ltac:(discriminate) Hxs) as [Hne [Hh Hl]].
  destruct (solid_head Hx) as [c [t [-> Hc]]].
  split; [discriminate|]. split.
  - intros c' t' E. cbn [app] in E. injection E as <- _. exact Hc.
  - intros t' c' E.
    destruct (exists_last Hne) as [body [z Ez]].
    rewrite Ez in E. rewrite !app_assoc in E. apply app_inj_tail in E.
    destruct E as [_ <-]. apply (Hl body z Ez).
Qed.

(** The words of a join of solid texts with one white space character. *)
Lemma wordsOf_join sp (xs : list text) :
  isSpace sp = true -> Forall solid xs -> xs <> [] ->
  wordsOf (join [sp] xs) = concat (map wordsOf xs).
Proof.
  intros Hsp. induction xs as [|x xs IH]; [congruence|]. intros H _.
  inversion H as [|? ? Hx Hxs]; subst.
  destruct xs as [|y xs].
  - cbn. rewrite app_nil_r. reflexivity.
  - rewrite join_cons2.
    change (concat (map wordsOf (x :: y :: xs)))
      with (wordsOf x ++ concat (map wordsOf (y :: xs))).
    rewrite <- IH by (try discriminate; exact Hxs).
    destruct (solid_join [sp] (xs := y :: xs) ltac:(discriminate) Hxs) as [_ [Hh _]].
    destruct Hx as [Hne [_ Hl]].
    unfold wordsOf. apply wordsFrom_join2; assumption.
Qed.

Lemma wordsFrom_word w : forall cur,
  forallb notSpace w = true -> wordsFrom false cur w = [rev cur ++ w].
Proof.
  induction w as [|c w IH]; intros cur H.
  - cbn. rewrite app_nil_r. reflexivity.
  - cbn [forallb] in H. apply andb_prop in H. destruct H as [Hc Hw].
    unfold notSpace in Hc. apply negb_true_iff in Hc.
    cbn [wordsFrom]. rewrite Hc, IH by exact Hw. cbn [rev].
    rewrite <- app_assoc. reflexivity.
Qed.

Lemma word_solid w : isWord w -> solid w.
Proof.
  intros [Hne Hf]. split; [exact Hne|]. rewrite forallb_forall in Hf. split.
  - intros c t ->. apply negb_true_iff. apply Hf. left. reflexivity.
  - intros t c ->. apply negb_true_iff. apply Hf. apply in_or_app. right. left.
    reflexivity.
Qed.

Lemma wordsFrom_are_words : forall s gap cur,
  forallb notSpace cur = true ->
  (gap = true -> cur = []) ->
  (s = [] -> cur <> []) ->
  (forall t c, s = t ++ [c] -> isSpace c = false) ->
  (cur = [] -> forall c t, s = c :: t -> gap = false -> isSpace c = false) ->
  Forall isWord (wordsFrom gap cur s).
Proof.
  induction s as [|c s IH]; intros gap cur Hcur Hg Hnil Hlast Hfirst.
  - cbn. constructor; [|constructor]. split.
    + intros E. apply (Hnil eq_refl). apply (f_equal (@rev ascii)) in E.
      rewrite rev_involutive in E. exact E.
    + rewrite forallb_forall in *. intros x Hx. apply Hcur. apply in_rev. exact Hx.
  - assert (Hl : forall t c0, s = t ++ [c0] -> isSpace c0 = false).
    { intros t c0 E. apply (Hlast (c :: t) c0). rewrite E. reflexivity. }
    assert (Hs : isSpace c = true -> s <> []).
    { intros Hc ->. rewrite (Hlast [] c eq_refl) in Hc. discriminate. }
    cbn [wordsFrom]. destruct (isSpace c) eqn:Ec.
    + destruct gap.
      * apply IH; try reflexivity; try assumption.
        -- intros E. destruct (Hs eq_refl E).
        -- intros _ c0 t E H0. discriminate.
      * constructor.
        -- split.
           ++ intros E. apply (f_equal (@rev ascii)) in E.
              rewrite rev_involutive in E. cbn in E.
              rewrite (Hfirst E c s eq_refl eq_refl) in Ec. discriminate.
           ++ rewrite forallb_forall in *. intros x Hx. apply Hcur. apply in_rev. exact Hx.
        -- apply IH; try reflexivity; try assumption.
           ++ intros E. destruct (Hs eq_refl E).
           ++ intros _ c0 t E H0. discriminate.
    + apply IH; try assumption.
      * cbn [forallb]. unfold notSpace at 1. rewrite Ec, Hcur. reflexivity.
      * discriminate.
      * discriminate.
      * discriminate.
Qed.

Lemma words_of_trimmed s : s <> [] -> trimmed s -> Forall isWord (wordsOf s).
Proof.
  intros Hne [Hh Hl]. unfold wordsOf. apply wordsFrom_are_words.
  - reflexivity.
  - discriminate.
  - intros E. contradiction.
  - exact Hl.
  - intros _ c t E _. apply (Hh c t E).
Qed.

Lemma wordsOf_line (g : list text) :
  g <> [] -> Forall isWord g -> wordsOf (join (js " ") g) = g.
Proof.
  intros Hne Hg. change (js " ") with [" "%char].
  rewrite (@wordsOf_join " "%char g eq_refl); [| |exact Hne].
  - clear Hne. induction Hg as [|w g [_ Hw] Hg IH]; [reflexivity|].
    cbn [map concat]. rewrite IH. unfold wordsOf. rewrite wordsFrom_word by exact Hw.
    reflexivity.
  - eapply Forall_impl; [|exact Hg]. intros w. apply word_solid.
Qed.

Lemma chunks_members n fuel : forall (xs : list text) g,
  In g (chunks_fuel fuel n xs) -> forall w, In w g -> In w xs.
Proof.
  induction fuel as [|fuel IH]; intros xs g Hg w Hw; [destruct Hg|].
  destruct xs as [|x xs]; [destruct Hg|]. cbn [chunks_fuel] in Hg.
  destruct Hg as [<-|Hg].
  - rewrite <- (firstn_skipn n (x :: xs)). apply in_or_app. left. exact Hw.
  - specialize (IH _ _ Hg w Hw). rewrite <- (firstn_skipn n (x :: xs)).
    apply in_or_app. right. exact IH.
Qed.

Lemma wordsFrom_not_nil : forall s gap cur, wordsFrom gap cur s <> [].
Proof.
  induction s as [|c s IH]; intros gap cur; cbn [wordsFrom]; [discriminate|].
  destruct (isSpace c); [destruct gap|]; try discriminate; apply IH.
Qed.

(** X8. wrapByWords keeps the words: the words of its result are the words
    of the text, and wrapping the result again with the same count returns
    it unchanged. *)
Theorem wrapByWords_keeps_words (txt : text) (count : Z) (out : text) :
  wrapByWords txt count = Returns out ->
  wordsOf (trim out) = wordsOf (trim txt) /\
  wrapByWords out count = Returns out.
Proof.
  intros H.
  assert (Hw : wordsOf (trim out) = wordsOf (trim txt)).
  { unfold wrapByWords in H.
    destruct (Z.leb_spec count 0) as [Hc|Hc]; [discriminate|].
    injection H as <-. rewrite split_words.
    set (words := wordsOf (trim txt)).
    set (n := Z.to_nat count). assert (Hn : 1 <= n) by (unfold n; lia).
    replace count with (Z.of_nat n) by (unfold n; lia). change 0%Z with (Z.of_nat 0).
    rewrite wrap_loop_chunks by lia. cbn [app skipn].
    destruct (trim txt) as [|c0 t0] eqn:Et.
    - unfold words. cbn. destruct n as [|[|k]]; [lia|reflexivity|reflexivity].
    - assert (Hwords : Forall isWord words).
      { unfold words. apply words_of_trimmed; [discriminate|].
        rewrite <- Et. apply trim_trimmed. }
      set (groups := chunks_fuel (length words) n words).
      assert (Hgroups : forall g, In g groups -> g <> [] /\ Forall isWord g).
      { intros g Hg. split.
        - apply in_split in Hg. destruct Hg as [a [b Hg]].
          destruct (@chunks_shape n Hn (length words) words (le_n _) a g b Hg) as [Hlen _].
          intros ->. simpl in Hlen. lia.
        - apply Forall_forall. intros w Hin. rewrite Forall_forall in Hwords.
          apply Hwords. eapply chunks_members; eassumption. }
      assert (Hlines : Forall solid (map (join (js " ")) groups)).
      { apply Forall_forall. intros l Hl. apply in_map_iff in Hl.
        destruct Hl as [g [<- Hg]]. destruct (Hgroups g Hg) as [Hne Hg'].
        apply solid_join; [exact Hne|].
        eapply Forall_impl; [|exact Hg']. intros w. apply word_solid. }
      assert (Hcat : concat groups = words).
      { apply chunks_concat; [exact Hn|lia]. }
      assert (Hgne : groups <> []).
      { intros E. rewrite E in Hcat. cbn [concat] in Hcat. symmetry in Hcat.
        exact (@wordsFrom_not_nil (c0 :: t0) false [] Hcat). }
      assert (Hmne : map (join (js " ")) groups <> []).
      { destruct groups; [congruence|discriminate]. }
      destruct (solid_join [LF] Hmne Hlines) as [_ Hout].
      rewrite (trim_id Hout).
      rewrite (@wordsOf_join LF _ eq_refl Hlines Hmne).
      rewrite map_map.
      rewrite <- Hcat. f_equal.
      rewrite <- (map_id groups) at 2. apply map_ext_in.
      intros g Hg. destruct (Hgroups g Hg). apply wordsOf_line; assumption. }
  split; [exact Hw|].
  rewrite <- H. unfold wrapByWords.
  destruct (Z.leb count 0); [reflexivity|].
  rewrite !split_words, Hw. reflexivity.
Qed.

Lemma wrapByWords_keeps_words_witness :
  wordsOf (trim (js "a b\nc")) = wordsOf (trim (js "  a \t b c ")) /\
  wrapByWords (js "a b\nc") 2 = Returns (js "a b\nc").
Proof.
  apply (@wrapByWords_keeps_words (js "  a \t b c ") 2 (js "a b\nc")).
  vm_compute. reflexivity.
Defined.

(** ** Unordered lists *)

Lemma bulletItems_items ig :
  includes ig (js "li") = false ->
  forall xs, Forall plain_item xs -> forall p,
  replace_from f_gi re_li
    (fun (_ : unit) mt =>
       (if includes ig (js "li") then whole mt
        else js "- " ++ group 1 mt ++ js "\n", tt))
    tt p (liItems xs)
  = bulleted xs.
Proof.
  intros Hli. rewrite Hli. induction 1 as [|x xs Hx Hxs IH]; intros p.
  - apply replace_from_end.
    apply heads_miss_nil with (c := "<"%char); [apply caseless_lt|reflexivity].
  - unfold liItems. cbn [map concat]. fold (liItems xs). rewrite <- !app_assoc.
    destruct (li_here (liItems xs) p Hx) as [mt [st' [Hm [Hw [Hg Hr]]]]].
    rewrite replace_from_hit with (mt := mt) (st' := st') (w := "<"%char)
      (ws := js "li>" ++ x ++ js "</li>"); [|exact Hm|rewrite Hw; reflexivity].
    cbn [fst snd]. rewrite Hg, Hr, IH.
    unfold bulleted. cbn [map concat]. rewrite <- !app_assoc. reflexivity.
Qed.

Lemma items_clear_ul s : forall xs, Forall plain_item xs ->
  clear_then f_gis (js "</ul>") (P_dot f_gis) s (liItems xs).
Proof.
  induction 1 as [|x xs [Hn Hl] Hxs IH]; [exact I|].
  unfold liItems. cbn [map concat]. fold (liItems xs).
  rewrite <- !app_assoc.
  apply clear_then_app; [repeat split|].
  apply clear_then_app; [apply clear_then_plain; [exact Hn|apply forallb_const_true]|].
  apply clear_then_app; [repeat split|].
  exact IH.
Qed.

Lemma ul_here xs tail p :
  Forall plain_item xs ->
  exists mt st',
    match_here f_gis re_ul p (js "<ul>" ++ liItems xs ++ js "</ul>" ++ tail)
    = Some (mt, st') /\
    whole mt = js "<ul>" ++ liItems xs ++ js "</ul>" /\
    group 1 mt = liItems xs /\ rest st' = tail.
Proof.
  intros Hx. change re_ul with (block_re (js "<ul>") (js "</ul>")).
  apply block_here; [discriminate|].
  apply items_clear_ul. exact Hx.
Qed.

Lemma ulPass_doc ig render tail :
  includes ig (js "ul") = false ->
  (forall xs, Forall plain_item xs -> bulletItems ig (liItems xs) = render xs) ->
  ~ In "<"%char tail ->
  forall blocks, plain_blocks blocks -> forall p,
  replace_from f_gis re_ul
    (fun (_ : unit) mt =>
       (if includes ig (js "ul") then whole mt else bulletItems ig (group 1 mt), tt))
    tt p (ulDoc blocks tail)
  = olOut render blocks tail.
Proof.
  intros Hul Hrender Htail. rewrite Hul.
  induction 1 as [|[t xs] bs [Ht Hxs] Hbs IH]; intros p.
  - apply replace_from_plain_end; [reflexivity|exact Htail].
  - cbn [ulDoc olOut fst snd] in *.
    match goal with
    | |- replace_from ?fl ?r ?cb ?a p (t ++ ?s) = _ =>
        destruct (@replace_from_plain unit fl r cb a eq_refl t p s Ht) as [q E]
    end.
    rewrite E. f_equal.
    destruct (ul_here (ulDoc bs tail) q Hxs) as [mt [st' [Hm [Hw [Hg Hr]]]]].
    rewrite replace_from_hit with (mt := mt) (st' := st') (w := "<"%char)
      (ws := js "ul>" ++ liItems xs ++ js "</ul>"); [|exact Hm|rewrite Hw; reflexivity].
    cbn [fst snd]. rewrite Hg, Hr, IH. rewrite (Hrender _ Hxs).
    reflexivity.
Qed.

(** X9. The unordered-list pass of preserveFormat, on a document of [<ul>]
    blocks whose items are [<li>...</li>] with a content on one line and
    without markup: when neither 'ul' nor 'li' is in ignoreTags every block
    is replaced by its items, each as "- ", its content and a newline; when
    'li' is in ignoreTags and 'ul' is not, the items stay as they are and
    only the markers of the block are dropped; when 'ul' is in ignoreTags
    the pass leaves any text as it is. *)
Theorem ulPass_bullets_items :
  (forall ig blocks tail,
      includes ig (js "ul") = false -> includes ig (js "li") = false ->
      plain_blocks blocks -> ~ In "<"%char tail ->
      ulPass ig (ulDoc blocks tail) = olOut bulleted blocks tail) /\
  (forall ig blocks tail,
      includes ig (js "ul") = false -> includes ig (js "li") = true ->
      plain_blocks blocks -> ~ In "<"%char tail ->
      ulPass ig (ulDoc blocks tail) = olOut liItems blocks tail) /\
  (forall ig html, includes ig (js "ul") = true -> ulPass ig html = html).
Proof.
  split; [|split].
  - intros ig blocks tail Hul Hli Hb Ht. unfold ulPass. rewrite replaceAll_from.
    apply ulPass_doc; try assumption.
    intros xs Hxs. unfold bulletItems. rewrite replaceAll_from.
    apply bulletItems_items; assumption.
  - intros ig blocks tail Hul Hli Hb Ht. unfold ulPass. rewrite replaceAll_from.
    apply ulPass_doc; try assumption.
    intros xs Hxs. unfold bulletItems. apply replaceAll_whole.
    intros mt. rewrite Hli. reflexivity.
  - intros ig html Hul. unfold ulPass. apply replaceAll_whole.
    intros mt. rewrite Hul. reflexivity.
Qed.

Lemma ulPass_bullets_items_witness :
  ulPass [] (ulDoc [(js "A ", [js "x"; js "y"]); (js " B ", [js "z"])] (js " C"))
  = olOut bulleted [(js "A ", [js "x"; js "y"]); (js " B ", [js "z"])] (js " C").
Proof.
  apply (proj1 ulPass_bullets_items); try reflexivity.
  - repeat constructor; cbn; try reflexivity;
      intros H; repeat (destruct H as [H|H]; [discriminate|]); exact H.
  - cbn. intros H; repeat (destruct H as [H|H]; [discriminate|]); exact H.
Defined.

(** ** The first match of an expression, piece by piece *)

Lemma leads_eps fl s cs : leads fl Eps s cs s cs.
Proof. intros p. exists p, []. reflexivity. Qed.

Lemma leads_seq fl r1 r2 s cs s1 cs1 s2 cs2 :
  leads fl r1 s cs s1 cs1 -> leads fl r2 s1 cs1 s2 cs2 ->
  leads fl (Seq r1 r2) s cs s2 cs2.
Proof.
  intros H1 H2 p. destruct (H1 p) as [q1 [l1 E1]]. destruct (H2 q1) as [q2 [l2 E2]].
  rewrite run_seq, E1. cbn [flat_map]. rewrite E2. cbn [app].
  eexists _, _. reflexivity.
Qed.

Lemma leads_one fl r P x s cs :
  run fl r = one P -> P x = true -> leads fl r (x :: s) cs s cs.
Proof.
  intros H Hx p. rewrite H. unfold one. cbn [rest]. rewrite Hx. unfold step.
  cbn [caps]. eexists _, _. reflexivity.
Qed.

Lemma leads_chr fl c x s cs : same fl x c = true -> leads fl (Chr c) (x :: s) cs s cs.
Proof. intros H. apply leads_one with (P := fun y => same fl y c); [reflexivity|exact H]. Qed.

Lemma leads_alt_l fl r1 r2 s cs s' cs' :
  leads fl r1 s cs s' cs' -> leads fl (Alt r1 r2) s cs s' cs'.
Proof.
  intros H p. destruct (H p) as [q [l E]]. rewrite run_alt, E. cbn [app].
  eexists _, _. reflexivity.
Qed.

Lemma leads_alt_r fl r1 r2 s cs s' cs' :
  (forall p, run fl r1 {| rest := s; prev := p; caps := cs |} = []) ->
  leads fl r2 s cs s' cs' -> leads fl (Alt r1 r2) s cs s' cs'.
Proof.
  intros H1 H p. destruct (H p) as [q [l E]]. rewrite run_alt, H1, E. cbn [app].
  eexists _, _. reflexivity.
Qed.

Lemma leads_grp fl i r s cs s' cs' w :
  leads fl r s cs s' cs' -> s = w ++ s' ->
  leads fl (Grp i r) s cs s' ((i, w) :: cs').
Proof.
  intros H E p. destruct (H p) as [q [l El]]. rewrite run_grp, El. cbn [map].
  unfold set_cap at 1. cbn [rest prev caps].
  rewrite (@consumed_reads _ _ w) by (unfold reads; cbn [rest]; exact E).
  eexists _, _. reflexivity.
Qed.

(** A literal reads every text that is the same up to case. *)
Lemma again_same fl : forall pat name s p cs,
  Forall2 (fun x c => same fl x c = true) name pat ->
  exists q, again fl pat {| rest := name ++ s; prev := p; caps := cs |}
            = [{| rest := s; prev := q; caps := cs |}].
Proof.
  induction pat as [|a pat IH]; intros name s p cs H; inversion H; subst.
  - exists p. reflexivity.
  - cbn [again app rest]. rewrite H3. unfold step. cbn [caps]. apply IH. assumption.
Qed.

Lemma leads_lit fl pat name s cs :
  Forall2 (fun x c => same fl x c = true) name pat ->
  leads fl (seq (map Chr pat)) (name ++ s) cs s cs.
Proof.
  intros H p. rewrite run_lit. destruct (@again_same fl _ _ s p cs H) as [q E].
  rewrite E. eexists _, _. reflexivity.
Qed.

Lemma leads_bref fl i w name s cs :
  get_cap i cs = Some w ->
  Forall2 (fun x c => same fl x c = true) name w ->
  leads fl (Bref i) (name ++ s) cs s cs.
Proof.
  intros Hg H p. cbn [run caps]. rewrite Hg. destruct (@again_same fl _ _ s p cs H) as [q E].
  rewrite E. eexists _, _. reflexivity.
Qed.

Lemma leads_star fl r P a b cs :
  run fl r = one P -> forallb P a = true -> stops P b ->
  leads fl (Star true r) (a ++ b) cs b cs.
Proof.
  intros H Ha Hb p. rewrite run_star, H.
  rewrite repeat_greedy_one by (cbn [rest]; lia).
  destruct (@walk_greedy_all P cs b Hb a p Ha) as [l E]. rewrite E.
  eexists _, _. reflexivity.
Qed.

Section LazyWalk.
Variables (fl : flags) (close : text) (P : ascii -> bool).
Variable F : mstate -> list mstate.
Variable cs : list (nat * text).
Hypothesis F_fails : forall s q,
  starts_with fl close s = false -> F {| rest := s; prev := q; caps := cs |} = [].

Lemma lazy_find_cs s : forall content p,
  clear_then fl close P s content ->
  exists q, flat_map F (walk_lazy P cs p (content ++ s))
            = flat_map F (walk_lazy P cs q s).
Proof.
  induction content as [|c content IH]; intros p H.
  - exists p. reflexivity.
  - cbn [clear_then] in H. destruct H as [Hp [Hs H]].
    cbn [app walk_lazy]. rewrite Hp. cbn [flat_map].
    rewrite F_fails by exact Hs. cbn [app]. apply IH. exact H.
Qed.

End LazyWalk.

(** A lazy group reads up to the first place from which what follows, [K],
    can match: [K] fails wherever the text does not start with [close]. *)
Lemma leads_lazy_grp fl i K close content s cs s' cs' :
  (forall s0 q w, starts_with fl close s0 = false ->
     run fl K {| rest := s0; prev := q; caps := (i, w) :: cs |} = []) ->
  clear_then fl close (P_dot fl) s content ->
  leads fl K s ((i, content) :: cs) s' cs' ->
  leads fl (Seq (Grp i (lazy Dot)) K) (content ++ s) cs s' cs'.
Proof.
  intros HK Hclear Hlead p.
  rewrite run_seq. unfold lazy. rewrite run_grp, run_star.
  change (run fl Dot) with (one (P_dot fl)).
  rewrite repeat_lazy_one by (cbn [rest]; lia).
  set (st1 := {| rest := content ++ s; prev := p; caps := cs |}).
  set (F := fun st => run fl K (set_cap i st1 st)).
  assert (EF : forall l, flat_map (run fl K) (map (set_cap i st1) l) = flat_map F l).
  { intros l. rewrite flat_map_concat_map, map_map, <- flat_map_concat_map.
    reflexivity. }
  rewrite EF.
  assert (HF : forall s0 q, starts_with fl close s0 = false ->
                 F {| rest := s0; prev := q; caps := cs |} = []).
  { intros s0 q H. unfold F, set_cap. cbn [rest prev caps]. apply HK. exact H. }
  destruct (@lazy_find_cs fl close (P_dot fl) F cs HF s content p Hclear) as [q2 E2].
  rewrite E2.
  destruct (walk_lazy_first (P_dot fl) cs q2 s) as [l2 E3].
  rewrite E3. cbn [flat_map]. unfold F at 1. unfold set_cap at 1. cbn [rest prev caps].
  rewrite (@consumed_reads st1 _ content) by reflexivity.
  destruct (Hlead q2) as [q3 [l3 E4]]. rewrite E4. cbn [app].
  eexists _, _. reflexivity.
Qed.

(** The same without a group. *)
Lemma leads_lazy fl K close content s cs s' cs' :
  (forall s0 q, starts_with fl close s0 = false ->
     run fl K {| rest := s0; prev := q; caps := cs |} = []) ->
  clear_then fl close (P_dot fl) s content ->
  leads fl K s cs s' cs' ->
  leads fl (Seq (lazy Dot) K) (content ++ s) cs s' cs'.
Proof.
  intros HK Hclear Hlead p.
  rewrite run_seq. unfold lazy. rewrite run_star.
  change (run fl Dot) with (one (P_dot fl)).
  rewrite repeat_lazy_one by (cbn [rest]; lia).
  destruct (@lazy_find_cs fl close (P_dot fl) (run fl K) cs HK s content p Hclear)
    as [q2 E2].
  rewrite E2.
  destruct (walk_lazy_first (P_dot fl) cs q2 s) as [l2 E3].
  rewrite E3. cbn [flat_map].
  destruct (Hlead q2) as [q3 [l3 E4]]. rewrite E4. cbn [app].
  eexists _, _. reflexivity.
Qed.

(** From the first match of the whole expression to the match at this place. *)
Lemma leads_here fl r w s cs :
  leads fl r (w ++ s) [] s cs ->
  forall p, exists mt st',
    match_here fl r p (w ++ s) = Some (mt, st') /\
    whole mt = w /\ groups mt = cs /\ rest st' = s.
Proof.
  intros H p. destruct (H p) as [q [l E]]. unfold match_here, start. rewrite E.
  eexists _, _. split; [reflexivity|]. cbn [whole groups rest caps].
  split; [|split; reflexivity].
  apply consumed_reads. reflexivity.
Qed.

(** What an expression that starts with a literal needs. *)
Lemma lit_fails fl close K st :
  starts_with fl close (rest st) = false ->
  run fl (Seq (seq (map Chr close)) K) st = [].
Proof.
  intros H. rewrite run_seq, run_lit, again_fails by exact H. reflexivity.
Qed.

(** ** Documents: texts with marked places between them *)

Lemma replace_from_quiet A fl r (cb : A -> rmatch -> text * A) a d :
  (forall p s, d s = false -> match_here fl r p s = None) ->
  forall t p s, quiet d s t ->
    exists q, replace_from fl r cb a p (t ++ s) = t ++ replace_from fl r cb a q s.
Proof.
  intros Hd. induction t as [|c t IH]; intros p s H.
  - exists p. reflexivity.
  - cbn [quiet] in H. destruct H as [Hc H]. cbn [app].
    rewrite replace_from_miss by (apply Hd; exact Hc).
    destruct (IH (Some c) s H) as [q E]. exists q. rewrite E. reflexivity.
Qed.

Lemma starts_with_follow fl k s :
  caseless k -> follows k s ->
  forall pat', ~ In k pat' ->
  forall u, starts_with fl pat' (u ++ s) = starts_with fl pat' u.
Proof.
  intros Hk Hf. induction pat' as [|b pat' IH]; intros Hn u; [reflexivity|].
  destruct u as [|y u].
  - cbn [app starts_with]. destruct s as [|c s']; [reflexivity|].
    rewrite (Hf c s' eq_refl).
    destruct (same fl k b) eqn:E; [|reflexivity].
    rewrite same_sym in E. apply Hk in E. subst b.
    exfalso. apply Hn. left. reflexivity.
  - cbn [app starts_with]. f_equal. apply IH.
    intros H. apply Hn. right. exact H.
Qed.

Lemma marker_follow fl k s pat c t :
  caseless k -> follows k s -> marker k pat ->
  starts_with fl pat (c :: t ++ s) = starts_with fl pat (c :: t).
Proof.
  intros Hk Hf [pat' [-> Hn]]. cbn [starts_with]. f_equal.
  apply starts_with_follow with (k := k); assumption.
Qed.

Lemma mentions_clear fl k pat P s :
  caseless k -> marker k pat -> follows k s ->
  forall x, mentions fl pat x = false -> forallb P x = true ->
  clear_then fl pat P s x.
Proof.
  intros Hk Hm Hf. induction x as [|c x IH]; intros H HP; [exact I|].
  cbn [mentions] in H. apply orb_false_elim in H. destruct H as [H1 H2].
  cbn [forallb] in HP. apply andb_prop in HP. destruct HP as [Hc HP].
  cbn [clear_then]. split; [exact Hc|]. split; [|apply IH; assumption].
  rewrite (@marker_follow fl k s pat c x) by assumption. exact H1.
Qed.

Lemma free_quiet fl k pats s :
  caseless k -> Forall (marker k) pats -> follows k s ->
  forall t, free_of fl pats t = true -> quiet (opensAny fl pats) s t.
Proof.
  intros Hk Hm Hf. induction t as [|c t IH]; intros H; [exact I|].
  cbn [quiet]. split.
  - unfold opensAny, free_of in *. clear IH.
    induction Hm as [|pat pats Hp Hm IHm]; [reflexivity|].
    cbn [forallb existsb] in *. apply andb_prop in H. destruct H as [H1 H2].
    rewrite (@marker_follow fl k s pat c t) by assumption.
    apply negb_true_iff in H1. cbn [mentions] in H1.
    apply orb_false_elim in H1. destruct H1 as [H1 _]. rewrite H1. cbn [orb].
    apply IHm. exact H2.
  - apply IH. unfold free_of in *. clear IH.
    induction pats as [|pat pats IHp]; [reflexivity|].
    cbn [forallb] in *. apply andb_prop in H. destruct H as [H1 H2].
    inversion Hm; subst.
    apply negb_true_iff in H1. cbn [mentions] in H1.
    apply orb_false_elim in H1. destruct H1 as [_ H1]. rewrite H1. cbn [negb andb].
    apply IHp; assumption.
Qed.

Lemma opensAny_nil fl k pats : Forall (marker k) pats -> opensAny fl pats [] = false.
Proof.
  induction 1 as [|pat pats [pat' [-> _]] _ IH]; [reflexivity|].
  cbn [opensAny existsb starts_with]. exact IH.
Qed.

Lemma follows_nil k : follows k [].
Proof. intros c s' H. discriminate. Qed.

Lemma follows_cons k s : follows k (k :: s).
Proof. intros c s' H. injection H as <- _. reflexivity. Qed.

Section Interleave.
Variables (fl : flags) (r : regex) (cb : rmatch -> text) (k : ascii) (pats : list text).
Hypothesis k_caseless : caseless k.
Hypothesis pats_marker : Forall (marker k) pats.
Hypothesis demand : forall p s, opensAny fl pats s = false -> match_here fl r p s = None.
Variables (B : Type) (okB : B -> Prop) (mark out : B -> text).
Hypothesis hit : forall b, okB b -> forall p s, exists mt st',
  match_here fl r p (mark b ++ s) = Some (mt, st') /\
  whole mt = mark b /\ cb mt = out b /\ rest st' = s.
Hypothesis mark_head : forall b, okB b -> exists m, mark b = k :: m.

(** A replacement over a document: the marked places are replaced, the
    texts between them are kept. *)
Lemma replace_interleave : forall blocks tail,
  Forall (fun tb => free_of fl pats (fst tb) = true /\ okB (snd tb)) blocks ->
  free_of fl pats tail = true ->
  replaceAll fl r cb (interleave (map (fun tb => (fst tb, mark (snd tb))) blocks) tail)
  = interleave (map (fun tb => (fst tb, out (snd tb))) blocks) tail.
Proof.
  intros blocks tail Hb Ht. rewrite replaceAll_from. generalize (@None ascii).
  induction Hb as [|[t b] bs [Hx Hok] Hbs IH]; intros p.
  - cbn [map interleave].
    destruct (@replace_from_quiet unit fl r (fun _ mt => (cb mt, tt)) tt _ demand
                tail p [] (@free_quiet fl k pats [] k_caseless pats_marker
                             (@follows_nil k) tail Ht))
      as [q E].
    rewrite app_nil_r in E. rewrite E.
    rewrite replace_from_end; [apply app_nil_r|].
    apply demand. apply opensAny_nil with (k := k). exact pats_marker.
  - cbn [map interleave fst snd] in *.
    destruct (mark_head Hok) as [m Em].
    assert (Hf : follows k (mark b ++
                  interleave (map (fun tb => (fst tb, mark (snd tb))) bs) tail)).
    { rewrite Em. apply follows_cons. }
    destruct (@replace_from_quiet unit fl r (fun _ mt => (cb mt, tt)) tt _ demand
                t p _ (@free_quiet fl k pats _ k_caseless pats_marker Hf t Hx))
      as [q E].
    rewrite E. f_equal.
    destruct (hit Hok q (interleave (map (fun tb => (fst tb, mark (snd tb))) bs) tail))
      as [mt [st' [Hm [Hw [Hc Hr]]]]].
    rewrite replace_from_hit with (mt := mt) (st' := st') (w := k) (ws := m);
      [|exact Hm|rewrite Hw; exact Em].
    cbn [fst snd]. rewrite Hc, Hr, IH. reflexivity.
Qed.

End Interleave.

(** ** Letters in either case *)

Lemma lower_same fl x :
  icase fl = true -> isAscii7 (lowerChar x) = true -> same fl x (lowerChar x) = true.
Proof.
  destruct fl as [[] d]; [|discriminate]. intros _.
  each_ascii x; intros H; try reflexivity; discriminate H.
Qed.

Lemma lower_plain x :
  between "a" "z" (lowerChar x) = false -> isAscii7 (lowerChar x) = true ->
  lowerChar x = x.
Proof. each_ascii x; intros H1 H2; try reflexivity; discriminate. Qed.

(** A text whose lower case is [pat] is read by the literal [pat] under [i]. *)
Lemma lower_reads fl : icase fl = true -> forall pat name,
  forallb isAscii7 pat = true -> toLowerCase name = pat ->
  Forall2 (fun x c => same fl x c = true) name pat.
Proof.
  intros Hi. induction pat as [|c pat IH]; intros name Hp E.
  - destruct name; [constructor|discriminate].
  - destruct name as [|x name]; [discriminate|].
    cbn [toLowerCase map] in E. injection E as Ex En.
    cbn [forallb] in Hp. apply andb_prop in Hp. destruct Hp as [Hc Hp].
    constructor; [|apply IH; assumption].
    rewrite <- Ex. apply lower_same; [exact Hi|]. rewrite Ex. exact Hc.
Qed.

Lemma same_self fl (s : text) : Forall2 (fun x c => same fl x c = true) s s.
Proof. induction s; constructor; [apply same_refl|assumption]. Qed.

(** ** Headings and paragraphs *)

Lemma close_name_cases name :
  In (toLowerCase name) closeNames ->
  (exists c, name = [c] /\ same f_gi c "p" = true /\ same f_gi c "h" = false) \/
  (exists c d, name = [c; d] /\ same f_gi c "h" = true /\ between "1" "6" d = true).
Proof.
  intros H.
  assert (Hh : forall c d y, toLowerCase name = ["h"%char; y] ->
                 name = [c; d] -> between "1" "6" y = true ->
                 same f_gi c "h" = true /\ between "1" "6" d = true).
  { intros c d y E -> Hy. cbn [toLowerCase map] in E. injection E as Ec Ed. split.
    - rewrite <- Ec. apply lower_same; [reflexivity|]. rewrite Ec. reflexivity.
    - rewrite <- (@lower_plain d); rewrite Ed; [exact Hy| |];
        revert Hy; each_ascii y; intros Hy; try discriminate Hy; reflexivity. }
  unfold closeNames in H. cbn [In] in H.
  destruct name as [|c [|d [|e name]]].
  - repeat (destruct H as [H|H]; [discriminate|]). destruct H.
  - left. exists c. split; [reflexivity|].
    repeat (destruct H as [H|H]; [try discriminate|]); [|destruct H].
    symmetry in H. cbn [toLowerCase map] in H. injection H as Hc.
    assert (Hp : same f_gi c "p" = true).
    { rewrite <- Hc. apply lower_same; [reflexivity|]. rewrite Hc. reflexivity. }
    split; [exact Hp|]. unfold same in *. apply Ascii.eqb_eq in Hp. rewrite Hp.
    reflexivity.
  - right. exists c, d. split; [reflexivity|].
    repeat (destruct H as [H|H];
            [try discriminate; apply (Hh c d _ (eq_sym H) eq_refl); reflexivity|]).
    destruct H.
  - repeat (destruct H as [H|H]; [discriminate|]). destruct H.
Qed.

Lemma close_here name s p :
  In (toLowerCase name) closeNames ->
  exists mt st',
    match_here f_gi re_close p (closeTag name ++ s) = Some (mt, st') /\
    whole mt = closeTag name /\ group 1 mt = name /\ rest st' = s.
Proof.
  intros H.
  assert (L : leads f_gi re_close (closeTag name ++ s) [] s [(1, name)]).
  { unfold re_close, closeTag. rewrite <- !app_assoc.
    unfold seq at 1. cbn [fold_right].
    change (lit "</") with (seq (map Chr (js "</"))).
    apply leads_seq with (s1 := name ++ js ">" ++ s) (cs1 := []);
      [apply leads_lit; apply same_self|].
    apply leads_seq with (s1 := js ">" ++ s) (cs1 := [(1, name)]).
    - apply leads_grp; [|reflexivity].
      destruct (@close_name_cases name H) as [[c [-> [Hp Hh]]]|[c [d [-> [Hh Hd]]]]].
      + apply leads_alt_r.
        * intros q. cbn [app]. rewrite run_seq_chr, Hh. reflexivity.
        * apply leads_chr. exact Hp.
      + apply leads_alt_l. cbn [app].
        apply leads_seq with (s1 := d :: js ">" ++ s) (cs1 := []);
          [apply leads_chr; exact Hh|].
        eapply leads_one; [reflexivity|].
        cbn [existsb item_has xorb]. rewrite Hd. reflexivity.
    - apply leads_seq with (s1 := s) (cs1 := [(1, name)]);
        [apply leads_chr; reflexivity|apply leads_eps]. }
  destruct (@leads_here _ _ _ _ _ L p) as [mt [st' [Hm [Hw [Hg Hr]]]]].
  exists mt, st'. repeat split; try assumption.
  unfold group. rewrite Hg. reflexivity.
Qed.

Lemma marker_lt pat' : ~ In "<"%char pat' -> marker "<" ("<"%char :: pat').
Proof. intros H. exists pat'. split; [reflexivity|exact H]. Qed.

Lemma digit_16 d :
  xorb false (existsb (item_has f_gi d) [IRange "1" "6"]) = true ->
  existsb (Ascii.eqb d) ["1"; "2"; "3"; "4"; "5"; "6"]%char = true.
Proof. each_ascii d; intros H; try discriminate H; reflexivity. Qed.

Lemma same_digit d k : between "0" "9" k = true -> same f_gi d k = Ascii.eqb d k.
Proof. each_ascii k; intros H; try discriminate H; each_ascii d; reflexivity. Qed.

(** The expression of headings and paragraphs matches at a closing tag of
    [p] or [h1] to [h6] only. *)
Lemma close_demand p s :
  opensAny f_gi closePats s = false -> match_here f_gi re_close p s = None.
Proof.
  intros H. unfold match_here, re_close, start.
  unfold seq at 1. cbn [fold_right].
  change (lit "</") with (seq (map Chr (js "</"))).
  destruct (starts_with f_gi (js "</") s) eqn:E0; [|rewrite lit_fails; auto].
  destruct s as [|a [|b s2]]; try discriminate E0.
  { cbn [starts_with js] in E0. change (js "</") with ["<"; "/"]%char in E0.
    cbn [starts_with] in E0. rewrite andb_false_r in E0. discriminate. }
  change (js "</") with ["<"; "/"]%char in E0. cbn [starts_with] in E0.
  apply andb_prop in E0. destruct E0 as [Ea E0].
  apply andb_prop in E0. destruct E0 as [Eb _].
  apply caseless_lt in Ea. apply caseless_slash in Eb. subst a b.
  assert (Hopen : forall c d e rest0,
            s2 = c :: d :: e :: rest0 ->
            same f_gi c "h" = true ->
            xorb false (existsb (item_has f_gi d) [IRange "1" "6"]) = true ->
            same f_gi e ">" = true -> False).
  { intros c d e rest0 -> Hc Hd He. apply digit_16 in Hd.
    unfold opensAny, closePats, closeNames, closeTag in H.
    cbn [map existsb] in H.
    repeat match type of H with
           | context [starts_with f_gi (js "</" ++ js ?n ++ js ">") ?t] =>
               change (starts_with f_gi (js "</" ++ js n ++ js ">") t)
                 with (starts_with f_gi
                         ("<"%char :: "/"%char :: js n ++ [">"%char]) t) in H
           end.
    cbn [starts_with js app] in H.
    rewrite !same_refl, Hc, He in H. cbn [andb] in H.
    rewrite !same_digit in H by reflexivity.
    rewrite !andb_true_r in H.
    cbn [existsb] in Hd. rewrite orb_false_r in Hd.
    repeat (apply orb_false_elim in H; destruct H as [?H H]).
    repeat (apply orb_prop in Hd; destruct Hd as [Hd|Hd]);
      congruence. }
  assert (Hp : forall c d rest0,
            s2 = c :: d :: rest0 -> same f_gi c "p" = true ->
            same f_gi d ">" = true -> False).
  { intros c d rest0 -> Hc Hd.
    unfold opensAny, closePats, closeNames, closeTag in H.
    cbn [map existsb] in H. rewrite orb_false_r in H.
    repeat (apply orb_false_elim in H; destruct H as [_ H]).
    change (js "</" ++ js "p" ++ js ">") with ["<"; "/"; "p"; ">"]%char in H.
    cbn [starts_with] in H. rewrite !same_refl, Hc, Hd in H. discriminate H. }
  rewrite run_seq, run_lit. change (js "</") with ["<"; "/"]%char.
  cbn [again rest]. rewrite same_refl. unfold step. cbn [again rest caps].
  rewrite same_refl. cbn [again rest caps flat_map].
  rewrite app_nil_r, run_seq, run_grp, run_alt.
  destruct s2 as [|c s3]; [reflexivity|].
  rewrite run_seq_chr, run_chr. unfold one at 1. cbn [rest].
  destruct (same f_gi c "h") eqn:Eh.
  - assert (Ep : same f_gi c "p" = false).
    { unfold same in *. apply Ascii.eqb_eq in Eh. rewrite Eh. reflexivity. }
    rewrite Ep, app_nil_r.
    change (run f_gi (Cls false [IRange "1" "6"]))
      with (one (fun x => xorb false (existsb (item_has f_gi x) [IRange "1" "6"]))).
    unfold one. cbn [rest]. destruct s3 as [|d s4]; [reflexivity|].
    destruct (xorb false (existsb (item_has f_gi d) [IRange "1" "6"])) eqn:Ed;
      [|reflexivity].
    cbn [map flat_map]. unfold set_cap, step. cbn [rest prev caps].
    rewrite app_nil_r. destruct s4 as [|e s5]; [reflexivity|].
    rewrite run_seq_chr. destruct (same f_gi e ">") eqn:Ee; [|reflexivity].
    exfalso. apply (Hopen c d e s5 eq_refl Eh Ed Ee).
  - cbn [app]. destruct (same f_gi c "p") eqn:Ep; [|reflexivity].
    cbn [map flat_map]. unfold set_cap, step. cbn [rest prev caps].
    rewrite app_nil_r. destruct s3 as [|d s4]; [reflexivity|].
    rewrite run_seq_chr. destruct (same f_gi d ">") eqn:Ed; [|reflexivity].
    exfalso. apply (Hp c d s4 eq_refl Ep Ed).
Qed.

Lemma closePats_marker : Forall (marker "<") closePats.
Proof.
  repeat constructor; apply marker_lt;
    intros H; repeat (destruct H as [H|H]; [discriminate|]); exact H.
Qed.

(** X10. The pass of headings and paragraphs, on any document made of texts
    in which no closing tag of [p] or [h1] to [h6] occurs and, between
    them, such closing tags in any letter case: every such tag becomes two
    newlines, unless its lower-cased name is in ignoreTags, in which case it
    stays; the texts between are kept, whatever other markup they hold. *)
Theorem closePass_closing_tags (ig : list text) (blocks : list (text * text))
  (tail : text) :
  Forall (fun tb => free_of f_gi closePats (fst tb) = true /\
                    In (toLowerCase (snd tb)) closeNames) blocks ->
  free_of f_gi closePats tail = true ->
  closePass ig (interleave (map (fun tb => (fst tb, closeTag (snd tb))) blocks) tail)
  = interleave
      (map (fun tb => (fst tb,
                       if includes ig (toLowerCase (snd tb)) then closeTag (snd tb)
                       else js "\n\n")) blocks) tail.
Proof.
  intros Hb Ht. unfold closePass.
  apply (@replace_interleave f_gi re_close
           (fun mt => if includes ig (toLowerCase (group 1 mt)) then whole mt
                      else js "\n\n")
           "<"%char closePats caseless_lt closePats_marker close_demand) with
    (okB := fun name => In (toLowerCase name) closeNames)
    (mark := closeTag)
    (out := fun name => if includes ig (toLowerCase name) then closeTag name
                        else js "\n\n"); try assumption.
  - intros name Hn p s. destruct (@close_here name s p Hn) as [mt [st' [Hm [Hw [Hg Hr]]]]].
    exists mt, st'. repeat split; try assumption. rewrite Hg, Hw. reflexivity.
  - intros name _. eexists. reflexivity.
Qed.

Lemma closePass_closing_tags_witness :
  closePass [js "h2"]
    (interleave [(js "<p>a</b>", closeTag (js "P")); (js "<h2>b", closeTag (js "H2"))]
       (js "c"))
  = interleave [(js "<p>a</b>", js "\n\n"); (js "<h2>b", closeTag (js "H2"))] (js "c").
Proof.
  apply (@closePass_closing_tags [js "h2"]
           [(js "<p>a</b>", js "P"); (js "<h2>b", js "H2")] (js "c")).
  - repeat constructor; cbn; tauto.
  - reflexivity.
Defined.

(** ** Line breaks *)

Lemma leads_spaces fl w b cs :
  forallb isSpace w = true -> stops isSpace b ->
  leads fl (star ws) (w ++ b) cs b cs.
Proof.
  intros Hw Hb. unfold star. apply leads_star with (P := P_ws fl).
  - reflexivity.
  - rewrite (@forallb_ext _ _ w (P_ws_space fl)). exact Hw.
  - destruct b as [|x b]; [exact I|]. cbn [stops] in *. rewrite P_ws_space. exact Hb.
Qed.

Lemma br_here m s p :
  brOk m ->
  exists mt st',
    match_here f_gi re_br p (brTag m ++ s) = Some (mt, st') /\
    whole mt = brTag m /\ rest st' = s.
Proof.
  intros [Hn Hw].
  assert (L : leads f_gi re_br (brTag m ++ s) [] s []).
  { unfold re_br, brTag. rewrite <- !app_assoc.
    unfold seq at 1. cbn [fold_right].
    change (lit "<br") with (seq (map Chr (js "<br"))).
    rewrite (app_assoc (js "<") (br_name m)).
    apply leads_seq with
      (s1 := br_space m ++ (if br_slash m then js "/" else []) ++ js ">" ++ s) (cs1 := []).
    { apply leads_lit. change (js "<br") with (js "<" ++ js "br").
      apply Forall2_app; [apply same_self|].
      apply lower_reads; [reflexivity|reflexivity|exact Hn]. }
    apply leads_seq with
      (s1 := (if br_slash m then js "/" else []) ++ js ">" ++ s) (cs1 := []).
    { apply leads_spaces; [exact Hw|]. destruct (br_slash m); reflexivity. }
    apply leads_seq with (s1 := js ">" ++ s) (cs1 := []).
    { unfold opt. destruct (br_slash m).
      - apply leads_alt_l. apply leads_chr. reflexivity.
      - apply leads_alt_r; [intros q; reflexivity|apply leads_eps]. }
    apply leads_seq with (s1 := s) (cs1 := []);
      [apply leads_chr; reflexivity|apply leads_eps]. }
  destruct (@leads_here _ _ _ _ _ L p) as [mt [st' [Hm [Hx [_ Hr]]]]].
  exists mt, st'. repeat split; assumption.
Qed.

Lemma brToNewline_doc (blocks : list (text * brMark)) (tail : text) :
  Forall (fun tb => free_of f_gi [js "<br"] (fst tb) = true /\ brOk (snd tb)) blocks ->
  free_of f_gi [js "<br"] tail = true ->
  brToNewline (interleave (map (fun tb => (fst tb, brTag (snd tb))) blocks) tail)
  = interleave (map (fun tb => (fst tb, js "\n")) blocks) tail.
Proof.
  intros Hb Ht. unfold brToNewline.
  apply (@replace_interleave f_gi re_br (fun _ => [LF]) "<"%char [js "<br"] caseless_lt)
    with (okB := brOk) (mark := brTag) (out := fun _ : brMark => js "\n");
    try assumption.
  - constructor; [|constructor]. apply marker_lt.
    intros H; repeat (destruct H as [H|H]; [discriminate|]); exact H.
  - intros p s H. unfold opensAny in H. cbn [existsb] in H.
    rewrite orb_false_r in H. unfold match_here, re_br.
    unfold seq at 1. cbn [fold_right].
    change (lit "<br") with (seq (map Chr (js "<br"))).
    rewrite lit_fails by exact H. reflexivity.
  - intros m Hm p s. destruct (@br_here m s p Hm) as [mt [st' [Hh [Hw Hr]]]].
    exists mt, st'. repeat split; assumption.
  - intros m _. eexists. reflexivity.
Qed.

(** X11. The pass of line breaks, on any document made of texts in which
    [<br] does not occur (in any letter case) and, between them, tags
    [<br>], [<br/>], [<BR />] and the like: when 'br' is not in ignoreTags
    every such tag becomes one newline and the texts are kept; when 'br' is
    in ignoreTags nothing changes. *)
Theorem brPass_line_breaks (ig : list text) (blocks : list (text * brMark))
  (tail : text) :
  Forall (fun tb => free_of f_gi [js "<br"] (fst tb) = true /\ brOk (snd tb)) blocks ->
  free_of f_gi [js "<br"] tail = true ->
  brPass ig (interleave (map (fun tb => (fst tb, brTag (snd tb))) blocks) tail)
  = if includes ig (js "br")
    then interleave (map (fun tb => (fst tb, brTag (snd tb))) blocks) tail
    else interleave (map (fun tb => (fst tb, js "\n")) blocks) tail.
Proof.
  intros Hb Ht. unfold brPass. destruct (includes ig (js "br")); [reflexivity|].
  cbn [negb]. apply brToNewline_doc; assumption.
Qed.

Lemma brPass_line_breaks_witness :
  brPass []
    (interleave
       [(js "a", brTag {| br_name := js "bR"; br_space := js " \t"; br_slash := true |});
        (js "<p>b", brTag {| br_name := js "br"; br_space := []; br_slash := false |})]
       (js "c"))
  = js "a\n<p>b\nc".
Proof.
  apply (@brPass_line_breaks []
           [(js "a", {| br_name := js "bR"; br_space := js " \t"; br_slash := true |});
            (js "<p>b", {| br_name := js "br"; br_space := []; br_slash := false |})]
           (js "c")).
  - repeat constructor.
  - reflexivity.
Defined.

(** ** Bold and italic *)

Lemma flat_map_nil A B (f : A -> list B) l :
  (forall x, In x l -> f x = []) -> flat_map f l = [].
Proof.
  induction l as [|x l IH]; intros H; [reflexivity|].
  cbn [flat_map]. rewrite (H x (or_introl eq_refl)). cbn [app].
  apply IH. intros y Hy. apply H. right. exact Hy.
Qed.

Lemma again_inv fl : forall pat st st',
  In st' (again fl pat st) ->
  starts_with fl pat (rest st) = true /\
  rest st' = skipn (length pat) (rest st) /\ caps st' = caps st.
Proof.
  induction pat as [|a pat IH]; intros st st' H.
  - destruct H as [<-|[]]. repeat split.
  - cbn [again] in H. destruct (rest st) as [|x xs] eqn:E; [destruct H|].
    destruct (same fl x a) eqn:Ex; [|destruct H].
    apply IH in H. cbn [rest caps step] in H. destruct H as [H1 [H2 H3]].
    cbn [starts_with length skipn]. rewrite Ex, H1. repeat split; assumption.
Qed.

Lemma starts_with_app fl : forall a b s,
  starts_with fl (a ++ b) s
  = starts_with fl a s && starts_with fl b (skipn (length a) s).
Proof.
  induction a as [|x a IH]; intros b s; [reflexivity|].
  destruct s as [|y s]; [reflexivity|].
  cbn [app starts_with length skipn]. rewrite IH, andb_assoc. reflexivity.
Qed.

(** A literal, a backreference and a character: they fail wherever the text
    does not start with the three of them. *)
Lemma bref_fails fl a i c K' name st :
  get_cap i (caps st) = Some name ->
  starts_with fl (a ++ name ++ [c]) (rest st) = false ->
  run fl (Seq (seq (map Chr a)) (Seq (Bref i) (Seq (Chr c) K'))) st = [].
Proof.
  intros Hg H. rewrite run_seq, run_lit. apply flat_map_nil. intros st1 H1.
  apply again_inv in H1. destruct H1 as [S1 [R1 C1]].
  rewrite run_seq. cbn [run]. rewrite C1, Hg. apply flat_map_nil. intros st2 H2.
  apply again_inv in H2. destruct H2 as [S2 [R2 C2]].
  unfold one. destruct (rest st2) as [|x xs] eqn:E; [reflexivity|].
  destruct (same fl x c) eqn:Ex; [exfalso|reflexivity].
  rewrite !starts_with_app, S1 in H. rewrite <- R1, S2, <- R2 in H.
  cbn [starts_with andb] in H. rewrite Ex in H. discriminate H.
Qed.

Lemma same_trans fl a b c : same fl a c = true -> same fl b c = true -> same fl a b = true.
Proof.
  unfold same. intros H1 H2. apply Ascii.eqb_eq in H1, H2. rewrite H1, H2.
  apply Ascii.eqb_refl.
Qed.

Lemma same_both fl : forall (n a b : text),
  Forall2 (fun x c => same fl x c = true) a n ->
  Forall2 (fun x c => same fl x c = true) b n ->
  Forall2 (fun x c => same fl x c = true) b a.
Proof.
  induction n as [|c n IH]; intros a b Ha Hb; inversion Ha; inversion Hb; subst.
  - constructor.
  - constructor; [|apply IH; assumption].
    eapply same_trans; eassumption.
Qed.

Lemma starts_with_same fl : forall n1 name n2 s,
  length n1 <= length n2 ->
  Forall2 (fun x c => same fl x c = true) name n2 ->
  starts_with fl n1 (name ++ s) = starts_with fl n1 n2.
Proof.
  induction n1 as [|a n1 IH]; intros name n2 s Hl H; [reflexivity|].
  inversion H as [|x y name' n2' Hx H']; subst; [simpl in Hl; lia|].
  cbn [app starts_with]. rewrite (IH name' n2' s) by (simpl in Hl; lia || assumption).
  f_equal. unfold same in *. apply Ascii.eqb_eq in Hx. rewrite Hx. reflexivity.
Qed.

Lemma lower_keeps_lt name : In "<"%char name -> In "<"%char (toLowerCase name).
Proof. intros H. apply (in_map lowerChar) in H. exact H. Qed.

Section Pair.
Variables (alt : regex) (n1 n2 : text).
Hypothesis alt_runs : forall st, run f_gi alt st = again f_gi n1 st ++ again f_gi n2 st.
Hypothesis n_len : length n1 <= length n2.
Hypothesis n_diff : starts_with f_gi n1 n2 = false.
Hypothesis n1_ascii : forallb isAscii7 n1 = true.
Hypothesis n2_ascii : forallb isAscii7 n2 = true.
Hypothesis n1_lt : ~ In "<"%char n1.
Hypothesis n2_lt : ~ In "<"%char n2.

Lemma pair_name name :
  In (toLowerCase name) [n1; n2] ->
  ~ In "<"%char name /\
  exists n, toLowerCase name = n /\ forallb isAscii7 n = true /\
            forall s cs, leads f_gi alt (name ++ s) cs s cs.
Proof.
  intros H. split.
  - intros Hin. apply lower_keeps_lt in Hin.
    destruct H as [H|[H|[]]]; rewrite <- H in Hin; contradiction.
  - exists (toLowerCase name). split; [reflexivity|].
    destruct H as [H|[H|[]]].
    + split; [rewrite <- H; exact n1_ascii|]. intros s cs p. rewrite alt_runs.
      destruct (@again_same f_gi n1 name s p cs) as [q E].
      { apply lower_reads; [reflexivity|exact n1_ascii|symmetry; exact H]. }
      rewrite E. eexists _, _. reflexivity.
    + split; [rewrite <- H; exact n2_ascii|]. intros s cs p. rewrite alt_runs.
      assert (Hn : Forall2 (fun x c => same f_gi x c = true) name n2).
      { apply lower_reads; [reflexivity|exact n2_ascii|symmetry; exact H]. }
      rewrite again_fails.
      * destruct (@again_same f_gi n2 name s p cs Hn) as [q E].
        rewrite E. eexists _, _. reflexivity.
      * cbn [rest]. rewrite (@starts_with_same f_gi n1 name n2 s n_len Hn).
        exact n_diff.
Qed.

Lemma pair_here m s p :
  pairOk [n1; n2] m ->
  exists mt st',
    match_here f_gi (re_pair alt) p (pairTag m ++ s) = Some (mt, st') /\
    whole mt = pairTag m /\ group 1 mt = pm_open m /\ group 2 mt = pm_content m /\
    rest st' = s.
Proof.
  intros [Hn [Hc [Hl Hm]]].
  destruct (@pair_name (pm_open m) Hn) as [Hlt [n [En [Ha Halt]]]].
  assert (L : leads f_gi (re_pair alt) (pairTag m ++ s) [] s
                [(2, pm_content m); (1, pm_open m)]).
  { unfold re_pair, pairTag, openTag. rewrite <- !app_assoc.
    unfold seq at 1. cbn [fold_right]. change (js "<") with ["<"%char]. cbn [app].
    apply leads_seq with
      (s1 := pm_open m ++ js ">" ++ pm_content m ++ closeTag (pm_close m) ++ s)
      (cs1 := []); [apply leads_chr; reflexivity|].
    apply leads_seq with
      (s1 := js ">" ++ pm_content m ++ closeTag (pm_close m) ++ s)
      (cs1 := [(1, pm_open m)]); [apply leads_grp; [apply Halt|reflexivity]|].
    apply leads_seq with
      (s1 := pm_content m ++ closeTag (pm_close m) ++ s)
      (cs1 := [(1, pm_open m)]); [apply leads_chr; reflexivity|].
    change (lit "</") with (seq (map Chr (js "</"))).
    apply leads_lazy_grp with (close := closeTag (pm_open m)).
    - intros s0 q w H. apply bref_fails with (name := pm_open m); [reflexivity|].
      exact H.
    - apply mentions_clear with (k := "<"%char).
      + apply caseless_lt.
      + unfold closeTag. apply marker_lt. intros [H|H]; [discriminate|].
        apply in_app_or in H. destruct H as [H|[H|[]]]; [contradiction|discriminate].
      + unfold closeTag. apply follows_cons.
      + exact Hm.
      + rewrite <- Hl. apply forallb_ext. intros x. reflexivity.
    - unfold closeTag. rewrite <- !app_assoc.
      apply leads_seq with (s1 := pm_close m ++ js ">" ++ s)
        (cs1 := [(2, pm_content m); (1, pm_open m)]);
        [apply leads_lit; apply same_self|].
      apply leads_seq with (s1 := js ">" ++ s)
        (cs1 := [(2, pm_content m); (1, pm_open m)]).
      + apply leads_bref with (w := pm_open m); [reflexivity|].
        apply same_both with (n := n).
        * apply lower_reads; [reflexivity|exact Ha|exact En].
        * apply lower_reads; [reflexivity|exact Ha|]. rewrite Hc. exact En.
      + apply leads_seq with (s1 := s) (cs1 := [(2, pm_content m); (1, pm_open m)]);
          [apply leads_chr; reflexivity|apply leads_eps]. }
  destruct (@leads_here _ _ _ _ _ L p) as [mt [st' [Hh [Hw [Hg Hr]]]]].
  exists mt, st'. unfold group. rewrite Hg. repeat split; assumption.
Qed.

Lemma pair_demand p s :
  opensAny f_gi [openTag n1; openTag n2] s = false ->
  match_here f_gi (re_pair alt) p s = None.
Proof.
  intros H. unfold match_here, re_pair, start. unfold seq at 1. cbn [fold_right].
  destruct s as [|a s1]; [reflexivity|].
  rewrite run_seq_chr. destruct (same f_gi a "<") eqn:Ea; [|reflexivity].
  apply caseless_lt in Ea. subst a.
  rewrite run_seq, run_grp, alt_runs.
  rewrite flat_map_nil; [reflexivity|].
  intros st1 H1. apply in_map_iff in H1. destruct H1 as [st0 [<- H0]].
  assert (Hn : exists n, (n = n1 \/ n = n2) /\ starts_with f_gi n s1 = true /\
                         rest st0 = skipn (length n) s1).
  { apply in_app_or in H0. destruct H0 as [H0|H0]; apply again_inv in H0;
      cbn [rest] in H0; destruct H0 as [S0 [R0 _]]; eauto. }
  destruct Hn as [n [Hn [S0 R0]]].
  unfold set_cap. rewrite R0.
  destruct (skipn (length n) s1) as [|x xs] eqn:E; [reflexivity|].
  rewrite run_seq_chr. destruct (same f_gi x ">") eqn:Ex; [exfalso|reflexivity].
  assert (Ho : starts_with f_gi (openTag n) ("<"%char :: s1) = true).
  { unfold openTag. change (js "<") with ["<"%char]. cbn [app starts_with].
    rewrite same_refl, starts_with_app, S0, E. change (js ">") with [">"%char].
    cbn [starts_with andb]. rewrite Ex. reflexivity. }
  unfold opensAny in H. cbn [existsb] in H.
  destruct Hn as [->| ->]; rewrite Ho in H; [discriminate|].
  rewrite orb_true_r in H. discriminate H.
Qed.

Lemma pair_markers : Forall (marker "<") [openTag n1; openTag n2].
Proof.
  repeat constructor; unfold openTag; apply marker_lt; intros H;
    apply in_app_or in H; destruct H as [H|[H|[]]];
    try discriminate; contradiction.
Qed.

(** A pass over pairs of tags, on a document. *)
Lemma pairPass_doc (cb : rmatch -> text) (out : pairMark -> text) blocks tail :
  (forall mt m, whole mt = pairTag m -> group 1 mt = pm_open m ->
                group 2 mt = pm_content m -> cb mt = out m) ->
  Forall (fun tb => free_of f_gi [openTag n1; openTag n2] (fst tb) = true /\
                    pairOk [n1; n2] (snd tb)) blocks ->
  free_of f_gi [openTag n1; openTag n2] tail = true ->
  replaceAll f_gi (re_pair alt) cb
    (interleave (map (fun tb => (fst tb, pairTag (snd tb))) blocks) tail)
  = interleave (map (fun tb => (fst tb, out (snd tb))) blocks) tail.
Proof.
  intros Hcb Hb Ht.
  apply (@replace_interleave f_gi (re_pair alt) cb "<"%char [openTag n1; openTag n2]
           caseless_lt pair_markers pair_demand) with
    (okB := pairOk [n1; n2]) (mark := pairTag) (out := out); try assumption.
  - intros m Hm p s. destruct (@pair_here m s p Hm) as [mt [st' [Hh [Hw [H1 [H2 Hr]]]]]].
    exists mt, st'. repeat split; try assumption. apply Hcb; assumption.
  - intros m _. eexists. reflexivity.
Qed.

End Pair.

Lemma again_one fl c st : again fl [c] st = one (fun x => same fl x c) st.
Proof.
  cbn [again]. unfold one. destruct (rest st) as [|x xs]; [reflexivity|].
  destruct (same fl x c); reflexivity.
Qed.

Lemma re_bold_pair : re_bold = re_pair (Alt (Chr "b") (lit "strong")).
Proof. reflexivity. Qed.

Lemma re_italic_pair : re_italic = re_pair (Alt (Chr "i") (lit "em")).
Proof. reflexivity. Qed.

Lemma no_lt_in (s : string) :
  existsb (Ascii.eqb "<") (js s) = false -> ~ In "<"%char (js s).
Proof.
  intros H Hin. apply in_existsb_eqb in Hin. rewrite Hin in H. discriminate H.
Qed.

(** X12. The bold pass, on any document made of texts in which no [<b>] or
    [<strong>] occurs and, between them, pairs [<b>...</b>] or
    [<strong>...</strong>] in any letter case, with a content on one line
    in which the closing tag does not occur: every pair becomes its content
    between two pairs of asterisks, unless its lower-cased name is in
    ignoreTags, in which case it stays as written. *)
Theorem boldPass_marks (ig : list text) (blocks : list (text * pairMark))
  (tail : text) :
  Forall (fun tb => free_of f_gi [js "<b>"; js "<strong>"] (fst tb) = true /\
                    pairOk [js "b"; js "strong"] (snd tb)) blocks ->
  free_of f_gi [js "<b>"; js "<strong>"] tail = true ->
  boldPass ig (interleave (map (fun tb => (fst tb, pairTag (snd tb))) blocks) tail)
  = interleave
      (map (fun tb => (fst tb,
                       if includes ig (toLowerCase (pm_open (snd tb)))
                       then pairTag (snd tb)
                       else js "**" ++ pm_content (snd tb) ++ js "**")) blocks) tail.
Proof.
  intros Hb Ht. unfold boldPass. rewrite re_bold_pair.
  apply (@pairPass_doc (Alt (Chr "b") (lit "strong")) (js "b") (js "strong")) with
    (out := fun m => if includes ig (toLowerCase (pm_open m)) then pairTag m
                     else js "**" ++ pm_content m ++ js "**");
    try assumption; try reflexivity.
  - intros st. rewrite run_alt, run_chr, <- again_one.
    change (lit "strong") with (seq (map Chr (js "strong"))). rewrite run_lit.
    reflexivity.
  - cbn. lia.
  - apply (no_lt_in "b"). reflexivity.
  - apply (no_lt_in "strong"). reflexivity.
  - intros mt m Hw H1 H2. rewrite Hw, H1, H2. reflexivity.
Qed.

Lemma boldPass_marks_witness :
  boldPass [js "b"]
    (interleave
       [(js "x <i>y</i> ",
         pairTag {| pm_open := js "STRONG"; pm_content := js "a</b>";
                    pm_close := js "strong" |});
        (js " ", pairTag {| pm_open := js "b"; pm_content := js "c"; pm_close := js "B" |})]
       (js "."))
  = js "x <i>y</i> **a</b>** <b>c</B>.".
Proof.
  apply (@boldPass_marks [js "b"]
           [(js "x <i>y</i> ",
             {| pm_open := js "STRONG"; pm_content := js "a</b>";
                pm_close := js "strong" |});
            (js " ", {| pm_open := js "b"; pm_content := js "c"; pm_close := js "B" |})]
           (js ".")).
  - repeat constructor; cbn; tauto.
  - reflexivity.
Defined.

(** X13. The italic pass, on any document made of texts in which no [<i>]
    or [<em>] occurs and, between them, pairs [<i>...</i>] or
    [<em>...</em>] in any letter case, with a content on one line in which
    the closing tag does not occur: every pair becomes its content between
    two asterisks, unless its lower-cased name is in ignoreTags, in which
    case it stays as written. *)
Theorem italicPass_marks (ig : list text) (blocks : list (text * pairMark))
  (tail : text) :
  Forall (fun tb => free_of f_gi [js "<i>"; js "<em>"] (fst tb) = true /\
                    pairOk [js "i"; js "em"] (snd tb)) blocks ->
  free_of f_gi [js "<i>"; js "<em>"] tail = true ->
  italicPass ig (interleave (map (fun tb => (fst tb, pairTag (snd tb))) blocks) tail)
  = interleave
      (map (fun tb => (fst tb,
                       if includes ig (toLowerCase (pm_open (snd tb)))
                       then pairTag (snd tb)
                       else js "*" ++ pm_content (snd tb) ++ js "*")) blocks) tail.
Proof.
  intros Hb Ht. unfold italicPass. rewrite re_italic_pair.
  apply (@pairPass_doc (Alt (Chr "i") (lit "em")) (js "i") (js "em")) with
    (out := fun m => if includes ig (toLowerCase (pm_open m)) then pairTag m
                     else js "*" ++ pm_content m ++ js "*");
    try assumption; try reflexivity.
  - intros st. rewrite run_alt, run_chr, <- again_one.
    change (lit "em") with (seq (map Chr (js "em"))). rewrite run_lit.
    reflexivity.
  - cbn. lia.
  - apply (no_lt_in "i"). reflexivity.
  - apply (no_lt_in "em"). reflexivity.
  - intros mt m Hw H1 H2. rewrite Hw, H1, H2. reflexivity.
Qed.

Lemma italicPass_marks_witness :
  italicPass []
    (interleave
       [(js "x ",
         pairTag {| pm_open := js "Em"; pm_content := js "a"; pm_close := js "EM" |});
        (js " ", pairTag {| pm_open := js "i"; pm_content := js "c"; pm_close := js "i" |})]
       (js "."))
  = js "x *a* *c*.".
Proof.
  apply (@italicPass_marks []
           [(js "x ", {| pm_open := js "Em"; pm_content := js "a"; pm_close := js "EM" |});
            (js " ", {| pm_open := js "i"; pm_content := js "c"; pm_close := js "i" |})]
           (js ".")).
  - repeat constructor; cbn; tauto.
  - reflexivity.
Defined.

(** ** Links *)

Lemma caseless_dq : caseless DQ.
Proof.
  intros [[] d] x; unfold same, canon; cbn [icase]; each_ascii x;
    try discriminate; reflexivity.
Qed.

Lemma chr_fails fl c K s q cs :
  starts_with fl [c] s = false ->
  run fl (Seq (Chr c) K) {| rest := s; prev := q; caps := cs |} = [].
Proof.
  intros H. destruct s as [|x xs]; [reflexivity|].
  rewrite run_seq_chr. cbn [starts_with] in H. rewrite andb_true_r in H.
  rewrite H. reflexivity.
Qed.

(** A line without [k] is clear of [k] and can be read by the dot. *)
Lemma line_clear fl k s x :
  caseless k -> dotall fl = false -> forallb (lineCharBut k) x = true ->
  clear_then fl [k] (P_dot fl) (k :: s) x.
Proof.
  intros Hk Hd. induction x as [|c x IH]; intros H; [exact I|].
  cbn [forallb] in H. apply andb_prop in H. destruct H as [Hc H].
  unfold lineCharBut in Hc. apply andb_prop in Hc. destruct Hc as [Hc1 Hc2].
  cbn [clear_then]. repeat split.
  - unfold P_dot. rewrite Hd, Hc2. reflexivity.
  - cbn [starts_with]. destruct (same fl c k) eqn:E; [|reflexivity].
    apply Hk in E. subst c. rewrite Ascii.eqb_refl in Hc1. discriminate Hc1.
  - apply IH. exact H.
Qed.

Lemma lower_not_space x c :
  lowerChar x = c -> isSpace c = false -> isSpace x = false.
Proof. intros <-. each_ascii x; intros H; try discriminate H; reflexivity. Qed.

Lemma link_here m s p :
  linkOk m ->
  exists mt st',
    match_here f_gi re_link p (linkTag m ++ s) = Some (mt, st') /\
    whole mt = linkTag m /\ group 1 mt = lk_url m /\ group 2 mt = lk_text m /\
    rest st' = s.
Proof.
  intros [Ha [Hne [Hsp [Hh [Hu [Hat [Ht [Hm Hc]]]]]]]].
  assert (L : leads f_gi re_link (linkTag m ++ s) [] s
                [(2, lk_text m); (1, lk_url m)]).
  { unfold re_link, linkTag. rewrite <- !app_assoc.
    unfold seq at 1. cbn [fold_right].
    change (lit "<a") with (seq (map Chr (js "<a"))).
    change (lit "href=") with (seq (map Chr (js "href="))).
    change (lit "</a>") with (seq (map Chr (js "</a>"))).
    rewrite (app_assoc (js "<") (lk_a m)).
    eapply leads_seq.
    { apply leads_lit. change (js "<a") with (js "<" ++ js "a").
      apply Forall2_app; [apply same_self|].
      apply lower_reads; [reflexivity|reflexivity|exact Ha]. }
    destruct (lk_space m) as [|w0 w] eqn:Ew; [congruence|].
    cbn [forallb] in Hsp. apply andb_prop in Hsp. destruct Hsp as [Hw0 Hw].
    cbn [app]. unfold plus.
    eapply leads_seq.
    { eapply leads_seq.
      - apply leads_one with (P := P_ws f_gi); [reflexivity|].
        rewrite P_ws_space. exact Hw0.
      - apply leads_spaces; [exact Hw|].
        destruct (lk_href m) as [|h0 h] eqn:Eh; [discriminate Hh|].
        cbn [toLowerCase map] in Hh. injection Hh as Hh0 _.
        cbn [app stops]. apply (@lower_not_space h0 _ Hh0). reflexivity. }
    eapply leads_seq.
    { apply leads_lit. apply lower_reads; [reflexivity|reflexivity|exact Hh]. }
    cbn [app].
    eapply leads_seq; [apply leads_chr; apply same_refl|].
    change (lk_url m ++ DQ :: lk_attrs m ++ js ">" ++ lk_text m ++ closeTag (lk_close m) ++ s)
      with (lk_url m ++ (DQ :: lk_attrs m ++ js ">" ++ lk_text m
                          ++ closeTag (lk_close m) ++ s)).
    apply leads_lazy_grp with (close := [DQ]).
    { intros s0 q w1 H. apply chr_fails. exact H. }
    { apply line_clear; [apply caseless_dq|reflexivity|exact Hu]. }
    eapply leads_seq; [apply leads_chr; apply same_refl|].
    apply leads_lazy with (close := js ">").
    { intros s0 q H. apply chr_fails. exact H. }
    { change (js ">" ++ lk_text m ++ closeTag (lk_close m) ++ s)
        with (">"%char :: lk_text m ++ closeTag (lk_close m) ++ s).
      apply line_clear; [apply caseless_gt|reflexivity|exact Hat]. }
    change (js ">" ++ lk_text m ++ closeTag (lk_close m) ++ s)
      with (">"%char :: lk_text m ++ closeTag (lk_close m) ++ s).
    eapply leads_seq; [apply leads_chr; apply same_refl|].
    apply leads_lazy_grp with (close := js "</a>").
    { intros s0 q w1 H.
      apply (@lit_fails f_gi (js "</a>") Eps
               {| rest := s0; prev := q; caps := (2, w1) :: [(1, lk_url m)] |}).
      exact H. }
    { apply mentions_clear with (k := "<"%char).
      - apply caseless_lt.
      - apply marker_lt. apply (no_lt_in "/a>"). reflexivity.
      - unfold closeTag. apply follows_cons.
      - exact Hm.
      - rewrite <- Ht. apply forallb_ext. intros x. reflexivity. }
    eapply leads_seq; [|apply leads_eps].
    apply leads_lit. unfold closeTag.
    change (js "</a>") with (js "</" ++ js "a" ++ js ">").
    apply Forall2_app; [apply same_self|].
    apply Forall2_app; [|apply same_self].
    apply lower_reads; [reflexivity|reflexivity|exact Hc]. }
  destruct (@leads_here _ _ _ _ _ L p) as [mt [st' [Hx [Hw [Hg Hr]]]]].
  exists mt, st'. unfold group. rewrite Hg. repeat split; assumption.
Qed.

(** X14. The link pass, on any document made of texts in which [<a] does
    not occur (in any letter case) and, between them, links written as
    [<a href="URL" ...>TEXT</a>], with [href] as the first attribute, the
    address without a double quote, the rest of the tag without [>], all on
    one line, and [</a>] not in the text: when 'a' is not in ignoreTags
    every link becomes [[TEXT](URL)], and whatever else stood in the tag is
    dropped; when 'a' is in ignoreTags nothing changes. *)
Theorem linkPass_links (ig : list text) (blocks : list (text * linkMark))
  (tail : text) :
  Forall (fun tb => free_of f_gi [js "<a"] (fst tb) = true /\ linkOk (snd tb)) blocks ->
  free_of f_gi [js "<a"] tail = true ->
  linkPass ig (interleave (map (fun tb => (fst tb, linkTag (snd tb))) blocks) tail)
  = if includes ig (js "a")
    then interleave (map (fun tb => (fst tb, linkTag (snd tb))) blocks) tail
    else interleave
           (map (fun tb => (fst tb,
                            js "[" ++ lk_text (snd tb) ++ js "](" ++ lk_url (snd tb)
                            ++ js ")")) blocks) tail.
Proof.
  intros Hb Ht. unfold linkPass. destruct (includes ig (js "a")); [reflexivity|].
  cbn [negb].
  apply (@replace_interleave f_gi re_link
           (fun mt => js "[" ++ group 2 mt ++ js "](" ++ group 1 mt ++ js ")")
           "<"%char [js "<a"] caseless_lt) with
    (okB := linkOk) (mark := linkTag)
    (out := fun m => js "[" ++ lk_text m ++ js "](" ++ lk_url m ++ js ")");
    try assumption.
  - constructor; [|constructor]. apply marker_lt. apply (no_lt_in "a"). reflexivity.
  - intros p s H. unfold opensAny in H. cbn [existsb] in H.
    rewrite orb_false_r in H. unfold match_here, re_link.
    unfold seq at 1. cbn [fold_right].
    change (lit "<a") with (seq (map Chr (js "<a"))).
    rewrite lit_fails by exact H. reflexivity.
  - intros m Hm p s.
    destruct (@link_here m s p Hm) as [mt [st' [Hh [Hw [H1 [H2 Hr]]]]]].
    exists mt, st'. repeat split; try assumption. rewrite H1, H2. reflexivity.
  - intros m _. eexists. reflexivity.
Qed.

Lemma linkPass_links_witness :
  linkPass []
    (interleave
       [(js "see ",
         linkTag {| lk_a := js "A"; lk_space := js " \t"; lk_href := js "HREF=";
                    lk_url := js "https://example.com"; lk_attrs := js " class=\qx\q";
                    lk_text := js "<b>here</b>"; lk_close := js "a" |})]
       (js "."))
  = js "see [<b>here</b>](https://example.com).".
Proof.
  apply (@linkPass_links []
           [(js "see ",
             {| lk_a := js "A"; lk_space := js " \t"; lk_href := js "HREF=";
                lk_url := js "https://example.com"; lk_attrs := js " class=\qx\q";
                lk_text := js "<b>here</b>"; lk_close := js "a" |})]
           (js ".")).
  - repeat constructor; cbn; try tauto. discriminate.
  - reflexivity.
Defined.

(** ** Tables *)

Lemma mentions_app fl k pat b :
  caseless k -> marker k pat -> follows k b ->
  forall a, mentions fl pat (a ++ b) = mentions fl pat a || mentions fl pat b.
Proof.
  intros Hk Hm Hf. induction a as [|c a IH]; [reflexivity|].
  cbn [app mentions]. rewrite (@marker_follow fl k b pat c a Hk Hf Hm), IH.
  apply orb_assoc.
Qed.

Lemma mentions_prefix fl a b : forall x,
  mentions fl a x = false -> mentions fl (a ++ b) x = false.
Proof.
  induction x as [|c x IH]; intros H; [reflexivity|].
  cbn [mentions] in *. apply orb_false_elim in H. destruct H as [H1 H2].
  rewrite starts_with_app, H1, IH by exact H2. reflexivity.
Qed.

Lemma mentions_off fl k pat' c s :
  caseless k -> c <> k -> mentions fl (k :: pat') (c :: s) = mentions fl (k :: pat') s.
Proof.
  intros Hk Hc. cbn [mentions starts_with].
  destruct (same fl c k) eqn:E; [|reflexivity]. apply Hk in E. contradiction.
Qed.

Lemma mentions_second fl k p1 pat' d s :
  same fl d p1 = false ->
  mentions fl (k :: p1 :: pat') (k :: d :: s) = mentions fl (k :: p1 :: pat') (d :: s).
Proof.
  intros H. cbn [mentions starts_with]. rewrite H, andb_false_r. reflexivity.
Qed.

Lemma same_flags fl fl' a b : icase fl = icase fl' -> same fl a b = same fl' a b.
Proof. intros H. unfold same, canon. rewrite H. reflexivity. Qed.

Lemma starts_with_flags fl fl' : icase fl = icase fl' -> forall pat s,
  starts_with fl pat s = starts_with fl' pat s.
Proof.
  intros H. induction pat as [|a pat IH]; intros s; [reflexivity|].
  destruct s as [|x s]; [reflexivity|]. cbn [starts_with].
  rewrite IH, (@same_flags fl fl' x a H). reflexivity.
Qed.

Lemma mentions_flags fl fl' pat : icase fl = icase fl' -> forall s,
  mentions fl pat s = mentions fl' pat s.
Proof.
  intros H. induction s as [|c s IH]; [reflexivity|].
  cbn [mentions]. rewrite IH, (@starts_with_flags fl fl' H). reflexivity.
Qed.

Lemma free_nil fl pats : free_of fl pats [] = true.
Proof. induction pats as [|p pats IH]; [reflexivity|exact IH]. Qed.

Lemma interleave_concat B (f : B -> text) (xs : list B) :
  interleave (map (fun tb => (fst tb, f (snd tb))) (map (fun x => ([], x)) xs)) []
  = concat (map f xs).
Proof.
  induction xs as [|x xs IH]; [reflexivity|].
  cbn [map interleave fst snd concat app]. rewrite IH. reflexivity.
Qed.

Lemma kind_not_lt h : cellKind h <> "<"%char.
Proof. destruct h; discriminate. Qed.

(** A cell holds no closing tag of a row or of a table. *)
Lemma cell_mentions fl tailpat c :
  icase fl = true ->
  tailpat = js "r>" \/ tailpat = js "able>" ->
  cellOk c ->
  mentions fl (js "</t" ++ tailpat) (cellTag c) = false.
Proof.
  intros Hi Hp [_ Hm].
  assert (Hmark : marker "<" (js "</t" ++ tailpat)).
  { apply marker_lt. destruct Hp as [-> | ->];
      intros H; repeat (destruct H as [H|H]; [discriminate|]); exact H. }
  unfold cellTag.
  replace (js "<t" ++ [cellKind (cell_head c)] ++ js ">" ++ cell_text c
           ++ js "</t" ++ [cellKind (cell_foot c)] ++ js ">")
    with ((js "<t" ++ [cellKind (cell_head c)] ++ js ">" ++ cell_text c)
          ++ (js "</t" ++ [cellKind (cell_foot c)] ++ js ">"))
    by (rewrite <- !app_assoc; reflexivity).
  rewrite (@mentions_app fl "<"%char _ _ caseless_lt Hmark) by apply follows_cons.
  apply orb_false_intro.
  - change (js "</t" ++ tailpat) with ("<"%char :: "/"%char :: js "t" ++ tailpat).
    change (js "<t" ++ [cellKind (cell_head c)] ++ js ">" ++ cell_text c)
      with ("<"%char :: "t"%char :: cellKind (cell_head c) :: ">"%char :: cell_text c).
    rewrite mentions_second
      by (rewrite (@same_flags fl f_gi) by exact Hi; reflexivity).
    rewrite !mentions_off;
      try apply caseless_lt; try apply kind_not_lt; try discriminate.
    change ("<"%char :: "/"%char :: js "t" ++ tailpat) with (js "</t" ++ tailpat).
    apply mentions_prefix. rewrite (@mentions_flags fl f_gi) by exact Hi. exact Hm.
  - rewrite (@mentions_flags fl f_gi) by exact Hi.
    destruct Hp as [-> | ->]; destruct (cell_foot c); reflexivity.
Qed.

Lemma cells_mentions fl tailpat r :
  icase fl = true ->
  tailpat = js "r>" \/ tailpat = js "able>" ->
  Forall cellOk r ->
  mentions fl (js "</t" ++ tailpat) (concat (map cellTag r)) = false.
Proof.
  intros Hi Hp. induction 1 as [|c r Hc Hr IH]; [reflexivity|].
  cbn [map concat].
  assert (Hmark : marker "<" (js "</t" ++ tailpat)).
  { apply marker_lt. destruct Hp as [-> | ->];
      intros H; repeat (destruct H as [H|H]; [discriminate|]); exact H. }
  rewrite (@mentions_app fl "<"%char _ _ caseless_lt Hmark).
  - rewrite IH, (@cell_mentions fl tailpat c Hi Hp Hc). reflexivity.
  - destruct r as [|c' r']; [apply follows_nil|]. cbn [map concat].
    unfold cellTag. apply follows_cons.
Qed.

Lemma cell_line c :
  cellOk c -> forallb (P_dot f_gi) (cellTag c) = true.
Proof.
  intros [Hl _]. unfold cellTag. rewrite !forallb_app.
  rewrite (@forallb_ext (P_dot f_gi) (fun x => negb (isLineTerminator x)) (cell_text c))
    by (intros x; reflexivity).
  rewrite Hl. destruct (cell_head c), (cell_foot c); reflexivity.
Qed.

Lemma cells_line r : Forall cellOk r -> forallb (P_dot f_gi) (concat (map cellTag r)) = true.
Proof.
  induction 1 as [|c r Hc Hr IH]; [reflexivity|].
  cbn [map concat]. rewrite forallb_app, IH, (@cell_line c Hc). reflexivity.
Qed.

Lemma cell_here c s p :
  cellOk c ->
  exists mt st',
    match_here f_gi re_cell p (cellTag c ++ s) = Some (mt, st') /\
    whole mt = cellTag c /\ group 1 mt = cell_text c /\ rest st' = s.
Proof.
  intros [Hl Hm].
  assert (Hk : forall h, xorb false (existsb (item_has f_gi (cellKind h))
                                       [ILit "d"; ILit "h"]) = true).
  { intros []; reflexivity. }
  assert (L : leads f_gi re_cell (cellTag c ++ s) [] s [(1, cell_text c)]).
  { unfold re_cell, cellTag. rewrite <- !app_assoc.
    unfold seq at 1. cbn [fold_right].
    change (lit "<t") with (seq (map Chr (js "<t"))).
    change (lit "</t") with (seq (map Chr (js "</t"))).
    eapply leads_seq; [apply leads_lit; apply same_self|].
    cbn [app].
    eapply leads_seq; [eapply leads_one; [reflexivity|apply Hk]|].
    eapply leads_seq; [apply leads_chr; apply same_refl|].
    apply leads_lazy_grp with (close := js "</t").
    { intros s0 q w H.
      apply (@lit_fails f_gi (js "</t") _
               {| rest := s0; prev := q; caps := [(1, w)] |}). exact H. }
    { apply mentions_clear with (k := "<"%char).
      - apply caseless_lt.
      - apply marker_lt. apply (no_lt_in "/t"). reflexivity.
      - apply follows_cons.
      - exact Hm.
      - rewrite <- Hl. apply forallb_ext. intros x. reflexivity. }
    eapply leads_seq; [apply leads_lit; apply same_self|].
    cbn [app].
    eapply leads_seq; [eapply leads_one; [reflexivity|apply Hk]|].
    eapply leads_seq; [apply leads_chr; apply same_refl|apply leads_eps]. }
  destruct (@leads_here _ _ _ _ _ L p) as [mt [st' [Hx [Hw [Hg Hr]]]]].
  exists mt, st'. unfold group. rewrite Hg. repeat split; assumption.
Qed.

Lemma lit_demand fl pat K p s :
  opensAny fl [pat] s = false ->
  match_here fl (Seq (seq (map Chr pat)) K) p s = None.
Proof.
  intros H. unfold opensAny in H. cbn [existsb] in H. rewrite orb_false_r in H.
  unfold match_here. rewrite lit_fails by exact H. reflexivity.
Qed.

Lemma tableCells_cells ig r :
  Forall cellOk r ->
  tableCells ig (concat (map cellTag r)) = concat (map (cellOut ig) r).
Proof.
  intros Hr. unfold tableCells.
  rewrite <- (interleave_concat cellTag r), <- (interleave_concat (cellOut ig) r).
  apply (@replace_interleave f_gi re_cell _ "<"%char [js "<t"] caseless_lt) with
    (okB := cellOk) (mark := cellTag) (out := cellOut ig).
  - constructor; [|constructor]. apply marker_lt. apply (no_lt_in "t"). reflexivity.
  - intros p s H. apply (@lit_demand f_gi (js "<t") _ p s H).
  - intros c Hc p s. destruct (@cell_here c s p Hc) as [mt [st' [Hh [Hw [Hg Hx]]]]].
    exists mt, st'. repeat split; try assumption. unfold cellOut. rewrite Hw, Hg.
    reflexivity.
  - intros c _. eexists. reflexivity.
  - apply Forall_forall. intros tb Hin. apply in_map_iff in Hin.
    destruct Hin as [c [<- Hc]]. split; [reflexivity|].
    rewrite Forall_forall in Hr. apply Hr. exact Hc.
  - reflexivity.
Qed.

Lemma row_here r s p :
  Forall cellOk r ->
  exists mt st',
    match_here f_gi re_tr p (rowTag r ++ s) = Some (mt, st') /\
    whole mt = rowTag r /\ group 1 mt = concat (map cellTag r) /\ rest st' = s.
Proof.
  intros Hr. unfold rowTag. rewrite <- !app_assoc.
  change re_tr with (block_re (js "<tr>") (js "</tr>")).
  destruct (@block_here f_gi (js "<tr>") (js "</tr>") (concat (map cellTag r)) s p)
    as [mt [st' [Hh [Hw [Hg Hx]]]]].
  - discriminate.
  - apply mentions_clear with (k := "<"%char).
    + apply caseless_lt.
    + apply marker_lt. apply (no_lt_in "/tr>"). reflexivity.
    + apply follows_cons.
    + apply (@cells_mentions f_gi (js "r>") r eq_refl (or_introl eq_refl) Hr).
    + apply cells_line. exact Hr.
  - exists mt, st'. repeat split; assumption.
Qed.

Lemma tableRows_rows ig rows :
  Forall (Forall cellOk) rows ->
  tableRows ig (concat (map rowTag rows)) = trim (concat (map (rowOut ig) rows)).
Proof.
  intros Hr. unfold tableRows. f_equal.
  rewrite <- (interleave_concat rowTag rows), <- (interleave_concat (rowOut ig) rows).
  apply (@replace_interleave f_gi re_tr _ "<"%char [js "<tr>"] caseless_lt) with
    (okB := Forall cellOk) (mark := rowTag) (out := rowOut ig).
  - constructor; [|constructor]. apply marker_lt. apply (no_lt_in "tr>"). reflexivity.
  - intros p s H. apply (@lit_demand f_gi (js "<tr>") _ p s H).
  - intros r Hc p s. destruct (@row_here r s p Hc) as [mt [st' [Hh [Hw [Hg Hx]]]]].
    exists mt, st'. repeat split; try assumption. unfold rowOut.
    rewrite Hw, Hg, last_tab_trim, (@tableCells_cells ig r Hc). reflexivity.
  - intros r _. eexists. reflexivity.
  - apply Forall_forall. intros tb Hin. apply in_map_iff in Hin.
    destruct Hin as [r [<- Hin]]. split; [reflexivity|].
    rewrite Forall_forall in Hr. apply Hr. exact Hin.
  - reflexivity.
Qed.

Lemma row_mentions r :
  Forall cellOk r -> mentions f_gis (js "</table>") (rowTag r) = false.
Proof.
  intros Hr. unfold rowTag.
  assert (Hmark : marker "<" (js "</table>")).
  { apply marker_lt. apply (no_lt_in "/table>"). reflexivity. }
  replace (js "<tr>" ++ concat (map cellTag r) ++ js "</tr>")
    with ((js "<tr>" ++ concat (map cellTag r)) ++ js "</tr>")
    by (rewrite <- !app_assoc; reflexivity).
  rewrite (@mentions_app f_gis "<"%char _ _ caseless_lt Hmark) by apply follows_cons.
  apply orb_false_intro; [|reflexivity].
  change (js "</table>") with ("<"%char :: "/"%char :: js "table>").
  change (js "<tr>" ++ concat (map cellTag r))
    with ("<"%char :: "t"%char :: "r"%char :: ">"%char :: concat (map cellTag r)).
  rewrite mentions_second by reflexivity.
  rewrite !mentions_off; try apply caseless_lt; try discriminate.
  apply (@cells_mentions f_gis (js "able>") r eq_refl (or_intror eq_refl) Hr).
Qed.

Lemma rows_mentions rows :
  Forall (Forall cellOk) rows ->
  mentions f_gis (js "</table>") (concat (map rowTag rows)) = false.
Proof.
  induction 1 as [|r rows Hr Hrows IH]; [reflexivity|].
  cbn [map concat].
  rewrite (@mentions_app f_gis "<"%char (js "</table>") _ caseless_lt).
  - rewrite IH, (@row_mentions r Hr). reflexivity.
  - apply marker_lt. apply (no_lt_in "/table>"). reflexivity.
  - destruct rows as [|r' rows']; [apply follows_nil|]. cbn [map concat].
    unfold rowTag. apply follows_cons.
Qed.

Lemma table_here rows s p :
  Forall (Forall cellOk) rows ->
  exists mt st',
    match_here f_gis re_table p (tableTag rows ++ s) = Some (mt, st') /\
    whole mt = tableTag rows /\ group 1 mt = concat (map rowTag rows) /\ rest st' = s.
Proof.
  intros Hr. unfold tableTag. rewrite <- !app_assoc.
  change re_table with (block_re (js "<table>") (js "</table>")).
  destruct (@block_here f_gis (js "<table>") (js "</table>")
              (concat (map rowTag rows)) s p) as [mt [st' [Hh [Hw [Hg Hx]]]]].
  - discriminate.
  - apply mentions_clear with (k := "<"%char).
    + apply caseless_lt.
    + apply marker_lt. apply (no_lt_in "/table>"). reflexivity.
    + apply follows_cons.
    + apply rows_mentions. exact Hr.
    + apply forallb_forall. intros x _. reflexivity.
  - exists mt, st'. repeat split; assumption.
Qed.

Lemma trim_snoc_space s c :
  solid s -> isSpace c = true -> trim (s ++ [c]) = s.
Proof.
  intros [Hne [Hh Hl]] Hc. unfold trim, trimStart, trimEnd.
  rewrite (@dropWhile_id isSpace (s ++ [c])).
  - rewrite rev_app_distr. cbn [rev app dropWhile]. rewrite Hc.
    rewrite dropWhile_id; [apply rev_involutive|].
    intros x u E. apply (Hl (rev u) x).
    rewrite <- (rev_involutive s), E. reflexivity.
  - intros x u E. destruct s as [|c0 t]; [congruence|].
    cbn [app] in E. injection E as <- _. apply (Hh c0 t eq_refl).
Qed.

Lemma concat_join (sep : text) (xs : list text) :
  xs <> [] -> concat (map (fun x => x ++ sep) xs) = join sep xs ++ sep.
Proof.
  induction xs as [|x xs IH]; [congruence|]. intros _.
  destruct xs as [|y xs].
  - cbn. rewrite app_nil_r. reflexivity.
  - rewrite join_cons2.
    change (concat (map (fun x0 => x0 ++ sep) (x :: y :: xs)))
      with ((x ++ sep) ++ concat (map (fun x0 => x0 ++ sep) (y :: xs))).
    rewrite IH by discriminate. rewrite <- !app_assoc. reflexivity.
Qed.

(** X15. The table pass, on any document made of texts in which [<table>]
    does not occur and, between them, tables written as
    [<table><tr><td>..</td>..</tr>..</table>] with [td] or [th] cells whose
    content is on one line and holds no [</t]: when 'table' is in
    ignoreTags nothing changes; otherwise every table becomes its rows,
    trimmed as a whole, where a row whose 'tr' is ignored stays as written
    and any other row becomes its cells, trimmed as a whole, and a newline,
    where a cell becomes its content and a tab unless 'td' or 'th' is
    ignored.  With nothing ignored and cells that are not empty and neither
    start nor end with white space, a table becomes its rows joined with
    newlines, the cells of a row joined with tabs. *)
Theorem tablePass_tables :
  (forall ig (blocks : list (text * list (list cellMark))) tail,
      Forall (fun tb => free_of f_gis [js "<table>"] (fst tb) = true /\
                        Forall (Forall cellOk) (snd tb)) blocks ->
      free_of f_gis [js "<table>"] tail = true ->
      tablePass ig (interleave (map (fun tb => (fst tb, tableTag (snd tb))) blocks) tail)
      = interleave (map (fun tb => (fst tb, tableOut ig (snd tb))) blocks) tail) /\
  (forall rows,
      rows <> [] ->
      Forall (fun r => r <> [] /\ Forall (fun c => solid (cell_text c)) r) rows ->
      tableOut [] rows
      = join (js "\n") (map (fun r => join (js "\t") (map cell_text r)) rows)).
Proof.
  split.
  - intros ig blocks tail Hb Ht. unfold tablePass.
    apply (@replace_interleave f_gis re_table _ "<"%char [js "<table>"] caseless_lt) with
      (okB := Forall (Forall cellOk)) (mark := tableTag) (out := tableOut ig);
      try assumption.
    + constructor; [|constructor]. apply marker_lt. apply (no_lt_in "table>").
      reflexivity.
    + intros p s H. apply (@lit_demand f_gis (js "<table>") _ p s H).
    + intros rows Hr p s.
      destruct (@table_here rows s p Hr) as [mt [st' [Hh [Hw [Hg Hx]]]]].
      exists mt, st'. repeat split; try assumption. unfold tableOut.
      rewrite Hw, Hg, (@tableRows_rows ig rows Hr). reflexivity.
    + intros rows _. eexists. reflexivity.
  - intros rows Hne Hrows. unfold tableOut. cbn [includes existsb].
    assert (Hrow : forall r, r <> [] -> Forall (fun c => solid (cell_text c)) r ->
                     rowOut [] r = join (js "\t") (map cell_text r) ++ js "\n" /\
                     solid (join (js "\t") (map cell_text r))).
    { intros r Hr Hc.
      assert (Hs : solid (join (js "\t") (map cell_text r))).
      { apply solid_join; [destruct r; [congruence|discriminate]|].
        apply Forall_forall. intros x Hx. apply in_map_iff in Hx.
        destruct Hx as [c [<- Hin]]. rewrite Forall_forall in Hc. apply Hc. exact Hin. }
      split; [|exact Hs].
      unfold rowOut, cellOut. cbn [includes existsb orb].
      rewrite <- (map_map cell_text (fun x => x ++ js "\t")).
      rewrite concat_join by (destruct r; [congruence|discriminate]).
      change (js "\t") with [TAB]. rewrite trim_snoc_space; [reflexivity|exact Hs|].
      reflexivity. }
    assert (E : map (rowOut []) rows
                = map (fun x => x ++ js "\n")
                    (map (fun r => join (js "\t") (map cell_text r)) rows)).
    { rewrite map_map. apply map_ext_in. intros r Hin.
      rewrite Forall_forall in Hrows. destruct (Hrows r Hin) as [Hr Hc].
      apply (Hrow r Hr Hc). }
    rewrite E, concat_join by (destruct rows; [congruence|discriminate]).
    change (js "\n") with [LF]. apply trim_snoc_space; [|reflexivity].
    apply solid_join; [destruct rows; [congruence|discriminate]|].
    apply Forall_forall. intros x Hx. apply in_map_iff in Hx.
    destruct Hx as [r [<- Hin]]. rewrite Forall_forall in Hrows.
    destruct (Hrows r Hin) as [Hr Hc]. apply (Hrow r Hr Hc).
Qed.

Lemma tablePass_tables_witness :
  tablePass []
    (interleave
       [(js "T:",
         tableTag [[{| cell_head := true; cell_text := js "A"; cell_foot := true |};
                    {| cell_head := true; cell_text := js "B"; cell_foot := false |}];
                   [{| cell_head := false; cell_text := js "1"; cell_foot := false |};
                    {| cell_head := false; cell_text := js "2"; cell_foot := false |}]])]
       (js "."))
  = js "T:A\tB\n1\t2." /\
  tableOut [] [[{| cell_head := true; cell_text := js "A b"; cell_foot := true |};
                {| cell_head := true; cell_text := js "C"; cell_foot := true |}]]
  = js "A b\tC".
Proof.
  split; [|apply (proj2 tablePass_tables);
           [discriminate|
            repeat constructor; try discriminate;
            cbn; intros; match goal with
                         | H : _ = _ :: _ |- _ => injection H as <- _; reflexivity
                         | H : _ = _ ++ [_] |- _ =>
                             repeat (destruct t as [|? t]; cbn in H;
                                     try discriminate H);
                             injection H; intros; subst; reflexivity
                         end]].
  apply (proj1 tablePass_tables []
           [(js "T:",
             [[{| cell_head := true; cell_text := js "A"; cell_foot := true |};
               {| cell_head := true; cell_text := js "B"; cell_foot := false |}];
              [{| cell_head := false; cell_text := js "1"; cell_foot := false |};
               {| cell_head := false; cell_text := js "2"; cell_foot := false |}]])]
           (js ".")).
  - repeat constructor.
  - reflexivity.
Defined.

(** ** Gaps between tags *)

Lemma takeWhile_all P s : forallb P (takeWhile P s) = true.
Proof.
  induction s as [|x s IH]; [reflexivity|]. cbn [takeWhile].
  destruct (P x) eqn:E; [|reflexivity]. cbn [forallb]. rewrite E, IH. reflexivity.
Qed.

Lemma takeWhile_app_stop P w b :
  forallb P w = true -> stops P b -> takeWhile P (w ++ b) = w.
Proof.
  intros Hw Hb. induction w as [|x w IH].
  - destruct b as [|y b]; [reflexivity|]. cbn [app takeWhile]. cbn [stops] in Hb.
    rewrite Hb. reflexivity.
  - cbn [forallb] in Hw. apply andb_prop in Hw. destruct Hw as [Hx Hw].
    cbn [app takeWhile]. rewrite Hx, IH by exact Hw. reflexivity.
Qed.

Lemma dropWhile_app_stop P w b :
  forallb P w = true -> stops P b -> dropWhile P (w ++ b) = b.
Proof.
  intros Hw Hb. induction w as [|x w IH].
  - destruct b as [|y b]; [reflexivity|]. cbn [app dropWhile]. cbn [stops] in Hb.
    rewrite Hb. reflexivity.
  - cbn [forallb] in Hw. apply andb_prop in Hw. destruct Hw as [Hx Hw].
    cbn [app dropWhile]. rewrite Hx. apply IH. exact Hw.
Qed.

Lemma dropWhile_stops P s : stops P (dropWhile P s).
Proof.
  induction s as [|x s IH]; [exact I|]. cbn [dropWhile].
  destruct (P x) eqn:E; [exact IH|exact E].
Qed.

(** Where a gap starts, the expression of gaps matches. *)
Lemma gap_found p s :
  gapAt s = true -> match_here f_g re_gap p s <> None.
Proof.
  intros H. destruct s as [|c x]; [discriminate|]. cbn [gapAt] in H.
  apply andb_prop in H. destruct H as [H H3].
  apply andb_prop in H. destruct H as [H1 H2].
  apply Ascii.eqb_eq in H1. subst c.
  pose proof (take_drop_while isSpace x) as Ex.
  pose proof (takeWhile_all isSpace x) as Hw.
  destruct (takeWhile isSpace x) as [|y w]; [discriminate|].
  destruct (dropWhile isSpace x) as [|z t]; [discriminate|].
  assert (z = "<"%char) as -> by (each_ascii z; try discriminate H3; reflexivity).
  cbn [forallb] in Hw. apply andb_prop in Hw. destruct Hw as [Hy Hw].
  assert (L : leads f_g re_gap ((">"%char :: y :: w ++ ["<"%char]) ++ t) [] t []).
  { unfold re_gap, seq, plus. cbn [fold_right app]. rewrite <- app_assoc. cbn [app].
    eapply leads_seq; [apply leads_chr; apply same_refl|].
    eapply leads_seq.
    { eapply leads_seq.
      - apply leads_one with (P := P_ws f_g); [reflexivity|].
        rewrite P_ws_space. exact Hy.
      - apply leads_spaces; [exact Hw|reflexivity]. }
    eapply leads_seq; [apply leads_chr; apply same_refl|apply leads_eps]. }
  destruct (@leads_here _ _ _ _ _ L p) as [mt [st' [Hm _]]].
  rewrite <- Ex. cbn [app] in *. rewrite <- app_assoc in Hm. cbn [app] in Hm.
  rewrite Hm. discriminate.
Qed.

(** And only there. *)
Lemma gap_shape p s mt st' :
  match_here f_g re_gap p s = Some (mt, st') ->
  exists y w, isSpace y = true /\ forallb isSpace w = true /\
              whole mt = ">"%char :: y :: w ++ ["<"%char].
Proof.
  intros H. apply match_here_splits in H. destruct H as [Hs [Hin _]].
  unfold re_gap, seq, plus in Hin. cbn [fold_right] in Hin.
  destruct s as [|x xs]; [destruct Hin|].
  unfold start in Hin. rewrite run_seq_chr in Hin.
  destruct (same f_g x ">") eqn:Ex; [|destruct Hin].
  apply caseless_gt in Ex. subst x.
  rewrite run_seq in Hin. apply in_flat_map in Hin. destruct Hin as [st2 [H2 H3]].
  rewrite run_seq in H2. apply in_flat_map in H2. destruct H2 as [st1 [H1 H2]].
  apply one_reads in H1. destruct H1 as [y [Hy [R1 _]]].
  change (P_ws f_g y = true) in Hy. rewrite P_ws_space in Hy.
  rewrite run_star in H2. apply repeat_spaces in H2. destruct H2 as [w [R2 Fw]].
  rewrite run_seq in H3. apply in_flat_map in H3. destruct H3 as [st3 [H3 H4]].
  apply one_reads in H3. destruct H3 as [z [Hz [R3 _]]].
  apply caseless_lt in Hz. subst z.
  destruct H4 as [<-|[]].
  exists y, w. split; [exact Hy|]. split; [exact Fw|].
  unfold reads in *. cbn [rest] in R1.
  assert (E : ">"%char :: xs = (">"%char :: y :: w ++ ["<"%char]) ++ rest st3).
  { rewrite R1, R2, R3. cbn [app]. rewrite <- app_assoc. reflexivity. }
  rewrite Hs in E. apply app_inv_tail in E. exact E.
Qed.

Lemma gap_missing p s :
  gapAt s = false -> match_here f_g re_gap p s = None.
Proof.
  intros H. destruct (match_here f_g re_gap p s) as [[mt st']|] eqn:E; [|reflexivity].
  exfalso. destruct (gap_shape _ _ E) as [y [w [Hy [Hw Ew]]]].
  apply match_here_splits in E. destruct E as [Hs _]. rewrite Ew in Hs.
  subst s. cbn [app gapAt] in H. rewrite <- app_assoc in H. cbn [app] in H.
  change (y :: w ++ "<"%char :: rest st') with ((y :: w) ++ "<"%char :: rest st') in H.
  rewrite takeWhile_app_stop, dropWhile_app_stop in H;
    try reflexivity; try (cbn [forallb]; rewrite Hy, Hw; reflexivity).
  discriminate H.
Qed.

Lemma no_gap_exec : forall s p, hasGap s = false -> exec f_g re_gap p s = None.
Proof.
  induction s as [|c s IH]; intros p H.
  - apply exec_end. apply gap_missing. reflexivity.
  - cbn [hasGap] in H. apply orb_false_elim in H. destruct H as [H1 H2].
    rewrite exec_miss by (apply gap_missing; exact H1).
    rewrite IH by exact H2. reflexivity.
Qed.

Lemma gap_out_head s p :
  hd_error (replace_from f_g re_gap (fun (_ : unit) _ => (js "><", tt)) tt p s)
  = hd_error s.
Proof.
  destruct (match_here f_g re_gap p s) as [[mt st']|] eqn:E.
  - destruct (gap_shape _ _ E) as [y [w [Hy [Hw Ew]]]].
    rewrite replace_from_hit with (mt := mt) (st' := st') (w := ">"%char)
      (ws := y :: w ++ ["<"%char]) by assumption.
    apply match_here_splits in E. destruct E as [Hs _]. rewrite Hs, Ew. reflexivity.
  - destruct s as [|c s].
    + rewrite replace_from_end by exact E. reflexivity.
    + rewrite replace_from_miss by exact E. reflexivity.
Qed.

Lemma gap_out_spaces w : forall p s,
  forallb isSpace w = true ->
  exists q, replace_from f_g re_gap (fun (_ : unit) _ => (js "><", tt)) tt p (w ++ s)
            = w ++ replace_from f_g re_gap (fun (_ : unit) _ => (js "><", tt)) tt q s.
Proof.
  induction w as [|c w IH]; intros p s H.
  - exists p. reflexivity.
  - cbn [forallb] in H. apply andb_prop in H. destruct H as [Hc H].
    cbn [app]. rewrite replace_from_miss.
    + destruct (IH (Some c) s H) as [q E]. exists q. rewrite E. reflexivity.
    + apply heads_miss with (c := ">"%char); [apply caseless_gt|reflexivity|].
      intros ->. discriminate Hc.
Qed.

Lemma stops_head P a b : hd_error a = hd_error b -> stops P b -> stops P a.
Proof. destruct a, b; cbn; intros H; try discriminate; [auto|]. injection H as ->. auto. Qed.

Lemma gapAt_out c s p :
  gapAt (c :: replace_from f_g re_gap (fun (_ : unit) _ => (js "><", tt)) tt p s)
  = gapAt (c :: s).
Proof.
  cbn [gapAt].
  pose proof (take_drop_while isSpace s) as Es.
  destruct (@gap_out_spaces (takeWhile isSpace s) p (dropWhile isSpace s)
              (takeWhile_all isSpace s)) as [q E].
  rewrite Es in E. rewrite E.
  assert (Hst : stops isSpace
                  (replace_from f_g re_gap (fun (_ : unit) _ => (js "><", tt)) tt q
                     (dropWhile isSpace s))).
  { apply stops_head with (b := dropWhile isSpace s);
      [apply gap_out_head|apply dropWhile_stops]. }
  rewrite takeWhile_app_stop, dropWhile_app_stop
    by (try apply takeWhile_all; exact Hst).
  f_equal.
  pose proof (gap_out_head (dropWhile isSpace s) q) as Hh.
  destruct (replace_from f_g re_gap _ tt q (dropWhile isSpace s)) as [|a l],
           (dropWhile isSpace s) as [|b m]; cbn in Hh; try discriminate Hh;
    [reflexivity|].
  injection Hh as ->. reflexivity.
Qed.

Lemma no_gap_left : forall n s, length s <= n -> forall p,
  hasGap (replace_from f_g re_gap (fun (_ : unit) _ => (js "><", tt)) tt p s) = false.
Proof.
  induction n as [|n IH]; intros s Hn p.
  - destruct s; [|simpl in Hn; lia].
    rewrite replace_from_end; [reflexivity|]. apply gap_missing. reflexivity.
  - destruct (match_here f_g re_gap p s) as [[mt st']|] eqn:E.
    + destruct (gap_shape _ _ E) as [y [w [Hy [Hw Ew]]]].
      rewrite replace_from_hit with (mt := mt) (st' := st') (w := ">"%char)
        (ws := y :: w ++ ["<"%char]) by assumption.
      cbn [fst snd]. change (js "><") with [">"%char; "<"%char]. cbn [app hasGap].
      rewrite IH.
      * reflexivity.
      * apply match_here_splits in E. destruct E as [Hs _].
        apply (f_equal (@length ascii)) in Hs. rewrite Ew, length_app in Hs.
        cbn [length] in Hs. lia.
    + destruct s as [|c s].
      * rewrite replace_from_end by exact E. reflexivity.
      * rewrite replace_from_miss by exact E. cbn [hasGap].
        rewrite gapAt_out, IH by (simpl in Hn; lia).
        destruct (gapAt (c :: s)) eqn:G; [|reflexivity].
        exfalso. apply (@gap_found p (c :: s) G). exact E.
Qed.

(** X16. The normalization of gaps deletes white space that stands between
    a [>] and a [<], and nothing else; no such gap is left in its result, so
    a second normalization changes nothing; and a text without such a gap is
    returned as it is. *)
Theorem normalizeGaps_only_gaps (html : text) :
  squeezed html (normalizeGaps html) /\
  hasGap (normalizeGaps html) = false /\
  normalizeGaps (normalizeGaps html) = normalizeGaps html /\
  (hasGap html = false -> normalizeGaps html = html).
Proof.
  assert (Hid : forall s, hasGap s = false -> normalizeGaps s = s).
  { intros s H. unfold normalizeGaps. apply replaceAll_none.
    apply no_gap_exec. exact H. }
  assert (Hno : hasGap (normalizeGaps html) = false).
  { unfold normalizeGaps. rewrite replaceAll_from. apply (@no_gap_left (length html)).
    apply le_n. }
  split; [|split; [exact Hno|split; [apply Hid; exact Hno|apply Hid]]].
  unfold normalizeGaps. rewrite replaceAll_from.
  apply (@normalizeGaps_squeezed (length html)). apply le_n.
Qed.

Lemma normalizeGaps_only_gaps_witness :
  normalizeGaps (js "<p> a </p><p>b</p>") = js "<p> a </p><p>b</p>".
Proof.
  apply (proj2 (proj2 (proj2 (normalizeGaps_only_gaps (js "<p> a </p><p>b</p>"))))).
  reflexivity.
Defined.

(** ** Markup that no pass converts *)

Lemma squeezed_starts fl : forall pat', ~ In "<"%char pat' ->
  forall s t, squeezed s t -> starts_with fl pat' t = true -> starts_with fl pat' s = true.
Proof.
  induction pat' as [|b pat' IH]; intros Hn s t Hsq H; [reflexivity|].
  assert (Hn' : ~ In "<"%char pat') by (intros X; apply Hn; right; exact X).
  inversion Hsq as [|c s0 t0 Hsq0|w s0 t0 Hw Hsq0]; subst.
  - discriminate H.
  - cbn [starts_with] in *. apply andb_prop in H. destruct H as [Ha Hb].
    rewrite Ha, (IH Hn' _ _ Hsq0 Hb). reflexivity.
  - cbn [starts_with] in *. apply andb_prop in H. destruct H as [Ha Hb].
    rewrite Ha. destruct pat' as [|b2 pat'']; [reflexivity|].
    cbn [starts_with] in Hb. apply andb_prop in Hb. destruct Hb as [Hb _].
    rewrite same_sym in Hb. apply caseless_lt in Hb. subst b2.
    exfalso. apply Hn'. left. reflexivity.
Qed.

Lemma mentions_suffix fl pat a b : mentions fl pat b = true -> mentions fl pat (a ++ b) = true.
Proof.
  intros H. induction a as [|c a IH]; [exact H|].
  cbn [app mentions]. rewrite IH. apply orb_true_r.
Qed.

Lemma squeezed_mentions fl pat :
  marker "<" pat ->
  forall s t, squeezed s t -> mentions fl pat t = true -> mentions fl pat s = true.
Proof.
  intros [pat' [-> Hn]]. induction 1 as [|c s t Hsq IH|w s t Hw Hsq IH]; intros H.
  - discriminate H.
  - cbn [mentions] in *. apply orb_prop in H. destruct H as [H|H].
    + cbn [starts_with] in *. apply andb_prop in H. destruct H as [H1 H2].
      rewrite H1, (@squeezed_starts fl pat' Hn s t Hsq H2). reflexivity.
    + rewrite (IH H). apply orb_true_r.
  - assert (Hs : mentions fl ("<"%char :: pat') ("<"%char :: s) = true).
    { cbn [mentions] in H. apply orb_prop in H. destruct H as [H|H].
      - cbn [starts_with] in H. apply andb_prop in H. destruct H as [H _].
        apply caseless_lt in H. discriminate H.
      - apply orb_prop in H. destruct H as [H|H].
        + cbn [mentions starts_with] in *. apply andb_prop in H. destruct H as [H1 H2].
          rewrite H1, (@squeezed_starts fl pat' Hn s t Hsq H2). reflexivity.
        + cbn [mentions]. rewrite (IH H). apply orb_true_r. }
    change (">"%char :: w ++ "<"%char :: s) with ((">"%char :: w) ++ "<"%char :: s).
    apply mentions_suffix. exact Hs.
Qed.

Lemma squeezed_free fl pats s t :
  Forall (marker "<") pats -> squeezed s t ->
  free_of fl pats s = true -> free_of fl pats t = true.
Proof.
  intros Hm Hsq. unfold free_of. induction Hm as [|pat pats Hp Hm IH]; [reflexivity|].
  cbn [forallb]. intros H. apply andb_prop in H. destruct H as [H1 H2].
  rewrite (IH H2), andb_true_r. apply negb_true_iff in H1. apply negb_true_iff.
  destruct (mentions fl pat t) eqn:E; [|reflexivity].
  rewrite (@squeezed_mentions fl pat Hp s t Hsq E) in H1. discriminate H1.
Qed.

Lemma free_sub fl pats pats' t :
  incl pats' pats -> free_of fl pats t = true -> free_of fl pats' t = true.
Proof.
  unfold free_of. intros Hi H. rewrite forallb_forall in *.
  intros x Hx. apply H. apply Hi. exact Hx.
Qed.

Lemma free_flags fl fl' pats t :
  icase fl = icase fl' -> free_of fl pats t = free_of fl' pats t.
Proof.
  intros H. unfold free_of. induction pats as [|pat pats IH]; [reflexivity|].
  cbn [forallb]. rewrite IH, (@mentions_flags fl fl' pat H). reflexivity.
Qed.

(** A replacement leaves a text alone in which none of the places occurs
    where its expression can match. *)
Lemma replaceAll_free fl r cb pats t :
  Forall (marker "<") pats ->
  (forall p s, opensAny fl pats s = false -> match_here fl r p s = None) ->
  free_of fl pats t = true ->
  replaceAll fl r cb t = t.
Proof.
  intros Hm Hd Hf. rewrite replaceAll_from.
  destruct (@replace_from_quiet unit fl r (fun _ mt => (cb mt, tt)) tt _ Hd t None []
              (@free_quiet fl "<"%char pats [] caseless_lt Hm (@follows_nil "<"%char) t Hf))
    as [q E].
  rewrite app_nil_r in E. rewrite E.
  rewrite replace_from_end; [apply app_nil_r|].
  apply Hd. apply opensAny_nil with (k := "<"%char). exact Hm.
Qed.

Lemma marker_js (s : string) :
  existsb (Ascii.eqb "<") (js s) = false -> marker "<" ("<"%char :: js s).
Proof. intros H. apply marker_lt. apply no_lt_in. exact H. Qed.

Lemma bold_alt_runs st :
  run f_gi (Alt (Chr "b") (lit "strong")) st
  = again f_gi (js "b") st ++ again f_gi (js "strong") st.
Proof.
  rewrite run_alt, run_chr, <- again_one.
  change (lit "strong") with (seq (map Chr (js "strong"))). rewrite run_lit.
  reflexivity.
Qed.

Lemma italic_alt_runs st :
  run f_gi (Alt (Chr "i") (lit "em")) st
  = again f_gi (js "i") st ++ again f_gi (js "em") st.
Proof.
  rewrite run_alt, run_chr, <- again_one.
  change (lit "em") with (seq (map Chr (js "em"))). rewrite run_lit.
  reflexivity.
Qed.

Lemma convertMarkers_marker : Forall (marker "<") convertMarkers.
Proof.
  unfold convertMarkers. apply Forall_app. split; [|apply Forall_app; split].
  - repeat constructor. apply (marker_js "br"). reflexivity.
  - apply closePats_marker.
  - repeat constructor;
      [apply (marker_js "b>")|apply (marker_js "strong>")|apply (marker_js "i>")
      |apply (marker_js "em>")|apply (marker_js "a")|apply (marker_js "ol>")
      |apply (marker_js "ul>")|apply (marker_js "blockquote>")
      |apply (marker_js "table>")]; reflexivity.
Qed.

(** X17. A text in which none of the converted markers occurs (no [<br], no
    closing tag of a heading or paragraph, no [<b>], [<strong>], [<i>],
    [<em>], [<a], [<ol>], [<ul>], [<blockquote>], [<table>], in any letter
    case) goes through the passes for line breaks, headings, bold, italic,
    links, lists, quotes and tables unchanged: preserveFormat only closes
    the gaps between tags, removes the tags that are not ignored, decodes
    the entities, collapses the newlines and trims. *)
Theorem preserveFormat_other_markup (html : text) (ignoreTags : list text) :
  free_of f_gi convertMarkers html = true ->
  preserveFormat html ignoreTags
  = trim (collapseNewlines (decodeEntities (stripPass ignoreTags (normalizeGaps html)))).
Proof.
  intros Hfree.
  assert (Ht : free_of f_gi convertMarkers (normalizeGaps html) = true).
  { apply squeezed_free with (s := html);
      [apply convertMarkers_marker| |exact Hfree].
    unfold normalizeGaps. rewrite replaceAll_from.
    apply (@normalizeGaps_squeezed (length html)). apply le_n. }
  set (t := normalizeGaps html) in *.
  assert (Hs : forall pats, incl pats convertMarkers -> free_of f_gi pats t = true).
  { intros pats Hi. apply (@free_sub f_gi convertMarkers pats t Hi Ht). }
  assert (Hss : forall pats, incl pats convertMarkers -> free_of f_gis pats t = true).
  { intros pats Hi. rewrite (@free_flags f_gis f_gi pats t eq_refl). apply Hs. exact Hi. }
  assert (E1 : brPass ignoreTags t = t).
  { unfold brPass. destruct (includes ignoreTags (js "br")); [reflexivity|].
    cbn [negb]. unfold brToNewline.
    apply replaceAll_free with (pats := [js "<br"]).
    - repeat constructor. apply (marker_js "br"). reflexivity.
    - intros p s H. apply (@lit_demand f_gi (js "<br") _ p s H).
    - apply Hs. pick_markers. }
  assert (E2 : closePass ignoreTags t = t).
  { unfold closePass. apply replaceAll_free with (pats := closePats).
    - apply closePats_marker.
    - apply close_demand.
    - apply Hs. pick_markers. }
  assert (E3 : boldPass ignoreTags t = t).
  { unfold boldPass. rewrite re_bold_pair.
    apply replaceAll_free with (pats := [openTag (js "b"); openTag (js "strong")]).
    - repeat constructor; [apply (marker_js "b>")|apply (marker_js "strong>")];
        reflexivity.
    - apply (@pair_demand _ (js "b") (js "strong") bold_alt_runs).
    - apply Hs. pick_markers. }
  assert (E4 : italicPass ignoreTags t = t).
  { unfold italicPass. rewrite re_italic_pair.
    apply replaceAll_free with (pats := [openTag (js "i"); openTag (js "em")]).
    - repeat constructor; [apply (marker_js "i>")|apply (marker_js "em>")];
        reflexivity.
    - apply (@pair_demand _ (js "i") (js "em") italic_alt_runs).
    - apply Hs. pick_markers. }
  assert (E5 : linkPass ignoreTags t = t).
  { unfold linkPass. destruct (includes ignoreTags (js "a")); [reflexivity|].
    cbn [negb]. apply replaceAll_free with (pats := [js "<a"]).
    - repeat constructor. apply (marker_js "a"). reflexivity.
    - intros p s H. apply (@lit_demand f_gi (js "<a") _ p s H).
    - apply Hs. pick_markers. }
  assert (E6 : olPass ignoreTags t = t).
  { unfold olPass. apply replaceAll_free with (pats := [js "<ol>"]).
    - repeat constructor. apply (marker_js "ol>"). reflexivity.
    - intros p s H. apply (@lit_demand f_gis (js "<ol>") _ p s H).
    - apply Hss. pick_markers. }
  assert (E7 : ulPass ignoreTags t = t).
  { unfold ulPass. apply replaceAll_free with (pats := [js "<ul>"]).
    - repeat constructor. apply (marker_js "ul>"). reflexivity.
    - intros p s H. apply (@lit_demand f_gis (js "<ul>") _ p s H).
    - apply Hss. pick_markers. }
  assert (E8 : blockquotePass ignoreTags t = t).
  { unfold blockquotePass. destruct (includes ignoreTags (js "blockquote"));
      [reflexivity|].
    cbn [negb]. apply replaceAll_free with (pats := [js "<blockquote>"]).
    - repeat constructor. apply (marker_js "blockquote>"). reflexivity.
    - intros p s H. apply (@lit_demand f_gis (js "<blockquote>") _ p s H).
    - apply Hss. pick_markers. }
  assert (E9 : tablePass ignoreTags t = t).
  { unfold tablePass. apply replaceAll_free with (pats := [js "<table>"]).
    - repeat constructor. apply (marker_js "table>"). reflexivity.
    - intros p s H. apply (@lit_demand f_gis (js "<table>") _ p s H).
    - apply Hss. pick_markers. }
  assert (Epf : preserveFormat html ignoreTags
                = match html with
                  | [] => []
                  | _ :: _ =>
                      trim (collapseNewlines (decodeEntities (stripPass ignoreTags
                        (tablePass ignoreTags (blockquotePass ignoreTags
                          (ulPass ignoreTags (olPass ignoreTags (linkPass ignoreTags
                            (italicPass ignoreTags (boldPass ignoreTags
                              (closePass ignoreTags (brPass ignoreTags t))))))))))))
                  end) by (destruct html; reflexivity).
  rewrite Epf, E1, E2, E3, E4, E5, E6, E7, E8, E9.
  destruct html; [|reflexivity].
  unfold t, stripPass. destruct (Nat.eqb (length ignoreTags) 0); reflexivity.
Qed.

Lemma preserveFormat_other_markup_witness :
  preserveFormat (js "<div> <span>a</span> &amp; <img src=\qx\q></div>") [js "span"]
  = trim (collapseNewlines (decodeEntities (stripPass [js "span"]
      (normalizeGaps (js "<div> <span>a</span> &amp; <img src=\qx\q></div>"))))).
Proof.
  apply (@preserveFormat_other_markup
           (js "<div> <span>a</span> &amp; <img src=\qx\q></div>") [js "span"]).
  vm_compute. reflexivity.
Defined.

(** ** Entities *)

Lemma entRe_lit e : entRe e = seq (map Chr (entName e)).
Proof. destruct e; reflexivity. Qed.

Lemma quiet_no_amp e s t :
  ~ In "&"%char t -> quiet (starts_with f_gi (entName e)) s t.
Proof.
  induction t as [|c t IH]; intros H; [exact I|].
  cbn [quiet]. split; [|apply IH; intros X; apply H; right; exact X].
  assert (Hc : same f_gi c "&" = false).
  { destruct (same f_gi c "&") eqn:E; [|reflexivity].
    apply caseless_amp in E. subst c. exfalso. apply H. left. reflexivity. }
  destruct e; cbn [entName]; change (js "&nbsp;") with ("&"%char :: js "nbsp;");
    change (js "&amp;") with ("&"%char :: js "amp;");
    change (js "&lt;") with ("&"%char :: js "lt;");
    change (js "&gt;") with ("&"%char :: js "gt;");
    cbn [app starts_with]; rewrite Hc; reflexivity.
Qed.

Lemma ent_demand e p s :
  starts_with f_gi (entName e) s = false -> match_here f_gi (entRe e) p s = None.
Proof.
  intros H. unfold match_here. rewrite entRe_lit, run_lit, again_fails by exact H.
  reflexivity.
Qed.

Lemma ent_here e m s p :
  toLowerCase m = entName e ->
  exists mt st',
    match_here f_gi (entRe e) p (m ++ s) = Some (mt, st') /\
    whole mt = m /\ rest st' = s.
Proof.
  intros H.
  assert (L : leads f_gi (entRe e) (m ++ s) [] s []).
  { rewrite entRe_lit. apply leads_lit.
    apply lower_reads; [reflexivity|destruct e; reflexivity|exact H]. }
  destruct (@leads_here _ _ _ _ _ L p) as [mt [st' [Hm [Hw [_ Hr]]]]].
  exists mt, st'. repeat split; assumption.
Qed.

Lemma lower_amp x : lowerChar x = "&"%char -> x = "&"%char.
Proof. each_ascii x; intros H; try discriminate H; reflexivity. Qed.

Lemma lower_keeps_amp m : In "&"%char m -> In "&"%char (toLowerCase m).
Proof. intros H. apply (in_map lowerChar) in H. exact H. Qed.

(** The spelling of an entity: [&], then the letters in some case. *)
Lemma spelled e m :
  toLowerCase m = entName e ->
  exists x1 m', m = "&"%char :: x1 :: m' /\ ~ In "&"%char (x1 :: m') /\
                same f_gi x1 (nth 1 (entName e) " "%char) = true.
Proof.
  intros H. destruct m as [|x0 [|x1 m']]; [destruct e; discriminate H|
                                          destruct e; discriminate H|].
  exists x1, m'.
  assert (H0 : lowerChar x0 = "&"%char) by (destruct e; cbn in H; congruence).
  apply lower_amp in H0. subst x0. split; [reflexivity|]. split.
  - intros Hin. apply lower_keeps_amp in Hin.
    assert (Et : toLowerCase (x1 :: m') = tl (entName e)).
    { rewrite <- H. reflexivity. }
    rewrite Et in Hin. destruct e; cbn in Hin;
      repeat (destruct Hin as [Hin|Hin]; [discriminate Hin|]); exact Hin.
  - assert (H1 : lowerChar x1 = nth 1 (entName e) " "%char).
    { rewrite <- H. reflexivity. }
    rewrite <- H1. apply lower_same; [reflexivity|]. rewrite H1.
    destruct e; reflexivity.
Qed.

(** An entity of another kind is passed by. *)
Lemma inert_spelled e e' m s :
  e <> e' -> toLowerCase m = entName e' ->
  quiet (starts_with f_gi (entName e)) s m.
Proof.
  intros Hne H. destruct (@spelled e' m H) as [x1 [m' [-> [Hn Hx]]]].
  split; [|apply quiet_no_amp; exact Hn].
  assert (Hd : forall l, nth 1 (entName e) " "%char = l -> same f_gi x1 l = false).
  { intros l <-.
    destruct (same f_gi x1 (nth 1 (entName e) " "%char)) eqn:E; [|reflexivity].
    rewrite same_sym in E, Hx.
    pose proof (@same_trans f_gi _ _ _ E Hx) as Hs.
    destruct e, e'; try congruence; discriminate Hs. }
  destruct e; cbn [entName];
    [change (js "&nbsp;") with ("&"%char :: "n"%char :: js "bsp;")
    |change (js "&amp;") with ("&"%char :: "a"%char :: js "mp;")
    |change (js "&lt;") with ("&"%char :: "l"%char :: js "t;")
    |change (js "&gt;") with ("&"%char :: "g"%char :: js "t;")];
    cbn [app starts_with];
    [rewrite (Hd "n"%char eq_refl)|rewrite (Hd "a"%char eq_refl)
    |rewrite (Hd "l"%char eq_refl)|rewrite (Hd "g"%char eq_refl)];
    cbn [andb]; apply andb_false_r.
Qed.

Lemma starts_with_next fl pat' s :
  (forall c s', s = c :: s' -> forallb (fun b => negb (same fl c b)) pat' = true) ->
  forall u, starts_with fl pat' (u ++ s) = starts_with fl pat' u.
Proof.
  revert s. induction pat' as [|b pat' IH]; intros s Hs u; [reflexivity|].
  destruct u as [|y u].
  - cbn [app starts_with]. destruct s as [|c s']; [reflexivity|].
    specialize (Hs c s' eq_refl). cbn [forallb] in Hs.
    apply andb_prop in Hs. destruct Hs as [Hs _]. apply negb_true_iff in Hs.
    rewrite Hs. reflexivity.
  - cbn [app starts_with]. f_equal. apply IH.
    intros c s' E. specialize (Hs c s' E). cbn [forallb] in Hs.
    apply andb_prop in Hs. destruct Hs as [_ Hs]. exact Hs.
Qed.

(** What follows an entity starts with [lt;] or [gt;] only if the next text
    does. *)
Lemma next_starts n pat' bs tail :
  pat' = js "lt;" \/ pat' = js "gt;" ->
  entOk bs tail ->
  starts_with f_gi pat'
    (interleave (map (fun tb => (fst tb, curMark n (snd tb))) bs) tail)
  = starts_with f_gi pat' (nextText bs tail).
Proof.
  intros Hp Hok. destruct bs as [|[t' m'] bs']; [reflexivity|].
  cbn [map interleave fst snd nextText].
  apply starts_with_next. intros c s' E.
  cbn [entOk] in Hok. destruct Hok as [_ [Hm _]].
  destruct (@spelled _ _ Hm) as [x1 [m1 [Et _]]].
  unfold curMark in E. rewrite Et in E.
  destruct (Nat.ltb (stageOf (ent_kind m')) n);
    [destruct (ent_kind m')|]; cbn [entChar app] in E; injection E as <- _;
    destruct Hp as [-> | ->]; reflexivity.
Qed.

Lemma stageOf_inj e e' : stageOf e = stageOf e' -> e = e'.
Proof. destruct e, e'; intros H; try discriminate H; reflexivity. Qed.

(** One replacement of the chain, on a document of entities. *)
Lemma entity_pass e : forall blocks tail,
  entOk blocks tail -> forall p,
  replace_from f_gi (entRe e) (fun (_ : unit) _ => (entChar e, tt)) tt p
    (interleave (map (fun tb => (fst tb, curMark (stageOf e) (snd tb))) blocks) tail)
  = interleave (map (fun tb => (fst tb, curMark (S (stageOf e)) (snd tb))) blocks) tail.
Proof.
  assert (Hskip : forall t q s, ~ In "&"%char t ->
            exists q', replace_from f_gi (entRe e)
                         (fun (_ : unit) _ => (entChar e, tt)) tt q (t ++ s)
                       = t ++ replace_from f_gi (entRe e)
                                (fun (_ : unit) _ => (entChar e, tt)) tt q' s).
  { intros t q s Ht.
    apply replace_from_quiet with (d := starts_with f_gi (entName e)).
    - intros p0 s0. apply ent_demand.
    - apply quiet_no_amp. exact Ht. }
  induction blocks as [|[t m] bs IH]; intros tail Hok p.
  - cbn [map interleave entOk] in *.
    destruct (Hskip tail p [] Hok) as [q E]. rewrite app_nil_r in E. rewrite E.
    rewrite replace_from_end; [apply app_nil_r|].
    apply ent_demand. destruct e; reflexivity.
  - cbn [entOk] in Hok. destruct Hok as [Ht [Hm [Hamp Hok]]].
    cbn [map interleave fst snd].
    destruct (Hskip t p
                (curMark (stageOf e) m
                 ++ interleave (map (fun tb => (fst tb, curMark (stageOf e) (snd tb))) bs)
                      tail) Ht) as [q E].
    rewrite E. f_equal. clear E.
    destruct (Nat.eq_dec (stageOf (ent_kind m)) (stageOf e)) as [Heq|Hneq].
    + apply stageOf_inj in Heq. unfold curMark. rewrite Heq.
      rewrite Nat.ltb_irrefl. rewrite (proj2 (Nat.ltb_lt _ _)) by lia.
      rewrite Heq in Hm.
      destruct (@ent_here e (ent_text m)
                  (interleave (map (fun tb => (fst tb, curMark (stageOf e) (snd tb))) bs)
                     tail) q Hm) as [mt [st' [Hh [Hw Hr]]]].
      destruct (@spelled _ _ Hm) as [x1 [m1 [Et _]]].
      rewrite replace_from_hit with (mt := mt) (st' := st') (w := "&"%char)
        (ws := x1 :: m1); [|exact Hh|rewrite Hw; exact Et].
      cbn [fst snd]. rewrite Hr, IH by exact Hok. reflexivity.
    + assert (Hsame : curMark (S (stageOf e)) m = curMark (stageOf e) m).
      { unfold curMark.
        destruct (Nat.ltb_spec (stageOf (ent_kind m)) (stageOf e)) as [Hl|Hl].
        - rewrite (proj2 (Nat.ltb_lt _ _)) by lia. reflexivity.
        - rewrite (proj2 (Nat.ltb_ge _ _)) by lia. reflexivity. }
      rewrite Hsame.
      assert (Hq : quiet (starts_with f_gi (entName e))
                     (interleave
                        (map (fun tb => (fst tb, curMark (stageOf e) (snd tb))) bs) tail)
                     (curMark (stageOf e) m)).
      { change (curMark (stageOf e) m)
          with (if Nat.ltb (stageOf (ent_kind m)) (stageOf e)
                then entChar (ent_kind m) else ent_text m).
        destruct (Nat.ltb_spec (stageOf (ent_kind m)) (stageOf e)) as [Hl|Hl].
        - destruct (ent_kind m) eqn:Ek.
          + apply quiet_no_amp. intros [H|[]]. discriminate H.
          + destruct (Hamp eq_refl) as [H1 H2].
            cbn [entChar quiet]. change (js "&") with ["&"%char]. cbn [app quiet].
            split; [|exact I].
            destruct e; cbn [stageOf] in Hl; try lia; cbn [entName];
              [change (js "&lt;") with ("&"%char :: js "lt;")
              |change (js "&gt;") with ("&"%char :: js "gt;")];
              cbn [starts_with]; rewrite same_refl; cbn [andb];
              rewrite next_starts by (auto; exact Hok); assumption.
          + apply quiet_no_amp. intros [H|[]]. discriminate H.
          + apply quiet_no_amp. intros [H|[]]. discriminate H.
        - apply inert_spelled with (e' := ent_kind m); [|exact Hm].
          intros ->. apply Hneq. reflexivity. }
      destruct (@replace_from_quiet unit f_gi (entRe e)
                  (fun _ _ => (entChar e, tt)) tt _ (ent_demand e)
                  (curMark (stageOf e) m) q _ Hq) as [q' E].
      rewrite E, IH by exact Hok. reflexivity.
Qed.

(** X18. The decoding of entities, on any document made of texts without
    [&] and, between them, the entities [&nbsp;], [&amp;], [&lt;] and [&gt;]
    in any letter case: every entity becomes its character and the texts
    are kept, provided that the text after an [&amp;] does not start with
    [lt;] or [gt;].  The proviso is needed: [&amp;] is decoded before [&lt;]
    and [&gt;], so [&amp;lt;] comes out as [<] and [&amp;gt;] as [>]. *)
Theorem decodeEntities_entities :
  (forall blocks tail,
      entOk blocks tail ->
      decodeEntities
        (interleave (map (fun tb => (fst tb, ent_text (snd tb))) blocks) tail)
      = interleave (map (fun tb => (fst tb, entChar (ent_kind (snd tb)))) blocks) tail) /\
  decodeEntities (js "&amp;lt;") = js "<" /\
  decodeEntities (js "&amp;gt;") = js ">".
Proof.
  split; [|split; vm_compute; reflexivity].
  intros blocks tail Hok.
  assert (P : forall e s,
            replaceAll f_gi (entRe e) (fun _ => entChar e) s
            = replace_from f_gi (entRe e) (fun (_ : unit) _ => (entChar e, tt)) tt None s)
    by reflexivity.
  change (decodeEntities
            (interleave (map (fun tb => (fst tb, ent_text (snd tb))) blocks) tail))
    with (replaceAll f_gi (entRe Egt) (fun _ => entChar Egt)
            (replaceAll f_gi (entRe Elt) (fun _ => entChar Elt)
               (replaceAll f_gi (entRe Eamp) (fun _ => entChar Eamp)
                  (replaceAll f_gi (entRe Enbsp) (fun _ => entChar Enbsp)
                     (interleave
                        (map (fun tb => (fst tb, curMark (stageOf Enbsp) (snd tb)))
                           blocks) tail))))).
  rewrite (P Enbsp), (@entity_pass Enbsp blocks tail Hok None).
  change (S (stageOf Enbsp)) with (stageOf Eamp).
  rewrite (P Eamp), (@entity_pass Eamp blocks tail Hok None).
  change (S (stageOf Eamp)) with (stageOf Elt).
  rewrite (P Elt), (@entity_pass Elt blocks tail Hok None).
  change (S (stageOf Elt)) with (stageOf Egt).
  rewrite (P Egt), (@entity_pass Egt blocks tail Hok None).
  f_equal. apply map_ext. intros [t m]. cbn [fst snd]. unfold curMark.
  destruct (ent_kind m); reflexivity.
Qed.

Lemma decodeEntities_entities_witness :
  decodeEntities (js "a&LT;b&amp;&Gt; c&nbsp;&amp; lt;") = js "a<b&> c & lt;".
Proof.
  apply (proj1 decodeEntities_entities
           [(js "a", {| ent_kind := Elt; ent_text := js "&LT;" |});
            (js "b", {| ent_kind := Eamp; ent_text := js "&amp;" |});
            ([], {| ent_kind := Egt; ent_text := js "&Gt;" |});
            (js " c", {| ent_kind := Enbsp; ent_text := js "&nbsp;" |});
            ([], {| ent_kind := Eamp; ent_text := js "&amp;" |})]
           (js " lt;")).
  cbn [entOk nextText ent_kind ent_text].
  repeat split; try reflexivity; try discriminate;
    cbn; intros H; repeat (destruct H as [H|H]; [discriminate H|]); exact H.
Defined.

(** ** Runs of newlines *)

Lemma capLF_short : forall s k, k + lead s <= 2 -> capLF k s = capLF 0 s.
Proof.
  induction s as [|c s IH]; intros k H; [reflexivity|].
  unfold lead in H. cbn [capLF takeWhile] in *. destruct (isLF c) eqn:E.
  - cbn [length] in H. rewrite (proj2 (Nat.ltb_lt k 2)) by lia.
    cbn [Nat.ltb Nat.leb]. f_equal.
    rewrite (IH (S k)) by (unfold lead; lia).
    rewrite (IH 1) by (unfold lead; lia). reflexivity.
  - reflexivity.
Qed.

Lemma capLF_run : forall w k r,
  forallb isLF w = true -> 2 <= k -> capLF k (w ++ r) = capLF (k + length w) r.
Proof.
  induction w as [|c w IH]; intros k r Hw Hk.
  - cbn [app length]. rewrite Nat.add_0_r. reflexivity.
  - cbn [forallb] in Hw. apply andb_prop in Hw. destruct Hw as [Hc Hw].
    cbn [app capLF length]. rewrite Hc, (proj2 (Nat.ltb_ge k 2)) by lia.
    rewrite IH by (try assumption; lia). f_equal. lia.
Qed.

Lemma capLF_stop k r : stops isLF r -> capLF k r = capLF 0 r.
Proof.
  destruct r as [|c r]; [reflexivity|]. cbn [stops capLF]. intros ->. reflexivity.
Qed.

Lemma collapse_caps : forall n s, length s <= n -> forall p,
  replace_from f_g re_newlines (fun (_ : unit) _ => (js "\n\n", tt)) tt p s = capLF 0 s.
Proof.
  induction n as [|n IH]; intros s Hn p.
  - destruct s; [|simpl in Hn; lia].
    apply replace_from_end.
    destruct (newlines_here p []) as [[t [mt [st' [H _]]]]|[H _]]; [discriminate|exact H].
  - destruct (newlines_here p s) as [[t [mt [st' [Hs [Hm [Hw Hr]]]]]]|[Hm Hl]].
    + rewrite replace_from_hit with (mt := mt) (st' := st') (w := LF)
        (ws := LF :: LF :: takeWhile isLF t) by assumption.
      cbn [fst snd]. rewrite Hr, IH.
      * subst s. change (js "\n\n") with [LF; LF].
        cbn [app capLF]. change (isLF LF) with true. cbn [Nat.ltb Nat.leb].
        do 2 f_equal.
        transitivity (capLF 3 (takeWhile isLF t ++ dropWhile isLF t));
          [|rewrite take_drop_while; reflexivity].
        rewrite capLF_run by (try apply takeWhile_all; lia).
        symmetry. apply capLF_stop. apply dropWhile_stops.
      * subst s. simpl in Hn.
        pose proof (f_equal (@length ascii) (take_drop_while isLF t)) as HL.
        rewrite length_app in HL. lia.
    + destruct s as [|c s].
      * rewrite replace_from_end by exact Hm. reflexivity.
      * rewrite replace_from_miss by exact Hm. rewrite IH by (simpl in Hn; lia).
        cbn [capLF]. destruct (isLF c) eqn:E; [|reflexivity].
        cbn [Nat.ltb Nat.leb]. f_equal. symmetry. apply capLF_short.
        unfold lead in *. cbn [takeWhile] in Hl. rewrite E in Hl. cbn [length] in Hl.
        lia.
Qed.

(** X19. The collapsing of newlines cuts every run of newlines to at most
    two and changes nothing else; a text without three newlines in a row
    is returned as it is, and collapsing twice is collapsing once. *)
Theorem collapseNewlines_caps_runs (s : text) :
  collapseNewlines s = capLF 0 s /\
  (calm 0 s = true -> collapseNewlines s = s) /\
  collapseNewlines (collapseNewlines s) = collapseNewlines s.
Proof.
  assert (Hid : forall t, calm 0 t = true -> collapseNewlines t = t).
  { intros t H. unfold collapseNewlines. rewrite replaceAll_from.
    apply collapse_id. exact H. }
  split; [|split; [apply Hid|apply Hid; apply collapseNewlines_calm]].
  unfold collapseNewlines. rewrite replaceAll_from.
  apply (@collapse_caps (length s)). apply le_n.
Qed.

Lemma collapseNewlines_caps_runs_witness :
  collapseNewlines (js "a\n\nb\nc") = js "a\n\nb\nc".
Proof.
  apply (proj1 (proj2 (collapseNewlines_caps_runs (js "a\n\nb\nc")))).
  reflexivity.
Defined.

(** ** Headings and paragraphs, from end to end *)

Lemma body_without t c :
  forallb bodyChar t = true ->
  c = "<"%char \/ c = ">"%char \/ c = "&"%char \/ c = LF -> ~ In c t.
Proof.
  intros H Hc Hin. rewrite forallb_forall in H. specialize (H c Hin).
  destruct Hc as [-> |[-> |[-> | ->]]]; discriminate H.
Qed.

Lemma mentions_no_lead fl k pat' u :
  caseless k -> ~ In k u -> mentions fl (k :: pat') u = false.
Proof.
  intros Hk. induction u as [|c u IH]; intros H; [reflexivity|].
  rewrite mentions_off; [apply IH|exact Hk|].
  - intros X. apply H. right. exact X.
  - intros ->. apply H. left. reflexivity.
Qed.

Lemma avoids_inv fl seconds pat :
  avoids fl seconds pat = true ->
  exists c2 rest, pat = "<"%char :: c2 :: rest /\ ~ In "<"%char (c2 :: rest) /\
                  forall y, In y seconds -> same fl y c2 = false.
Proof.
  destruct pat as [|c1 [|c2 rest]]; try discriminate. cbn [avoids]. intros H.
  apply andb_prop in H. destruct H as [H H3].
  apply andb_prop in H. destruct H as [H1 H2].
  apply Ascii.eqb_eq in H1. subst c1. exists c2, rest. split; [reflexivity|]. split.
  - intros Hin. apply in_existsb_eqb in Hin. rewrite Hin in H2. discriminate H2.
  - intros y Hy. rewrite forallb_forall in H3. apply negb_true_iff. apply H3. exact Hy.
Qed.

Lemma pieces_mentions fl seconds pat pieces :
  avoids fl seconds pat = true -> Forall (ledBy seconds) pieces ->
  mentions fl pat (concat pieces) = false.
Proof.
  intros Ha. destruct (@avoids_inv _ _ _ Ha) as [c2 [rest [-> [Hn Hs]]]].
  induction 1 as [|pc pieces [y [u [-> [Hu Hy]]]] Hp IH]; [reflexivity|].
  cbn [concat].
  rewrite (@mentions_app fl "<"%char _ (concat pieces) caseless_lt (@marker_lt _ Hn)).
  - rewrite IH, orb_false_r.
    rewrite mentions_second by (apply Hs; exact Hy).
    apply mentions_no_lead; [apply caseless_lt|exact Hu].
  - destruct Hp as [|pc' pieces' [y' [u' [-> _]]] _]; [apply follows_nil|].
    cbn [concat app]. apply follows_cons.
Qed.

Lemma pieces_free fl seconds pats pieces :
  forallb (avoids fl seconds) pats = true -> Forall (ledBy seconds) pieces ->
  free_of fl pats (concat pieces) = true.
Proof.
  intros Ha Hp. unfold free_of. rewrite forallb_forall in *. intros pat Hin.
  rewrite (@pieces_mentions fl seconds pat pieces (Ha pat Hin) Hp). reflexivity.
Qed.

Lemma name_led (n : text) :
  In n closeNames ->
  exists y n', n = y :: n' /\ In y ["h"; "p"]%char /\
               ~ In "<"%char n /\ ~ In ">"%char n /\ name_ok n = true /\
               toLowerCase n = n /\ forallb bodyChar n = true.
Proof.
  unfold closeNames. cbn [In]. intros H.
  repeat (destruct H as [<-|H];
          [eexists _, _; split; [reflexivity|];
           repeat split; try reflexivity; cbn; intuition discriminate|]).
  destruct H.
Qed.

Lemma open_led n body :
  In n closeNames -> forallb bodyChar body = true ->
  forall w, ~ In "<"%char w -> ledBy ["h"; "p"]%char (openTag n ++ body ++ w).
Proof.
  intros Hn Hb w Hw. destruct (@name_led _ Hn) as [y [n' [-> [Hy [Hlt _]]]]].
  exists y, (n' ++ js ">" ++ body ++ w). split; [|split; [|exact Hy]].
  - unfold openTag. change (js "<") with ["<"%char]. rewrite <- !app_assoc.
    reflexivity.
  - change (y :: n' ++ js ">" ++ body ++ w) with ((y :: n') ++ js ">" ++ body ++ w).
    intros Hin. apply in_app_or in Hin. destruct Hin as [Hin|Hin]; [contradiction|].
    apply in_app_or in Hin. destruct Hin as [[Hin|[]]|Hin]; [discriminate Hin|].
    apply in_app_or in Hin. destruct Hin as [Hin|Hin]; [|contradiction].
    revert Hin. apply body_without; [exact Hb|left; reflexivity].
Qed.

Lemma close_led n :
  In n closeNames -> ledBy ["h"; "p"; "/"]%char (closeTag n).
Proof.
  intros Hn. destruct (@name_led _ Hn) as [y [n' [-> [_ [Hlt _]]]]].
  exists "/"%char, ((y :: n') ++ js ">"). split; [reflexivity|]. split.
  - intros [Hin|Hin]; [discriminate Hin|].
    apply in_app_or in Hin. destruct Hin as [Hin|[Hin|[]]];
      [contradiction|discriminate Hin].
  - right. right. left. reflexivity.
Qed.

Lemma ledBy_more s1 s2 pc : incl s1 s2 -> ledBy s1 pc -> ledBy s2 pc.
Proof.
  intros Hi [y [u [E [Hn Hy]]]]. exists y, u. repeat split; auto.
Qed.

(** The document before and after the pass of headings and paragraphs. *)
Lemma paras_pieces blocks :
  Forall (fun b => In (fst b) closeNames /\ cleanBody (snd b)) blocks ->
  exists pieces, concat pieces = concat (map paraText blocks) /\
                 Forall (ledBy ["h"; "p"; "/"]%char) pieces.
Proof.
  induction 1 as [|[n body] blocks [Hn [_ Hb]] _ [pieces [E Hp]]].
  - exists []. split; [reflexivity|constructor].
  - exists ((openTag n ++ body ++ []) :: closeTag n :: pieces). split.
    + cbn [concat map]. unfold paraText at 1. cbn [fst snd].
      rewrite E, app_nil_r, <- !app_assoc. reflexivity.
    + constructor; [|constructor; [apply close_led; exact Hn|exact Hp]].
      apply ledBy_more with (s1 := ["h"; "p"]%char).
      * intros x Hx. destruct Hx as [<-|[<-|[]]]; cbn; auto.
      * apply open_led; [exact Hn|exact Hb|intros []].
Qed.

Lemma breaks_pieces blocks :
  Forall (fun b => In (fst b) closeNames /\ cleanBody (snd b)) blocks ->
  Forall (ledBy ["h"; "p"]%char)
    (map (fun b => openTag (fst b) ++ snd b ++ js "\n\n") blocks).
Proof.
  induction 1 as [|[n body] blocks [Hn [_ Hb]] _ IH]; [constructor|].
  cbn [map fst snd]. constructor; [|exact IH].
  apply open_led; [exact Hn|exact Hb|].
  intros H. repeat (destruct H as [H|H]; [discriminate H|]). exact H.
Qed.

Lemma interleave_blocks B (f g : B -> text) (bs : list B) :
  interleave (map (fun tb => (fst tb, g (snd tb))) (map (fun b => (f b, b)) bs)) []
  = concat (map (fun b => f b ++ g b) bs).
Proof.
  induction bs as [|b bs IH]; [reflexivity|].
  cbn [map interleave fst snd concat]. rewrite IH, <- app_assoc. reflexivity.
Qed.

Lemma hasGap_skip u s : ~ In ">"%char u -> hasGap (u ++ s) = hasGap s.
Proof.
  induction u as [|c u IH]; intros H; [reflexivity|].
  cbn [app hasGap gapAt].
  destruct (Ascii.eqb c ">") eqn:E.
  - apply Ascii.eqb_eq in E. subst c. exfalso. apply H. left. reflexivity.
  - cbn [andb orb]. apply IH. intros X. apply H. right. exact X.
Qed.

Lemma gapAt_tight x : stops isSpace x -> gapAt (">"%char :: x) = false.
Proof.
  intros H. cbn [gapAt]. destruct x as [|c x]; [reflexivity|].
  cbn [stops] in H. cbn [takeWhile]. rewrite H, andb_false_r. reflexivity.
Qed.

Lemma paras_no_gap blocks :
  Forall (fun b => In (fst b) closeNames /\ cleanBody (snd b)) blocks ->
  hasGap (concat (map paraText blocks)) = false.
Proof.
  induction 1 as [|[n body] blocks [Hn [[Hne [Hh _]] Hb]] Hbs IH]; [reflexivity|].
  cbn [map concat]. unfold paraText at 1. cbn [fst snd] in *.
  destruct (@name_led _ Hn) as [y [n' [En [_ [_ [Hgt _]]]]]].
  unfold openTag, closeTag. rewrite <- !app_assoc.
  rewrite (app_assoc (js "<") n).
  rewrite hasGap_skip.
  2:{ intros Hin. apply in_app_or in Hin. destruct Hin as [[Hin|[]]|Hin];
        [discriminate Hin|contradiction]. }
  change (js ">" ++ body ++ js "</" ++ n ++ js ">" ++ concat (map paraText blocks))
    with (">"%char :: body ++ js "</" ++ n ++ js ">" ++ concat (map paraText blocks)).
  cbn [hasGap]. rewrite gapAt_tight.
  2:{ destruct body as [|c body']; [congruence|]. cbn [app stops].
      apply (Hh c body' eq_refl). }
  cbn [orb]. rewrite hasGap_skip
    by (apply body_without; [exact Hb|right; left; reflexivity]).
  rewrite (app_assoc (js "</") n).
  rewrite hasGap_skip.
  2:{ intros Hin. apply in_app_or in Hin. destruct Hin as [Hin|Hin]; [|contradiction].
      repeat (destruct Hin as [Hin|Hin]; [discriminate Hin|]). exact Hin. }
  change (js ">" ++ concat (map paraText blocks))
    with (">"%char :: concat (map paraText blocks)).
  cbn [hasGap]. rewrite IH, orb_false_r. apply gapAt_tight.
  destruct blocks as [|[n2 b2] blocks']; [exact I|]. reflexivity.
Qed.

Lemma calm_body u x : forall k,
  u <> [] -> forallb bodyChar u = true -> calm k (u ++ x) = calm 0 x.
Proof.
  induction u as [|c u IH]; intros k Hne H; [congruence|].
  cbn [forallb] in H. apply andb_prop in H. destruct H as [Hc H].
  assert (Ec : isLF c = false).
  { unfold bodyChar in Hc. apply andb_prop in Hc. destruct Hc as [_ Hc].
    apply negb_true_iff. exact Hc. }
  cbn [app calm]. rewrite Ec. destruct u as [|c' u']; [reflexivity|].
  apply IH; [discriminate|exact H].
Qed.

Lemma bodies_calm blocks :
  Forall (fun b => In (fst b) closeNames /\ cleanBody (snd b)) blocks ->
  forall k, calm k (concat (map (fun b => snd b ++ js "\n\n") blocks)) = true.
Proof.
  induction 1 as [|[n body] blocks [Hn [[Hne _] Hb]] _ IH]; intros k; [reflexivity|].
  cbn [map concat snd]. rewrite <- app_assoc.
  rewrite calm_body by assumption.
  change (js "\n\n") with [LF; LF]. cbn [app calm]. change (isLF LF) with true.
  cbn [Nat.ltb Nat.leb andb]. apply IH.
Qed.

Lemma forallb_rev (P : ascii -> bool) w : forallb P (rev w) = forallb P w.
Proof.
  induction w as [|c w IH]; [reflexivity|]. cbn [rev forallb].
  rewrite forallb_app, IH. cbn [forallb]. rewrite andb_true_r. apply andb_comm.
Qed.

Lemma trim_app_spaces s w :
  solid s -> forallb isSpace w = true -> trim (s ++ w) = s.
Proof.
  intros [Hne [Hh Hl]] Hw. unfold trim, trimStart, trimEnd.
  rewrite (@dropWhile_id isSpace (s ++ w)).
  - rewrite rev_app_distr. rewrite dropWhile_app_stop.
    + apply rev_involutive.
    + rewrite forallb_rev. exact Hw.
    + destruct (rev s) as [|x u] eqn:E; [exact I|]. cbn [stops].
      apply (Hl (rev u) x). rewrite <- (rev_involutive s), E. reflexivity.
  - intros x u E. destruct s as [|c0 t]; [congruence|].
    cbn [app] in E. injection E as <- _. apply (Hh c0 t eq_refl).
Qed.

Lemma strip_breaks blocks :
  Forall (fun b => In (fst b) closeNames /\ cleanBody (snd b)) blocks ->
  stripPass [] (concat (map (fun b => openTag (fst b) ++ snd b ++ js "\n\n") blocks))
  = concat (map (fun b => snd b ++ js "\n\n") blocks).
Proof.
  intros Hb. unfold stripPass. cbn [length Nat.eqb]. rewrite replaceAll_from.
  set (doc := flat_map (fun b => [Tag false (fst b) []; Text (snd b ++ js "\n\n")]) blocks).
  assert (E1 : render doc
               = concat (map (fun b => openTag (fst b) ++ snd b ++ js "\n\n") blocks)).
  { unfold doc. clear Hb. induction blocks as [|[n body] blocks IH]; [reflexivity|].
    cbn [flat_map map concat render fst snd app]. rewrite IH.
    unfold tagText, openTag. cbn [app]. rewrite <- !app_assoc. reflexivity. }
  assert (E2 : render (filter (kept []) doc)
               = concat (map (fun b => snd b ++ js "\n\n") blocks)).
  { unfold doc. clear Hb E1. induction blocks as [|[n body] blocks IH]; [reflexivity|].
    cbn [flat_map map concat render fst snd app filter kept includes existsb].
    rewrite IH. reflexivity. }
  rewrite <- E1, <- E2. apply strip_doc_any.
  unfold doc. clear E1 E2 doc.
  induction Hb as [|[n body] blocks [Hn [_ Hbody]] _ IH]; [constructor|].
  cbn [flat_map app fst snd]. constructor; [|constructor; [|exact IH]].
  - destruct (@name_led _ Hn) as [y [n' [_ [_ [_ [_ [Hok _]]]]]]].
    split; [exact Hok|reflexivity].
  - cbn [piece_ok]. intros Hin. apply in_app_or in Hin.
    destruct Hin as [Hin|Hin].
    + revert Hin. apply body_without; [exact Hbody|left; reflexivity].
    + repeat (destruct Hin as [Hin|Hin]; [discriminate Hin|]). exact Hin.
Qed.

Lemma unfold_preserveFormat html ig :
  html <> [] ->
  preserveFormat html ig
  = trim (collapseNewlines (decodeEntities (stripPass ig
      (tablePass ig (blockquotePass ig (ulPass ig (olPass ig (linkPass ig
        (italicPass ig (boldPass ig (closePass ig (brPass ig
          (normalizeGaps html))))))))))))).
Proof. destruct html; [congruence|reflexivity]. Qed.

(** X20. A document of headings and paragraphs, from end to end: for
    [<h1>] to [<h6>] and [<p>] elements written one after the other in
    lower case, each with a body that is not empty, has no [<], [>], [&] or
    newline and no white space at either end, preserveFormat without
    ignoreTags returns the bodies separated by one empty line. *)
Theorem preserveFormat_paragraphs (blocks : list (text * text)) :
  blocks <> [] ->
  Forall (fun b => In (fst b) closeNames /\ cleanBody (snd b)) blocks ->
  preserveFormat (concat (map paraText blocks)) [] = join (js "\n\n") (map snd blocks).
Proof.
  intros Hne Hb.
  set (D0 := concat (map paraText blocks)).
  set (D1 := concat (map (fun b => openTag (fst b) ++ snd b ++ js "\n\n") blocks)).
  set (D2 := concat (map (fun b => snd b ++ js "\n\n") blocks)).
  assert (H0 : D0 <> []).
  { unfold D0. destruct blocks as [|[n body] blocks']; [congruence|]. discriminate. }
  rewrite (@unfold_preserveFormat D0 [] H0).
  assert (E0 : normalizeGaps D0 = D0).
  { unfold normalizeGaps. apply replaceAll_none. apply no_gap_exec.
    apply paras_no_gap. exact Hb. }
  assert (F0 : forall pats, forallb (avoids f_gi ["h"; "p"; "/"]%char) pats = true ->
                 free_of f_gi pats D0 = true).
  { intros pats Hp. destruct (@paras_pieces _ Hb) as [pieces [E Hpc]].
    unfold D0. rewrite <- E. apply pieces_free with (seconds := ["h"; "p"; "/"]%char);
      assumption. }
  assert (F1 : forall fl pats, forallb (avoids fl ["h"; "p"]%char) pats = true ->
                 free_of fl pats D1 = true).
  { intros fl pats Hp. unfold D1.
    apply pieces_free with (seconds := ["h"; "p"]%char); [exact Hp|].
    apply breaks_pieces. exact Hb. }
  assert (E1 : brPass [] D0 = D0).
  { unfold brPass. cbn [includes existsb negb]. unfold brToNewline.
    apply replaceAll_free with (pats := [js "<br"]).
    - repeat constructor. apply (marker_js "br"). reflexivity.
    - intros p s H. apply (@lit_demand f_gi (js "<br") _ p s H).
    - apply F0. reflexivity. }
  assert (E2 : closePass [] D0 = D1).
  { assert (Ea : D0 = interleave
                       (map (fun tb : text * (text * text) =>
                               (fst tb, closeTag (fst (snd tb))))
                          (map (fun b => (openTag (fst b) ++ snd b, b)) blocks)) []).
    { transitivity (concat (map (fun b : text * text =>
                                   (openTag (fst b) ++ snd b) ++ closeTag (fst b))
                              blocks)).
      - unfold D0. f_equal. apply map_ext. intros b. unfold paraText. apply app_assoc.
      - symmetry. exact (interleave_blocks (fun b : text * text => openTag (fst b) ++ snd b)
                           (fun b => closeTag (fst b)) blocks). }
    assert (Eb : D1 = interleave
                       (map (fun tb : text * (text * text) => (fst tb, js "\n\n"))
                          (map (fun b => (openTag (fst b) ++ snd b, b)) blocks)) []).
    { transitivity (concat (map (fun b : text * text =>
                                   (openTag (fst b) ++ snd b) ++ js "\n\n") blocks)).
      - unfold D1. f_equal. apply map_ext. intros b. apply app_assoc.
      - symmetry. exact (interleave_blocks (fun b : text * text => openTag (fst b) ++ snd b)
                           (fun _ => js "\n\n") blocks). }
    rewrite Ea, Eb. unfold closePass.
    apply (@replace_interleave f_gi re_close _ "<"%char closePats caseless_lt
             closePats_marker close_demand) with
      (okB := fun b : text * text => In (fst b) closeNames)
      (mark := fun b : text * text => closeTag (fst b))
      (out := fun _ : text * text => js "\n\n").
    - intros [n body] Hn p s. cbn [fst] in *.
      destruct (@name_led _ Hn) as [y [n' [_ [_ [_ [_ [_ [Hlow _]]]]]]]].
      assert (Hn' : In (toLowerCase n) closeNames) by (rewrite Hlow; exact Hn).
      destruct (@close_here n s p Hn') as [mt [st' [Hm [Hw [Hg Hr]]]]].
      exists mt, st'. repeat split; assumption.
    - intros b _. eexists. reflexivity.
    - apply Forall_forall. intros tb Hin. apply in_map_iff in Hin.
      destruct Hin as [[n body] [<- Hin]]. cbn [fst snd].
      rewrite Forall_forall in Hb. destruct (Hb _ Hin) as [Hn [_ Hbody]].
      cbn [fst snd] in *. split; [|exact Hn].
      rewrite <- (app_nil_r (openTag n ++ body)).
      change ((openTag n ++ body) ++ []) with (concat [(openTag n ++ body)]).
      apply pieces_free with (seconds := ["h"; "p"]%char); [reflexivity|].
      constructor; [|constructor].
      rewrite <- (app_nil_r (openTag n ++ body)), <- app_assoc.
      apply open_led; [exact Hn|exact Hbody|intros []].
    - reflexivity. }
  assert (E3 : boldPass [] D1 = D1).
  { unfold boldPass. rewrite re_bold_pair.
    apply replaceAll_free with (pats := [openTag (js "b"); openTag (js "strong")]).
    - repeat constructor; [apply (marker_js "b>")|apply (marker_js "strong>")];
        reflexivity.
    - apply (@pair_demand _ (js "b") (js "strong") bold_alt_runs).
    - apply F1. reflexivity. }
  assert (E4 : italicPass [] D1 = D1).
  { unfold italicPass. rewrite re_italic_pair.
    apply replaceAll_free with (pats := [openTag (js "i"); openTag (js "em")]).
    - repeat constructor; [apply (marker_js "i>")|apply (marker_js "em>")];
        reflexivity.
    - apply (@pair_demand _ (js "i") (js "em") italic_alt_runs).
    - apply F1. reflexivity. }
  assert (E5 : linkPass [] D1 = D1).
  { unfold linkPass. cbn [includes existsb negb].
    apply replaceAll_free with (pats := [js "<a"]).
    - repeat constructor. apply (marker_js "a"). reflexivity.
    - intros p s H. apply (@lit_demand f_gi (js "<a") _ p s H).
    - apply F1. reflexivity. }
  assert (E6 : olPass [] D1 = D1).
  { unfold olPass. apply replaceAll_free with (pats := [js "<ol>"]).
    - repeat constructor. apply (marker_js "ol>"). reflexivity.
    - intros p s H. apply (@lit_demand f_gis (js "<ol>") _ p s H).
    - apply F1. reflexivity. }
  assert (E7 : ulPass [] D1 = D1).
  { unfold ulPass. apply replaceAll_free with (pats := [js "<ul>"]).
    - repeat constructor. apply (marker_js "ul>"). reflexivity.
    - intros p s H. apply (@lit_demand f_gis (js "<ul>") _ p s H).
    - apply F1. reflexivity. }
  assert (E8 : blockquotePass [] D1 = D1).
  { unfold blockquotePass. cbn [includes existsb negb].
    apply replaceAll_free with (pats := [js "<blockquote>"]).
    - repeat constructor. apply (marker_js "blockquote>"). reflexivity.
    - intros p s H. apply (@lit_demand f_gis (js "<blockquote>") _ p s H).
    - apply F1. reflexivity. }
  assert (E9 : tablePass [] D1 = D1).
  { unfold tablePass. apply replaceAll_free with (pats := [js "<table>"]).
    - repeat constructor. apply (marker_js "table>"). reflexivity.
    - intros p s H. apply (@lit_demand f_gis (js "<table>") _ p s H).
    - apply F1. reflexivity. }
  assert (E10 : stripPass [] D1 = D2) by (apply strip_breaks; exact Hb).
  assert (E11 : decodeEntities D2 = D2).
  { apply decodeEntities_plain. unfold D2. clear -Hb.
    induction Hb as [|[n body] blocks [_ [_ Hbody]] _ IH]; [intros []|].
    cbn [map concat snd]. intros Hin. apply in_app_or in Hin.
    destruct Hin as [Hin|Hin]; [|contradiction].
    apply in_app_or in Hin. destruct Hin as [Hin|Hin].
    - revert Hin. apply body_without; [exact Hbody|right; right; left; reflexivity].
    - repeat (destruct Hin as [Hin|Hin]; [discriminate Hin|]). exact Hin. }
  assert (E12 : collapseNewlines D2 = D2).
  { unfold collapseNewlines. rewrite replaceAll_from. apply collapse_id.
    apply bodies_calm. exact Hb. }
  rewrite E0, E1, E2, E3, E4, E5, E6, E7, E8, E9, E10, E11, E12.
  unfold D2. rewrite <- (map_map snd (fun x => x ++ js "\n\n")).
  rewrite concat_join by (destruct blocks; [congruence|discriminate]).
  apply trim_app_spaces; [|reflexivity].
  apply solid_join; [destruct blocks; [congruence|discriminate]|].
  apply Forall_forall. intros x Hx. apply in_map_iff in Hx.
  destruct Hx as [[n body] [<- Hin]]. rewrite Forall_forall in Hb.
  destruct (Hb _ Hin) as [_ [Hs _]]. exact Hs.
Qed.

Lemma preserveFormat_paragraphs_witness :
  preserveFormat (js "<h1>Title</h1><p>One two</p><p>three</p>") []
  = js "Title\n\nOne two\n\nthree".
Proof.
  apply (@preserveFormat_paragraphs
           [(js "h1", js "Title"); (js "p", js "One two"); (js "p", js "three")]).
  - discriminate.
  - repeat constructor; cbn; try tauto; try discriminate;
      intros; match goal with
              | H : _ = _ :: _ |- _ => injection H as <- _; reflexivity
              | H : _ = ?t ++ [_] |- _ =>
                  repeat (destruct t as [|? t]; cbn in H; try discriminate H);
                  injection H; intros; subst; reflexivity
              end.
Defined.

(** ** The removal of tags when some are ignored *)

Lemma P_alnum_spec x : P_alnum f_gi x = isAlnum x.
Proof. each_ascii x; reflexivity. Qed.

Lemma alnum_not_slash x : isAlnum x = true -> same f_gi x "/" = false.
Proof. each_ascii x; intros H; try discriminate H; reflexivity. Qed.

Lemma named_tag_at closing name attrs s p :
  tag_ok (Tag closing name attrs) ->
  exists mt st',
    match_here f_gi re_named_tag p (tagText closing name attrs ++ s) = Some (mt, st') /\
    whole mt = tagText closing name attrs /\ group 1 mt = name /\ rest st' = s.
Proof.
  intros [Hne [Hn [Ha Hs]]].
  destruct name as [|n0 name']; [congruence|].
  cbn [forallb] in Hn. apply andb_prop in Hn. destruct Hn as [Hn0 Hn'].
  assert (L : leads f_gi re_named_tag (tagText closing (n0 :: name') attrs ++ s) [] s
                [(1, n0 :: name')]).
  { unfold re_named_tag, tagText. rewrite <- !app_assoc.
    unfold seq at 1. cbn [fold_right]. change (js "<") with ["<"%char]. cbn [app].
    eapply leads_seq; [apply leads_chr; apply same_refl|].
    eapply leads_seq with (s1 := (n0 :: name') ++ attrs ++ js ">" ++ s) (cs1 := []).
    { unfold opt. destruct closing.
      - apply leads_alt_l. apply leads_chr. apply same_refl.
      - apply leads_alt_r; [|apply leads_eps].
        intros q. cbn [app]. rewrite run_chr. unfold one. cbn [rest].
        rewrite (alnum_not_slash _ Hn0). reflexivity. }
    eapply leads_seq with (s1 := attrs ++ js ">" ++ s) (cs1 := [(1, n0 :: name')]).
    { apply leads_grp; [|reflexivity]. unfold plus. cbn [app].
      eapply leads_seq.
      - apply leads_one with (P := P_alnum f_gi); [reflexivity|].
        rewrite P_alnum_spec. exact Hn0.
      - apply leads_star with (P := P_alnum f_gi); [reflexivity| |].
        + rewrite (@forallb_ext _ _ name' P_alnum_spec). exact Hn'.
        + destruct attrs as [|a attrs'].
          * change (P_alnum f_gi ">" = false). rewrite P_alnum_spec. reflexivity.
          * cbn [app stops] in *. rewrite P_alnum_spec. exact Hs. }
    eapply leads_seq with (s1 := js ">" ++ s) (cs1 := [(1, n0 :: name')]).
    { unfold star. apply leads_star with (P := P_not_gt f_gi); [reflexivity| |].
      - rewrite (@forallb_ext _ _ attrs (P_not_gt_any f_gi)). exact Ha.
      - change (P_not_gt f_gi ">" = false). rewrite P_not_gt_any. reflexivity. }
    eapply leads_seq; [apply leads_chr; apply same_refl|apply leads_eps]. }
  destruct (@leads_here _ _ _ _ _ L p) as [mt [st' [Hm [Hw [Hg Hr]]]]].
  exists mt, st'. unfold group. rewrite Hg. repeat split; assumption.
Qed.

Lemma named_doc ig : forall doc, Forall tag_ok doc -> forall p,
  replace_from f_gi re_named_tag
    (fun (_ : unit) mt =>
       (if includes ig (toLowerCase (group 1 mt)) then whole mt else [], tt))
    tt p (render doc)
  = render (filter (keptBy ig) doc).
Proof.
  induction 1 as [|pc doc Hpc Hdoc IH]; intros p.
  - apply replace_from_end.
    apply heads_miss_nil with (c := "<"%char); [apply caseless_lt|reflexivity].
  - destruct pc as [t|closing name attrs]; cbn [render filter keptBy].
    + cbn [tag_ok] in Hpc.
      match goal with
      | |- replace_from ?fl ?r ?cb ?a p (t ++ ?s) = _ =>
          destruct (@replace_from_plain unit fl r cb a eq_refl t p s Hpc) as [q E]
      end.
      rewrite E, IH. reflexivity.
    + destruct (@named_tag_at closing name attrs (render doc) p Hpc)
        as [mt [st' [Hm [Hw [Hg Hr]]]]].
      destruct (tagText_head closing name attrs) as [ws Ews].
      rewrite replace_from_hit with (mt := mt) (st' := st') (w := "<"%char) (ws := ws);
        [|exact Hm|rewrite Hw; exact Ews].
      cbn [fst snd]. rewrite Hg, Hw, Hr, IH.
      destruct (includes ig (toLowerCase name)); reflexivity.
Qed.

(** X21. The removal of tags in preserveFormat when ignoreTags is not
    empty, on a document of texts without [<] and tags whose names are
    letters and digits: a tag is kept exactly when its lower-cased name is
    an entry of ignoreTags as written (the entries are not lower-cased),
    and every other tag is deleted.  The name is read up to the first
    character that is no letter or digit, so ['my'] keeps [<my-tag>];
    and what starts with [<] but not with a name, such as a comment, is
    kept, although the removal with an empty ignoreTags deletes it. *)
Theorem stripPass_named_tags :
  (forall ig doc,
      ig <> [] -> Forall tag_ok doc ->
      stripPass ig (render doc) = render (filter (keptBy ig) doc)) /\
  stripPass [js "my"] (js "<my-tag>a</my-tag><b>c</b>") = js "<my-tag>a</my-tag>c" /\
  stripPass [js "x"] (js "a<!--c-->b") = js "a<!--c-->b" /\
  stripPass [] (js "a<!--c-->b") = js "ab".
Proof.
  split; [|repeat split; vm_compute; reflexivity].
  intros ig doc Hne Hdoc. unfold stripPass.
  destruct ig as [|i0 ig']; [congruence|]. cbn [length Nat.eqb].
  rewrite replaceAll_from. apply named_doc. exact Hdoc.
Qed.

Lemma stripPass_named_tags_witness :
  stripPass [js "b"]
    (render [Text (js "x "); Tag false (js "B") (js " class=\qk\q"); Text (js "y");
             Tag true (js "b") []; Tag false (js "br") (js "/")])
  = js "x <B class=\qk\q>y</b>".
Proof.
  apply (proj1 stripPass_named_tags [js "b"]
           [Text (js "x "); Tag false (js "B") (js " class=\qk\q"); Text (js "y");
            Tag true (js "b") []; Tag false (js "br") (js "/")]).
  - discriminate.
  - repeat constructor; cbn; try discriminate;
      intros H; repeat (destruct H as [H|H]; [discriminate H|]); exact H.
Defined.

(** ** What a trim removes *)

(** The trim of a text is the text without a run of white space at its
    start and a run of white space at its end. *)
Lemma trim_splits s :
  exists a b, s = a ++ trim s ++ b /\
              forallb isSpace a = true /\ forallb isSpace b = true.
Proof.
  unfold trim, trimStart, trimEnd. set (d := dropWhile isSpace s).
  exists (takeWhile isSpace s), (rev (takeWhile isSpace (rev d))).
  split; [|split].
  - rewrite <- rev_app_distr, take_drop_while, rev_involutive. unfold d.
    symmetry. apply take_drop_while.
  - apply takeWhile_all.
  - rewrite forallb_rev. apply takeWhile_all.
Qed.

(** ** C2: wrapByWords, the statement *)

(** C2. For every text and every integer count, wrapByWords fails (with the
    message of its Error) exactly when count <= 0.  For count > 0 it trims
    the text: the text is a run of white space, a middle part that neither
    starts nor ends with white space, and a run of white space, and only the
    middle part counts.  It takes the words of the middle part, the pieces
    between its runs of white space, which are not empty and hold no white
    space (a blank text has the empty word only, and the result is empty);
    it cuts them into consecutive groups of exactly count words (the last
    may be shorter), joins the words of each group with a space and the
    groups with newlines.  wrapByWords("one two three four five", 2) is
    "one two\nthree four\nfive", and white space around the text and runs of
    it between the words leave no trace. *)
Theorem wrapByWords_spec (txt : text) (count : Z) :
  ((exists message, wrapByWords txt count = Throws message) <-> (count <= 0)%Z) /\
  ((0 < count)%Z ->
   exists before middle after groups,
     txt = before ++ middle ++ after /\
     forallb isSpace before = true /\ forallb isSpace after = true /\
     trimmed middle /\ middle = trim txt /\
     (middle <> [] -> Forall isWord (wordsOf middle)) /\
     (middle = [] -> wordsOf middle = [[]]) /\
     chunked (Z.to_nat count) (wordsOf middle) groups /\
     wrapByWords txt count
     = Returns (join (js "\n") (map (join (js " ")) groups))) /\
  ((0 < count)%Z -> forallb isSpace txt = true -> wrapByWords txt count = Returns []) /\
  wrapByWords (js "one two three four five") 2
  = Returns (js "one two\nthree four\nfive") /\
  wrapByWords (js " \t one  two\nthree \n") 2 = Returns (js "one two\nthree") /\
  wrapByWords (js "  one two  ") 1 = Returns (js "one\ntwo").
Proof.
  assert (Hmain : (0 < count)%Z ->
    exists groups,
      chunked (Z.to_nat count) (wordsOf (trim txt)) groups /\
      wrapByWords txt count
      = Returns (join (js "\n") (map (join (js " ")) groups))).
  { intros Hc. unfold wrapByWords.
    rewrite (proj2 (Z.leb_gt _ _)) by exact Hc.
    rewrite split_words.
    set (words := wordsOf (trim txt)).
    set (n := Z.to_nat count).
    assert (Hn : 1 <= n) by (unfold n; lia).
    exists (chunks_fuel (length words) n words). split.
    + split.
      * apply chunks_concat; [exact Hn|lia].
      * apply chunks_shape; [exact Hn|lia].
    + replace count with (Z.of_nat n) by (unfold n; lia).
      change 0%Z with (Z.of_nat 0).
      rewrite wrap_loop_chunks by (try exact Hn; lia).
      reflexivity. }
  split; [|split; [|split; [|split; [|split]]]].
  - unfold wrapByWords. destruct (Z.leb_spec count 0) as [H|H].
    + split; [intros _; exact H|]. intros _. eexists. reflexivity.
    + split; [intros [m Hm]; discriminate|lia].
  - intros Hc. destruct (Hmain Hc) as [groups [Hg Hw]].
    destruct (trim_splits txt) as [a [b [Hs [Ha Hb]]]].
    exists a, (trim txt), b, groups.
    split; [exact Hs|]. split; [exact Ha|]. split; [exact Hb|].
    split; [apply trim_trimmed|]. split; [reflexivity|].
    split; [intros Hne; apply words_of_trimmed; [exact Hne|apply trim_trimmed]|].
    split; [intros ->; reflexivity|]. split; assumption.
  - intros Hc Hsp. destruct (Hmain Hc) as [groups [[Hcat Hshape] Hw]].
    assert (Ht : trim txt = []).
    { unfold trim, trimStart, trimEnd.
      assert (Hd : dropWhile isSpace txt = []).
      { clear -Hsp. induction txt as [|c t IH]; [reflexivity|].
        cbn [forallb] in Hsp. apply andb_prop in Hsp. destruct Hsp as [Hc Ht].
        cbn [dropWhile]. rewrite Hc. apply IH. exact Ht. }
      rewrite Hd. reflexivity. }
    rewrite Ht in Hcat. change (wordsOf []) with [@nil ascii] in Hcat.
    rewrite Hw. f_equal.
    destruct groups as [|g gs]; [discriminate|].
    destruct (Hshape [] g gs eq_refl) as [[Hg1 _] _].
    destruct g as [|w g]; [simpl in Hg1; lia|].
    cbn [concat app] in Hcat. injection Hcat as Hw0 Hrest.
    destruct g; [|discriminate]. cbn [app] in Hrest.
    destruct gs as [|g' gs].
    + subst w. reflexivity.
    + destruct (Hshape [[w]] g' gs eq_refl) as [[Hg' _] _].
      destruct g'; [simpl in Hg'; lia|discriminate].
  - vm_compute. reflexivity.
  - vm_compute. reflexivity.
  - vm_compute. reflexivity.
Qed.

Lemma wrapByWords_spec_witness :
  (0 < 2)%Z /\
  exists before middle after groups,
    js " \t a b\n c  " = before ++ middle ++ after /\
    forallb isSpace before = true /\ forallb isSpace after = true /\
    trimmed middle /\ middle = trim (js " \t a b\n c  ") /\
    (middle <> [] -> Forall isWord (wordsOf middle)) /\
    (middle = [] -> wordsOf middle = [[]]) /\
    chunked (Z.to_nat 2) (wordsOf middle) groups /\
    wrapByWords (js " \t a b\n c  ") 2
    = Returns (join (js "\n") (map (join (js " ")) groups)).
Proof.
  split; [lia|].
  apply (proj1 (proj2 (wrapByWords_spec (js " \t a b\n c  ") 2))). lia.
Defined.

(** ** C8: blockquotes, the statement *)

Lemma dot_all_s (s : text) : forallb (P_dot f_gis) s = true.
Proof. induction s as [|c s IH]; [reflexivity|exact IH]. Qed.

(** A block whose content does not mention the closing tag is matched as a
    whole, wherever it stands. *)
Lemma blockquote_block_here content s p :
  mentions f_gis (js "</blockquote>") content = false ->
  exists mt st',
    match_here f_gis re_blockquote p
      ((js "<blockquote>" ++ content ++ js "</blockquote>") ++ s) = Some (mt, st') /\
    whole mt = js "<blockquote>" ++ content ++ js "</blockquote>" /\
    group 1 mt = content /\ rest st' = s.
Proof.
  intros H. rewrite re_blockquote_block. rewrite <- !app_assoc.
  apply block_here; [discriminate|].
  apply mentions_clear with (k := "<"%char).
  - exact caseless_lt.
  - apply (marker_js "/blockquote>"). reflexivity.
  - apply follows_cons.
  - exact H.
  - apply dot_all_s.
Qed.

(** C8, as the program has it.  When neither 'blockquote' nor 'br' is in
    ignoreTags, every [<blockquote>...</blockquote>] block of a document,
    however many there are, is replaced as follows (the content of a block
    is any text in which the closing tag does not occur, the texts between
    the blocks any texts in which the opening tag does not occur): the
    [<br>] of the content become newlines; the content is trimmed and split
    at the newlines; every line, the empty ones too, is trimmed and prefixed
    with "> "; the lines are joined with newlines; the texts between the
    blocks stay.  To trim a text is to take away the white space at its two
    ends.  When 'blockquote' is in ignoreTags, the pass leaves any text as
    it is; a [<br>] inside a block has by then become a newline exactly when
    'br' is not in ignoreTags. *)
Theorem blockquotePass_quotes :
  (forall ig blocks tail,
      includes ig (js "blockquote") = false -> includes ig (js "br") = false ->
      Forall (fun tb => free_of f_gis [js "<blockquote>"] (fst tb) = true /\
                        mentions f_gis (js "</blockquote>") (snd tb) = false) blocks ->
      free_of f_gis [js "<blockquote>"] tail = true ->
      blockquotePass ig
        (interleave
           (map (fun tb => (fst tb, js "<blockquote>" ++ snd tb ++ js "</blockquote>"))
                blocks) tail)
      = interleave
          (map (fun tb => (fst tb,
                           join (js "\n")
                             (map (fun line => js "> " ++ trim line)
                                  (splitOn LF (trim (brToNewline (snd tb)))))))
               blocks) tail) /\
  (forall s, exists before after,
      s = before ++ trim s ++ after /\ forallb isSpace before = true /\
      forallb isSpace after = true /\ trimmed (trim s)) /\
  (forall ig html, includes ig (js "blockquote") = true -> blockquotePass ig html = html) /\
  (forall ig html, includes ig (js "br") = false -> brPass ig html = brToNewline html) /\
  (forall ig html, includes ig (js "br") = true -> brPass ig html = html) /\
  preserveFormat (js "<blockquote>a<br> <br> b </blockquote>") [] = js "> a\n> \n> b" /\
  preserveFormat
    (js "<blockquote> a<br/>b </blockquote>, then <BlockQuote>\n c <br> d\n</BLOCKQUOTE>.") []
  = js "> a\n> b, then > c\n> d." /\
  preserveFormat (js "<blockquote>a<br>b</blockquote>") [js "blockquote"]
  = js "<blockquote>a\nb</blockquote>" /\
  preserveFormat (js "<blockquote>a<br>b</blockquote>") [js "blockquote"; js "br"]
  = js "<blockquote>a<br>b</blockquote>".
Proof.
  split; [|split; [|split; [|split; [|split; [|split; [|split; [|split]]]]]]].
  - intros ig blocks tail Hig _ Hb Ht.
    unfold blockquotePass. rewrite Hig. cbn [negb].
    apply (@replace_interleave f_gis re_blockquote
             (fun mt => quoteLines (group 1 mt)) "<"%char [js "<blockquote>"]
             caseless_lt) with
      (okB := fun content => mentions f_gis (js "</blockquote>") content = false)
      (mark := fun content => js "<blockquote>" ++ content ++ js "</blockquote>")
      (out := quoteLines); try assumption.
    + constructor; [|constructor]. apply (marker_js "blockquote>"). reflexivity.
    + intros p s H. apply (@lit_demand f_gis (js "<blockquote>") _ p s H).
    + intros content Hc p s.
      destruct (@blockquote_block_here content s p Hc) as [mt [st' [Hm [Hw [Hg Hr]]]]].
      exists mt, st'. repeat split; try assumption. rewrite Hg. reflexivity.
    + intros content _. eexists. reflexivity.
  - intros s. destruct (trim_splits s) as [a [b [Hs [Ha Hb]]]].
    exists a, b. repeat split; try assumption; apply trim_trimmed.
  - intros ig html H. unfold blockquotePass. rewrite H. reflexivity.
  - intros ig html H. unfold brPass. rewrite H. reflexivity.
  - intros ig html H. unfold brPass. rewrite H. reflexivity.
  - vm_compute. reflexivity.
  - vm_compute. reflexivity.
  - vm_compute. reflexivity.
  - vm_compute. reflexivity.
Qed.

Lemma blockquotePass_quotes_witness :
  blockquotePass [js "b"]
    (interleave
       (map (fun tb => (fst tb, js "<blockquote>" ++ snd tb ++ js "</blockquote>"))
            [(js "Said: ", js " one<br/><BR>two "); (js " <i>and</i> ", js "<b>x</b>\n y")])
       (js "."))
  = interleave
      (map (fun tb => (fst tb,
                       join (js "\n")
                         (map (fun line => js "> " ++ trim line)
                              (splitOn LF (trim (brToNewline (snd tb)))))))
           [(js "Said: ", js " one<br/><BR>two "); (js " <i>and</i> ", js "<b>x</b>\n y")])
      (js ".").
Proof.
  apply (proj1 blockquotePass_quotes); try reflexivity.
  repeat constructor.
Defined.

(** C8 as stated fails: with 'blockquote' and 'br' both in ignoreTags the
    inner [<br>] is not converted to a newline; and an empty line gets the
    prefix as well. *)
Lemma blockquotePass_quotes_counterexample :
  includes [js "blockquote"; js "br"] (js "blockquote") = true /\
  preserveFormat (js "<blockquote>a<br>b</blockquote>") [js "blockquote"; js "br"]
  = js "<blockquote>a<br>b</blockquote>" /\
  preserveFormat (js "<blockquote>a<br>b</blockquote>") [js "blockquote"; js "br"]
  <> js "<blockquote>a\nb</blockquote>" /\
  preserveFormat (js "<blockquote>a<br><br>b</blockquote>") [] = js "> a\n> \n> b".
Proof.
  repeat split; try (vm_compute; reflexivity); vm_compute; discriminate.
Qed.

(** ** C5: textify without formatting, the statement *)

(** C5, as the program has it.  For every input and every ignoreTags,
    textify without formatting is the removal of tags followed by a trim:
    some pieces of the form [<...>] are taken out of the input, every other
    character is kept in place, so that no entity is decoded, and the result
    is what is left without the white space at its two ends.  With an empty
    ignoreTags no piece [<...>] is left, whatever the input.  On a document
    made of texts without [<] and of tags, opening or closing, whose name
    starts with a letter, goes on with letters, digits and hyphens and ends
    with a letter or a digit, and whose attributes hold no [>] and do not
    start with a character of names or words, every tag whose lower-cased
    name is not among the lower-cased ignoreTags is removed, every other tag
    and every text is kept as it is.  So "&amp;", "&nbsp;", "&lt;" and
    "&gt;" stay. *)
Theorem textify_strip_mode :
  (forall html ig, textify html false ig None None = Returns (stripTags ig html)) /\
  (forall html ig, exists kept_text before after,
     tags_deleted html kept_text /\
     kept_text = before ++ stripTags ig html ++ after /\
     forallb isSpace before = true /\ forallb isSpace after = true /\
     trimmed (stripTags ig html) /\
     stripTags ig html = trim kept_text) /\
  (forall html, hasTag (stripTags [] html) = false) /\
  (forall ig doc, Forall piece_ok doc ->
     stripTags ig (render doc) = trim (render (filter (kept ig) doc)) /\
     exists before after,
       render (filter (kept ig) doc) = before ++ stripTags ig (render doc) ++ after /\
       forallb isSpace before = true /\ forallb isSpace after = true /\
       trimmed (stripTags ig (render doc))) /\
  textify (js "<p class=\qx\q>a &amp; b&nbsp;&lt;c&gt; <B>d</B><br/></p>") false [js "b"]
    None None
  = Returns (js "a &amp; b&nbsp;&lt;c&gt; <B>d</B>") /\
  textify (js " \n<p> a &amp; b </p>\t<br> ") false [] None None
  = Returns (js "a &amp; b").
Proof.
  assert (Hdoc : forall ig doc, Forall piece_ok doc ->
            stripTags ig (render doc) = trim (render (filter (kept ig) doc))).
  { intros ig doc Hdoc. unfold stripTags. destruct ig as [|e ig].
    + cbn [length Nat.eqb]. rewrite replaceAll_from.
      rewrite strip_doc_any by exact Hdoc. reflexivity.
    + cbn [length Nat.eqb]. rewrite replaceAll_from.
      rewrite strip_doc_named by exact Hdoc. reflexivity. }
  split; [|split; [|split; [|split; [|split]]]].
  - intros html ig. unfold textify. destruct html; [|reflexivity].
    rewrite stripTags_empty. reflexivity.
  - intros html ig. destruct (stripTags_deletes ig html) as [kept_text [Hd Hs]].
    destruct (trim_splits kept_text) as [a [b [Hk [Ha Hb]]]].
    exists kept_text, a, b. rewrite Hs.
    repeat split; try assumption; try apply trim_trimmed.
  - intros html. unfold stripTags. cbn [length Nat.eqb]. apply hasTag_trim.
    rewrite replaceAll_from. apply remove_all_no_tag with (n := length html). lia.
  - intros ig doc Hd. split; [apply Hdoc; exact Hd|].
    rewrite (Hdoc ig doc Hd).
    destruct (trim_splits (render (filter (kept ig) doc))) as [a [b [Hk [Ha Hb]]]].
    exists a, b. repeat split; try assumption; apply trim_trimmed.
  - vm_compute. reflexivity.
  - vm_compute. reflexivity.
Qed.

Lemma textify_strip_mode_witness :
  stripTags [js "MARK"]
    (render [Text (js " \n"); Tag false (js "p") (js " id=\q1\q"); Text (js " x &amp; y ");
             Tag false (js "mark") []; Text (js "z"); Tag true (js "mark") [];
             Tag true (js "p") []; Text (js "\t ")])
  = trim (render (filter (kept [js "MARK"])
            [Text (js " \n"); Tag false (js "p") (js " id=\q1\q"); Text (js " x &amp; y ");
             Tag false (js "mark") []; Text (js "z"); Tag true (js "mark") [];
             Tag true (js "p") []; Text (js "\t ")])) /\
  exists before after,
    render (filter (kept [js "MARK"])
      [Text (js " \n"); Tag false (js "p") (js " id=\q1\q"); Text (js " x &amp; y ");
       Tag false (js "mark") []; Text (js "z"); Tag true (js "mark") [];
       Tag true (js "p") []; Text (js "\t ")])
    = before
      ++ stripTags [js "MARK"]
           (render [Text (js " \n"); Tag false (js "p") (js " id=\q1\q");
                    Text (js " x &amp; y "); Tag false (js "mark") []; Text (js "z");
                    Tag true (js "mark") []; Tag true (js "p") []; Text (js "\t ")])
      ++ after /\
    forallb isSpace before = true /\ forallb isSpace after = true /\
    trimmed
      (stripTags [js "MARK"]
         (render [Text (js " \n"); Tag false (js "p") (js " id=\q1\q");
                  Text (js " x &amp; y "); Tag false (js "mark") []; Text (js "z");
                  Tag true (js "mark") []; Tag true (js "p") []; Text (js "\t ")])).
Proof.
  apply (proj1 (proj2 (proj2 (proj2 textify_strip_mode)))).
  repeat constructor; cbn;
    intros H; repeat (destruct H as [H|H]; [discriminate|]); exact H.
Defined.

(** C5 as stated fails: whether a tag goes is not decided by its name being
    in ignoreTags.  With a non-empty ignoreTags a tag is recognised by a
    name of letters, digits and hyphens that ends at a word boundary:
    [<a_b>] is not recognised, and stays although "a_b" is not in
    ignoreTags; [<o:p>] is recognised as "o", and goes although "o:p" is in
    ignoreTags. *)
Lemma textify_strip_mode_counterexample :
  includes [js "z"] (js "a_b") = false /\
  textify (js "<a_b>x</a_b>") false [js "z"] None None = Returns (js "<a_b>x</a_b>") /\
  includes [js "o:p"] (js "o:p") = true /\
  textify (js "<o:p>x</o:p>") false [js "o:p"] None None = Returns (js "x").
Proof. repeat split; vm_compute; reflexivity. Qed.
